(** * pythran/optimizations.py: the optimisation passes, embedded and verified

    The passes of [optimizations.py] are [ast.NodeTransformer]s: they walk a
    Python 2 syntax tree, consult analyses computed beforehand and rebuild the
    tree.  This development embeds

    - the syntax tree, every node carrying the identity of the Python object
      (analysis results are sets and lists of node objects, compared by
      identity);
    - the traversal of [ast.NodeTransformer] ([visit] / [generic_visit]);
    - [ConstantFolding], [LoopFullUnrolling], [_LazyRemover],
      [ForwardSubstitution] and [DeadCodeElimination], and after them
      [Pow2] and [IterTransformation];

    in a state-and-exception monad: the state holds the supply of identities
    for the nodes a pass creates (and [self.capture] for [_LazyRemover]), the
    exceptions are the Python exceptions the code can raise.

    The analyses ([analysis.py]), the pass manager ([passmanager.py]) and
    [metadata.py] are not part of the file: their results are the Variables of
    the sections below. *)

From Stdlib Require Import ZArith String List Lia.
From stdpp Require Import base option list gmap strings.

Local Open Scope string_scope.
Local Open Scope list_scope.
Local Set Warnings "-register-all".

(** ** Syntax trees (the [ast] module of Python 2) *)

Module ast.

Inductive expr_context := Load | Store | Del | AugLoad | AugStore | Param.

Inductive operator := Add | Sub | Mult | Div | Mod | Pow.

(** The payload of [ast.Num]: an object whose type is exactly [int], [long],
    [float] or [complex].  Floats and complex numbers are kept as their
    [repr]. *)
Inductive num :=
| PyInt (z : Z)
| PyLong (z : Z)
| PyFloat (repr : string)
| PyComplex (repr : string).

(** Expressions.  The first argument of every constructor is the identity of
    the node object.  [Index] is the only [slice] the passes look at; it is
    kept among the expressions.  Context and operator nodes carry no identity:
    no pass and no analysis result refers to them. *)
Inductive expr :=
| Num (i : nat) (n : num)
| Str (i : nat) (s : string)
| Name (i : nat) (id : string) (ctx : expr_context)
| Attribute (i : nat) (value : expr) (attr : string) (ctx : expr_context)
| BinOp (i : nat) (left : expr) (op : operator) (right : expr)
| Call (i : nat) (func : expr) (args : list expr)
| List (i : nat) (elts : list expr) (ctx : expr_context)
| Tuple (i : nat) (elts : list expr) (ctx : expr_context)
| Set_ (i : nat) (elts : list expr)
| Dict (i : nat) (keys : list expr) (values : list expr)
| Subscript (i : nat) (value : expr) (slice : expr) (ctx : expr_context)
| Index (i : nat) (value : expr)
| Yield (i : nat) (value : option expr).

(** Statements; the fields are in the order of [_fields], which is the order
    in which [generic_visit] walks them. *)
Inductive stmt :=
| FunctionDef (i : nat) (name : string) (args : list expr) (body : list stmt)
| Return (i : nat) (value : option expr)
| Assign (i : nat) (targets : list expr) (value : expr)
| AugAssign (i : nat) (target : expr) (op : operator) (value : expr)
| Print (i : nat) (values : list expr)
| For (i : nat) (target : expr) (iter : expr) (body : list stmt) (orelse : list stmt)
| While (i : nat) (test : expr) (body : list stmt) (orelse : list stmt)
| If (i : nat) (test : expr) (body : list stmt) (orelse : list stmt)
| Expr (i : nat) (value : expr)
| Pass (i : nat)
| Break (i : nat)
| Continue (i : nat).

End ast.

(** [id(node)]: the identity of a node object. *)
Definition expr_id (e : ast.expr) : nat :=
  match e with
  | ast.Num i _ | ast.Str i _ | ast.Name i _ _ | ast.Attribute i _ _ _
  | ast.BinOp i _ _ _ | ast.Call i _ _ | ast.List i _ _ | ast.Tuple i _ _
  | ast.Set_ i _ | ast.Dict i _ _ | ast.Subscript i _ _ _ | ast.Index i _
  | ast.Yield i _ => i
  end.

Definition stmt_id (s : ast.stmt) : nat :=
  match s with
  | ast.FunctionDef i _ _ _ | ast.Return i _ | ast.Assign i _ _
  | ast.AugAssign i _ _ _ | ast.Print i _ | ast.For i _ _ _ _
  | ast.While i _ _ _ | ast.If i _ _ _ | ast.Expr i _ | ast.Pass i
  | ast.Break i | ast.Continue i => i
  end.

(** [node in nodes] for a list of node objects: nodes define no [__eq__], so
    membership is by identity. *)
Definition node_in (e : ast.expr) (nodes : list ast.expr) : bool :=
  existsb (fun n => Nat.eqb (expr_id n) (expr_id e)) nodes.

(** [nodes.remove(e)]: drops the first occurrence of the object [e]. *)
Fixpoint list_remove (e : ast.expr) (nodes : list ast.expr) : list ast.expr :=
  match nodes with
  | [] => []
  | n :: rest =>
      if Nat.eqb (expr_id n) (expr_id e) then rest else n :: list_remove e rest
  end.

(** ** Exceptions and the monad of a pass *)

Inductive exn :=
| KeyError (key : string)
| TypeError
| AttributeError
| ConversionError
| EvalError (what : string).

(** What a computation ends in: a value, a raised exception, or a tree that
    is no syntax tree any more because [generic_visit] deleted a mandatory
    field of a node ([delattr], when [visit] answers [None] for it). *)
Inductive outcome (A : Type) :=
| Ok (a : A)
| Raise (e : exn)
| Malformed.
Arguments Ok {A} a.
Arguments Raise {A} e.
Arguments Malformed {A}.

Definition M (S A : Type) : Type := S -> outcome (A * S).

Definition ret {S A} (a : A) : M S A := fun s => Ok (a, s).

Definition bind {S A B} (m : M S A) (k : A -> M S B) : M S B :=
  fun s => match m s with
           | Ok (a, s') => k a s'
           | Raise e => Raise e
           | Malformed => Malformed
           end.

Definition raise {S A} (e : exn) : M S A := fun _ => Raise e.

Definition malformed {S A} : M S A := fun _ => Malformed.

(** [try: m except Exception: handler]; the handler runs in the state the
    [try] block was entered in (the objects the block created are garbage). *)
Definition try_except {S A} (m : M S A) (handler : M S A) : M S A :=
  fun s => match m s with
           | Raise _ => handler s
           | r => r
           end.

Notation "x <- m ;; k" := (bind m (fun x => k))
  (at level 100, m at next level, right associativity).

(** A mandatory field that [visit] answered [None] for is deleted. *)
Definition field {S A} (m : M S (option A)) : M S A :=
  r <- m ;; match r with Some a => ret a | None => malformed end.

(** ** [ast.NodeTransformer]

    [visit node] calls the method [visit_<Class>] of the pass when there is
    one and [generic_visit] otherwise.  A pass is given by its two dispatch
    functions: each receives the node and the computation
    [self.generic_visit(node)] for that node, and answers what [visit]
    returns: for an expression a node or [None], for a statement a node, a
    list of nodes, or [None] (the empty list). *)
Section NodeTransformer.

Context {S : Type}.
Variable visit_expr_method : ast.expr -> M S ast.expr -> M S (option ast.expr).
Variable visit_stmt_method : ast.stmt -> M S ast.stmt -> M S (list ast.stmt).

(** [generic_visit]: every field that holds nodes is visited in order; in a
    list field an answer [None] drops the element and a list is spliced in;
    the node is updated in place and returned (it keeps its identity). *)
Fixpoint generic_visit_expr (e : ast.expr) : M S ast.expr :=
  let visit c := visit_expr_method c (generic_visit_expr c) in
  let visit_list :=
    fix go (l : list ast.expr) : M S (list ast.expr) :=
      match l with
      | [] => ret []
      | c :: l' =>
          r <- visit_expr_method c (generic_visit_expr c) ;;
          rs <- go l' ;;
          ret (match r with Some c' => c' :: rs | None => rs end)
      end in
  match e with
  | ast.Num _ _ | ast.Str _ _ | ast.Name _ _ _ => ret e
  | ast.Attribute i v a c =>
      v' <- field (visit v) ;; ret (ast.Attribute i v' a c)
  | ast.BinOp i l o r =>
      l' <- field (visit l) ;; r' <- field (visit r) ;; ret (ast.BinOp i l' o r')
  | ast.Call i f args =>
      f' <- field (visit f) ;; args' <- visit_list args ;; ret (ast.Call i f' args')
  | ast.List i elts c => elts' <- visit_list elts ;; ret (ast.List i elts' c)
  | ast.Tuple i elts c => elts' <- visit_list elts ;; ret (ast.Tuple i elts' c)
  | ast.Set_ i elts => elts' <- visit_list elts ;; ret (ast.Set_ i elts')
  | ast.Dict i ks vs =>
      ks' <- visit_list ks ;; vs' <- visit_list vs ;; ret (ast.Dict i ks' vs')
  | ast.Subscript i v sl c =>
      v' <- field (visit v) ;; sl' <- field (visit sl) ;;
      ret (ast.Subscript i v' sl' c)
  | ast.Index i v => v' <- field (visit v) ;; ret (ast.Index i v')
  | ast.Yield i None => ret e
  | ast.Yield i (Some v) => v' <- field (visit v) ;; ret (ast.Yield i (Some v'))
  end.

Definition visit_expr (e : ast.expr) : M S (option ast.expr) :=
  visit_expr_method e (generic_visit_expr e).

Fixpoint visit_exprs (l : list ast.expr) : M S (list ast.expr) :=
  match l with
  | [] => ret []
  | c :: l' =>
      r <- visit_expr c ;;
      rs <- visit_exprs l' ;;
      ret (match r with Some c' => c' :: rs | None => rs end)
  end.

Fixpoint generic_visit_stmt (s : ast.stmt) : M S ast.stmt :=
  let visit_list :=
    fix go (l : list ast.stmt) : M S (list ast.stmt) :=
      match l with
      | [] => ret []
      | c :: l' =>
          r <- visit_stmt_method c (generic_visit_stmt c) ;;
          rs <- go l' ;;
          ret (r ++ rs)
      end in
  match s with
  | ast.FunctionDef i name args body =>
      args' <- visit_exprs args ;; body' <- visit_list body ;;
      ret (ast.FunctionDef i name args' body')
  | ast.Return i None => ret s
  | ast.Return i (Some v) =>
      v' <- field (visit_expr v) ;; ret (ast.Return i (Some v'))
  | ast.Assign i targets v =>
      targets' <- visit_exprs targets ;; v' <- field (visit_expr v) ;;
      ret (ast.Assign i targets' v')
  | ast.AugAssign i t o v =>
      t' <- field (visit_expr t) ;; v' <- field (visit_expr v) ;;
      ret (ast.AugAssign i t' o v')
  | ast.Print i values => values' <- visit_exprs values ;; ret (ast.Print i values')
  | ast.For i t it body orelse =>
      t' <- field (visit_expr t) ;; it' <- field (visit_expr it) ;;
      body' <- visit_list body ;; orelse' <- visit_list orelse ;;
      ret (ast.For i t' it' body' orelse')
  | ast.While i t body orelse =>
      t' <- field (visit_expr t) ;;
      body' <- visit_list body ;; orelse' <- visit_list orelse ;;
      ret (ast.While i t' body' orelse')
  | ast.If i t body orelse =>
      t' <- field (visit_expr t) ;;
      body' <- visit_list body ;; orelse' <- visit_list orelse ;;
      ret (ast.If i t' body' orelse')
  | ast.Expr i v => v' <- field (visit_expr v) ;; ret (ast.Expr i v')
  | ast.Pass _ | ast.Break _ | ast.Continue _ => ret s
  end.

Definition visit_stmt (s : ast.stmt) : M S (list ast.stmt) :=
  visit_stmt_method s (generic_visit_stmt s).

Fixpoint visit_stmts (l : list ast.stmt) : M S (list ast.stmt) :=
  match l with
  | [] => ret []
  | c :: l' => r <- visit_stmt c ;; rs <- visit_stmts l' ;; ret (r ++ rs)
  end.

End NodeTransformer.

(** The dispatch of a class that has no [visit_<Class>] for the node. *)
Definition default_visit_expr {S} (e : ast.expr) (generic_visit : M S ast.expr)
  : M S (option ast.expr) :=
  n <- generic_visit ;; ret (Some n).

Definition default_visit_stmt {S} (s : ast.stmt) (generic_visit : M S ast.stmt)
  : M S (list ast.stmt) :=
  n <- generic_visit ;; ret [n].

(** [filter(f, l)] of Python 2 for an [f] that may raise. *)
Fixpoint filterM {S A} (f : A -> M S bool) (l : list A) : M S (list A) :=
  match l with
  | [] => ret []
  | a :: l' =>
      b <- f a ;; rest <- filterM f l' ;; ret (if b then a :: rest else rest)
  end.

(** A pass that creates nodes draws their identities from a counter. *)
Definition fresh : M nat nat := fun next => Ok (next, S next).

(** ** Analysis results *)

(** A use-def chain: the nodes of the graph with their attributes
    [udgraph.node[n]['name']] (the [ast.Name] object of the occurrence) and
    [udgraph.node[n]['action']] ("D", "U" or "UD").  No pass reads the edges. *)
Record ud_node := { name : ast.expr; action : string }.

Abbreviation ud_graph := (list ud_node).

(** [node in some_set] for an analysis result that is a set of nodes. *)
Definition in_set (i : nat) (nodes : gset nat) : bool := bool_decide (i ∈ nodes).

(** ** [DeadCodeElimination] *)

Module DeadCodeElimination.

Section Pass.

Variable pure_expressions : gset nat.
Variable used_def_chain : gmap string ud_graph.

Definition is_use (x : ud_node) : bool :=
  String.eqb (action x) "U" || String.eqb (action x) "UD".

Definition used_target (node : ast.expr) : M nat bool :=
  match node with
  | ast.Name _ id _ =>
      match used_def_chain !! id with
      | Some udc =>
          let use_count := length (List.filter is_use udc) in
          ret (negb (Nat.eqb use_count 0))
      | None => raise (KeyError id)
      end
  | _ => ret true
  end.

Definition visit_Assign (i : nat) (targets : list ast.expr) (value : ast.expr)
  : M nat (list ast.stmt) :=
  targets' <- filterM used_target targets ;;
  match targets' with
  | _ :: _ => ret [ast.Assign i targets' value]
  | [] =>
      if in_set (expr_id value) pure_expressions
      then j <- fresh ;; ret [ast.Pass j]
      else j <- fresh ;; ret [ast.Expr j value]
  end.

Definition isinstance_Yield (e : ast.expr) : bool :=
  match e with ast.Yield _ _ => true | _ => false end.

Definition visit_Expr (i : nat) (value : ast.expr) : M nat (list ast.stmt) :=
  if in_set i pure_expressions && negb (isinstance_Yield value)
  then j <- fresh ;; ret [ast.Pass j]
  else ret [ast.Expr i value].

Definition visit_stmt_method (s : ast.stmt) (generic_visit : M nat ast.stmt)
  : M nat (list ast.stmt) :=
  match s with
  | ast.Assign i targets value => visit_Assign i targets value
  | ast.Expr i value => visit_Expr i value
  | _ => default_visit_stmt s generic_visit
  end.

Definition visit : ast.stmt -> M nat (list ast.stmt) :=
  visit_stmt default_visit_expr visit_stmt_method.

(** The wording of the specification: a target is dropped when it is a name
    whose chain has no occurrence tagged U or UD. *)
Definition no_use_occurrence (udc : ud_graph) : Prop :=
  Forall (fun n => action n <> "U" /\ action n <> "UD") udc.

Definition unused_name (t : ast.expr) : Prop :=
  exists i id ctx udc,
    t = ast.Name i id ctx /\ used_def_chain !! id = Some udc /\
    no_use_occurrence udc.

Definition is_Name (t : ast.expr) : bool :=
  match t with ast.Name _ _ _ => true | _ => false end.

(** Every name among the targets has a chain ([used_def_chain[node.id]] does
    not raise). *)
Definition chains_known (targets : list ast.expr) : Prop :=
  Forall (fun t => forall i id ctx,
            t = ast.Name i id ctx -> is_Some (used_def_chain !! id)) targets.

(** The boolean the filter keeps a target by, when no lookup fails. *)
Definition keeps (t : ast.expr) : bool :=
  match t with
  | ast.Name _ id _ =>
      match used_def_chain !! id with
      | Some udc => existsb is_use udc
      | None => true
      end
  | _ => true
  end.

End Pass.

End DeadCodeElimination.

(** ** [ConstantFolding] *)

(** The Python objects [eval] can answer.  A set and a dict are given by
    their elements in iteration order ([len] of a dict is its number of
    keys); [PyOther] is an object of any other type. *)
Inductive value :=
| PyNum (n : ast.num)
| PyBool (b : bool)
| PyStr (s : string)
| PyList (l : list value)
| PyTuple (l : list value)
| PySet (l : list value)
| PyDict (keys : list value) (values : list value)
| PyOther (type_name : string).

(** An analysis or library call that answers or raises. *)
Definition lift {S A} (r : exn + A) : M S A :=
  match r with inl e => raise e | inr a => ret a end.

Module ConstantFolding.

(** maximum length of folded sequences *)
Definition MAX_LEN : nat := 2 ^ 8.

Fixpoint to_ast (v : value) : M nat ast.expr :=
  let map_to_ast :=
    fix go (l : list value) : M nat (list ast.expr) :=
      match l with
      | [] => ret []
      | x :: l' => n <- to_ast x ;; ns <- go l' ;; ret (n :: ns)
      end in
  match v with
  | PyNum n => i <- fresh ;; ret (ast.Num i n)
  | PyBool b =>
      i <- fresh ;; j <- fresh ;;
      ret (ast.Attribute j (ast.Name i "__builtin__" ast.Load)
             (if b then "True" else "False") ast.Load)
  | PyStr s => i <- fresh ;; ret (ast.Str i s)
  | PyList l =>
      if Nat.ltb (length l) MAX_LEN
      then elts <- map_to_ast l ;; i <- fresh ;; ret (ast.List i elts ast.Load)
      else raise ConversionError
  | PyTuple l =>
      if Nat.ltb (length l) MAX_LEN
      then elts <- map_to_ast l ;; i <- fresh ;; ret (ast.Tuple i elts ast.Load)
      else raise ConversionError
  | PySet l =>
      if Nat.ltb (length l) MAX_LEN
      then elts <- map_to_ast l ;; i <- fresh ;; ret (ast.Set_ i elts)
      else raise ConversionError
  | PyDict ks vs =>
      if Nat.ltb (length ks) MAX_LEN
      then keys <- map_to_ast ks ;; values <- map_to_ast vs ;;
           i <- fresh ;; ret (ast.Dict i keys values)
      else raise ConversionError
  | PyOther _ => raise ConversionError
  end.

(** [map(self.to_ast, values)] *)
Fixpoint map_to_ast (l : list value) : M nat (list ast.expr) :=
  match l with
  | [] => ret []
  | x :: l' => n <- to_ast x ;; ns <- map_to_ast l' ;; ret (n :: ns)
  end.

Definition isinstance_Index (e : ast.expr) : bool :=
  match e with ast.Index _ _ => true | _ => false end.

(** [node.value if isinstance(node, ast.Index) else node] *)
Definition evaluated (node : ast.expr) : ast.expr :=
  match node with ast.Index _ v => v | _ => node end.

Section Pass.

Variable constant_expressions : gset nat.

(** [eval(compile(ast.Expression(e), '<constant folding>', 'eval'), self.env)]:
    the interpreter answers an object or raises an exception (an instance of
    [Exception], which is what [except Exception] catches). *)
Variable eval : ast.expr -> exn + value.

(** The body of the [try] block of [generic_visit]. *)
Definition fold (node : ast.expr) : M nat ast.expr :=
  value <- lift (eval (evaluated node)) ;;
  new_node <- to_ast value ;;
  if isinstance_Index node && negb (isinstance_Index new_node)
  then i <- fresh ;; ret (ast.Index i new_node)
  else ret new_node.

(** [generic_visit] of the class; [Transformation_generic_visit] is
    [Transformation.generic_visit(self, node)] for the node. *)
Definition generic_visit (node : ast.expr)
    (Transformation_generic_visit : M nat ast.expr) : M nat (option ast.expr) :=
  if in_set (expr_id node) constant_expressions
  then try_except (new_node <- fold node ;; ret (Some new_node))
                  (default_visit_expr node Transformation_generic_visit)
  else default_visit_expr node Transformation_generic_visit.

(** On a statement, [compile] refuses the [ast.Expression]: TypeError. *)
Definition generic_visit_statement (node : ast.stmt)
    (Transformation_generic_visit : M nat ast.stmt) : M nat (list ast.stmt) :=
  if in_set (stmt_id node) constant_expressions
  then try_except (raise TypeError)
                  (default_visit_stmt node Transformation_generic_visit)
  else default_visit_stmt node Transformation_generic_visit.

Definition visit_expression : ast.expr -> M nat (option ast.expr) :=
  visit_expr generic_visit.

Definition visit : ast.stmt -> M nat (list ast.stmt) :=
  visit_stmt generic_visit generic_visit_statement.

Definition visit_body : list ast.stmt -> M nat (list ast.stmt) :=
  visit_stmts generic_visit generic_visit_statement.

End Pass.

End ConstantFolding.

(** ** [copy.deepcopy] on syntax trees

    A deep copy maps every object reached to a new object, the same object to
    the same copy (the memo of [deepcopy]). *)
Abbreviation memo := (gmap nat nat).

Definition copy_id (i : nat) : M (nat * memo) nat :=
  fun '(next, m) =>
    match m !! i with
    | Some j => Ok (j, (next, m))
    | None => Ok (next, (S next, <[i := next]> m))
    end.

Fixpoint copy_expr (e : ast.expr) : M (nat * memo) ast.expr :=
  let copy_list :=
    fix go (l : list ast.expr) : M (nat * memo) (list ast.expr) :=
      match l with
      | [] => ret []
      | c :: l' => c' <- copy_expr c ;; rest <- go l' ;; ret (c' :: rest)
      end in
  match e with
  | ast.Num i n => j <- copy_id i ;; ret (ast.Num j n)
  | ast.Str i s => j <- copy_id i ;; ret (ast.Str j s)
  | ast.Name i id c => j <- copy_id i ;; ret (ast.Name j id c)
  | ast.Attribute i v a c =>
      j <- copy_id i ;; v' <- copy_expr v ;; ret (ast.Attribute j v' a c)
  | ast.BinOp i l o r =>
      j <- copy_id i ;; l' <- copy_expr l ;; r' <- copy_expr r ;;
      ret (ast.BinOp j l' o r')
  | ast.Call i f args =>
      j <- copy_id i ;; f' <- copy_expr f ;; args' <- copy_list args ;;
      ret (ast.Call j f' args')
  | ast.List i elts c => j <- copy_id i ;; elts' <- copy_list elts ;; ret (ast.List j elts' c)
  | ast.Tuple i elts c => j <- copy_id i ;; elts' <- copy_list elts ;; ret (ast.Tuple j elts' c)
  | ast.Set_ i elts => j <- copy_id i ;; elts' <- copy_list elts ;; ret (ast.Set_ j elts')
  | ast.Dict i ks vs =>
      j <- copy_id i ;; ks' <- copy_list ks ;; vs' <- copy_list vs ;;
      ret (ast.Dict j ks' vs')
  | ast.Subscript i v sl c =>
      j <- copy_id i ;; v' <- copy_expr v ;; sl' <- copy_expr sl ;;
      ret (ast.Subscript j v' sl' c)
  | ast.Index i v => j <- copy_id i ;; v' <- copy_expr v ;; ret (ast.Index j v')
  | ast.Yield i None => j <- copy_id i ;; ret (ast.Yield j None)
  | ast.Yield i (Some v) =>
      j <- copy_id i ;; v' <- copy_expr v ;; ret (ast.Yield j (Some v'))
  end.

Fixpoint copy_exprs (l : list ast.expr) : M (nat * memo) (list ast.expr) :=
  match l with
  | [] => ret []
  | c :: l' => c' <- copy_expr c ;; rest <- copy_exprs l' ;; ret (c' :: rest)
  end.

Fixpoint copy_stmt (s : ast.stmt) : M (nat * memo) ast.stmt :=
  let copy_list :=
    fix go (l : list ast.stmt) : M (nat * memo) (list ast.stmt) :=
      match l with
      | [] => ret []
      | c :: l' => c' <- copy_stmt c ;; rest <- go l' ;; ret (c' :: rest)
      end in
  match s with
  | ast.FunctionDef i name args body =>
      j <- copy_id i ;; args' <- copy_exprs args ;; body' <- copy_list body ;;
      ret (ast.FunctionDef j name args' body')
  | ast.Return i None => j <- copy_id i ;; ret (ast.Return j None)
  | ast.Return i (Some v) =>
      j <- copy_id i ;; v' <- copy_expr v ;; ret (ast.Return j (Some v'))
  | ast.Assign i targets v =>
      j <- copy_id i ;; targets' <- copy_exprs targets ;; v' <- copy_expr v ;;
      ret (ast.Assign j targets' v')
  | ast.AugAssign i t o v =>
      j <- copy_id i ;; t' <- copy_expr t ;; v' <- copy_expr v ;;
      ret (ast.AugAssign j t' o v')
  | ast.Print i values =>
      j <- copy_id i ;; values' <- copy_exprs values ;; ret (ast.Print j values')
  | ast.For i t it body orelse =>
      j <- copy_id i ;; t' <- copy_expr t ;; it' <- copy_expr it ;;
      body' <- copy_list body ;; orelse' <- copy_list orelse ;;
      ret (ast.For j t' it' body' orelse')
  | ast.While i t body orelse =>
      j <- copy_id i ;; t' <- copy_expr t ;;
      body' <- copy_list body ;; orelse' <- copy_list orelse ;;
      ret (ast.While j t' body' orelse')
  | ast.If i t body orelse =>
      j <- copy_id i ;; t' <- copy_expr t ;;
      body' <- copy_list body ;; orelse' <- copy_list orelse ;;
      ret (ast.If j t' body' orelse')
  | ast.Expr i v => j <- copy_id i ;; v' <- copy_expr v ;; ret (ast.Expr j v')
  | ast.Pass i => j <- copy_id i ;; ret (ast.Pass j)
  | ast.Break i => j <- copy_id i ;; ret (ast.Break j)
  | ast.Continue i => j <- copy_id i ;; ret (ast.Continue j)
  end.

Fixpoint copy_stmts (l : list ast.stmt) : M (nat * memo) (list ast.stmt) :=
  match l with
  | [] => ret []
  | c :: l' => c' <- copy_stmt c ;; rest <- copy_stmts l' ;; ret (c' :: rest)
  end.

(** [deepcopy(x)]: one call, one memo. *)
Definition deepcopy {A} (copy : A -> M (nat * memo) A) (x : A) : M nat A :=
  fun next =>
    match copy x (next, ∅) with
    | Ok (x', (next', _)) => Ok (x', next')
    | Raise e => Raise e
    | Malformed => Malformed
    end.

(** ** [LoopFullUnrolling] *)

(** [map(f, l)] for an [f] that creates nodes. *)
Fixpoint mapM {S A B} (f : A -> M S B) (l : list A) : M S (list B) :=
  match l with
  | [] => ret []
  | a :: l' => b <- f a ;; bs <- mapM f l' ;; ret (b :: bs)
  end.

(** [reduce(list.__add__, parts)]: no initial value, so an empty sequence
    raises TypeError. *)
Definition reduce_add {S A} (parts : list (list A)) : M S (list A) :=
  match parts with
  | [] => raise TypeError
  | first :: rest => ret (fold_left (fun acc p => acc ++ p) rest first)
  end.

(** An OpenMP directive, as [metadata.get(node, OMPDirective)] lists them. *)
Definition OMPDirective := string.

Module LoopFullUnrolling.

Definition MAX_NODE_COUNT : nat := 512.

Section Pass.

(** [metadata.get(node, OMPDirective)], by the identity of the node. *)
Variable metadata_get_OMPDirective : nat -> list OMPDirective.
(** [self.passmanager.gather(A, n, self.ctx)]: the analysis [A] run on the
    subtree [n] as it is when asked. *)
Variable HasBreak : ast.stmt -> bool.
Variable HasContinue : ast.stmt -> bool.
Variable NodeCount : ast.stmt -> nat.

Definition truthy {A} (l : list A) : bool :=
  match l with [] => false | _ :: _ => true end.

(** The local function [unroll] of [visit_For]. *)
Definition unroll (target : ast.expr) (body : list ast.stmt) (elt : ast.expr)
  : M nat (list ast.stmt) :=
  target' <- deepcopy copy_expr target ;;
  j <- fresh ;;
  body' <- deepcopy copy_stmts body ;;
  ret ([ast.Assign j [target'] elt] ++ body').

Definition visit_For (generic_visit : M nat ast.stmt) : M nat (list ast.stmt) :=
  (* first unroll children if needed or possible *)
  node <- generic_visit ;;
  match node with
  | ast.For i target iter body orelse =>
      let has_omp := truthy (metadata_get_OMPDirective i) in
      let has_break := existsb HasBreak body in
      let has_cont := existsb HasContinue body in
      let node_count := NodeCount node in
      match iter with
      | ast.List _ elts _ =>
          let isvalid := negb (has_omp || has_break || has_cont) in
          let total_count := node_count * length elts in
          let issmall := Nat.ltb total_count MAX_NODE_COUNT in
          if isvalid && issmall
          then parts <- mapM (unroll target body) elts ;; reduce_add parts
          else ret [node]
      | _ => ret [node]
      end
  | _ => ret [node]
  end.

Definition visit_stmt_method (s : ast.stmt) (generic_visit : M nat ast.stmt)
  : M nat (list ast.stmt) :=
  match s with
  | ast.For _ _ _ _ _ => visit_For generic_visit
  | _ => default_visit_stmt s generic_visit
  end.

Definition generic_visit : ast.stmt -> M nat ast.stmt :=
  generic_visit_stmt default_visit_expr visit_stmt_method.

Definition visit : ast.stmt -> M nat (list ast.stmt) :=
  visit_stmt default_visit_expr visit_stmt_method.

Definition visit_body : list ast.stmt -> M nat (list ast.stmt) :=
  visit_stmts default_visit_expr visit_stmt_method.

End Pass.

End LoopFullUnrolling.

(** ** [_LazyRemover] *)

Module LazyRemover.

(** The state of one remover: the identity supply and [self.capture]
    ([None] until the defining assignment has been visited). *)
Record state := { next : nat; capture : option ast.expr }.

Definition get_capture : M state (option ast.expr) :=
  fun s => Ok (capture s, s).

Definition set_capture (e : ast.expr) : M state unit :=
  fun s => Ok (tt, {| next := next s; capture := Some e |}).

Definition fresh_node : M state nat :=
  fun s => Ok (next s, {| next := S (next s); capture := capture s |}).

Section Pass.

Variable U : list ast.expr.
Variable D : ast.expr.

Definition visit_Name (node : ast.expr) : M state (option ast.expr) :=
  if node_in node U then get_capture else ret (Some node).

Definition visit_Assign (generic_visit : M state ast.stmt) : M state ast.stmt :=
  node <- generic_visit ;;
  match node with
  | ast.Assign i targets value =>
      if node_in D targets then
        _ <- set_capture value ;;
        if Nat.eqb (length targets) 1
        then j <- fresh_node ;; ret (ast.Pass j)
        else ret (ast.Assign i (list_remove D targets) value)
      else ret node
  | _ => ret node
  end.

Definition visit_expr_method (e : ast.expr) (generic_visit : M state ast.expr)
  : M state (option ast.expr) :=
  match e with
  | ast.Name _ _ _ => visit_Name e
  | _ => default_visit_expr e generic_visit
  end.

Definition visit_node (s : ast.stmt) (generic_visit : M state ast.stmt)
  : M state ast.stmt :=
  match s with
  | ast.Assign _ _ _ => visit_Assign generic_visit
  | _ => generic_visit
  end.

Definition visit_stmt_method (s : ast.stmt) (generic_visit : M state ast.stmt)
  : M state (list ast.stmt) :=
  n <- visit_node s generic_visit ;; ret [n].

Definition visit_expression : ast.expr -> M state (option ast.expr) :=
  visit_expr visit_expr_method.

Definition visit (s : ast.stmt) : M state ast.stmt :=
  visit_node s (generic_visit_stmt visit_expr_method visit_stmt_method s).

Definition visit_body : list ast.stmt -> M state (list ast.stmt) :=
  visit_stmts visit_expr_method visit_stmt_method.

(** [_LazyRemover(ctx, U, D).visit(node)]: a new remover, [capture] is
    [None]. *)
Definition run (node : ast.stmt) : M nat ast.stmt :=
  fun n =>
    match visit node {| next := n; capture := None |} with
    | Ok (node', s) => Ok (node', next s)
    | Raise e => Raise e
    | Malformed => Malformed
    end.

End Pass.

End LazyRemover.

(** ** [ForwardSubstitution] *)

(** A value of [lazyness_analysis]: an integer or [float('inf')]. *)
Inductive lazyness := Count (n : Z) | Inf.

Definition dict_get {S V} (d : gmap string V) (key : string) : M S V :=
  match d !! key with Some v => ret v | None => raise (KeyError key) end.

(** [a and b], [a or b]: the right operand is evaluated only when needed. *)
Definition andM {S} (a b : M S bool) : M S bool :=
  x <- a ;; if x then b else ret false.

Definition orM {S} (a b : M S bool) : M S bool :=
  x <- a ;; if x then ret true else b.

(** [node.ctx]: the expressions that have the attribute. *)
Definition getattr_ctx {S} (e : ast.expr) : M S ast.expr_context :=
  match e with
  | ast.Name _ _ c | ast.Attribute _ _ _ c | ast.List _ _ c | ast.Tuple _ _ c
  | ast.Subscript _ _ _ c => ret c
  | _ => raise AttributeError
  end.

Module ForwardSubstitution.

Section Pass.

Variable lazyness_analysis : gmap string lazyness.
Variable used_def_chain : gmap string ud_graph.
Variable literals : gset string.

Definition lazyness_is (v : lazyness) (n : Z) : bool :=
  match v with Count m => Z.eqb m n | Inf => false end.

Definition is_inf (v : lazyness) : bool :=
  match v with Inf => true | Count _ => false end.

(** The local function [get] of [visit_FunctionDef]. *)
Definition get (udgraph : ud_graph) (act : string) : list ast.expr :=
  map name (List.filter (fun n => String.eqb (action n) act) udgraph).

Definition isinstance_Param (c : ast.expr_context) : bool :=
  match c with ast.Param => true | _ => false end.

(** The first test of the loop body. *)
Definition candidate (name : string) (udgraph : ud_graph) : M nat bool :=
  orM (andM (ret (Nat.eqb (length udgraph) 2))
            (l <- dict_get lazyness_analysis name ;; ret (lazyness_is l 1)))
      (andM (l <- dict_get lazyness_analysis name ;; ret (negb (is_inf l)))
            (ret (bool_decide (name ∈ literals)))).

(** The second test, on the definitions of the chain. *)
Definition forwardable (udgraph : ud_graph) : M nat bool :=
  let D := get udgraph "D" in
  andM (ret (Nat.eqb (length D) 1 && Nat.eqb (length (get udgraph "UD")) 0))
       (match D with
        | d :: _ => c <- getattr_ctx d ;; ret (negb (isinstance_Param c))
        | [] => ret false
        end).

(** One round of the loop of [visit_FunctionDef]. *)
Definition forward (name : string) (udgraph : ud_graph) (node : ast.stmt)
  : M nat ast.stmt :=
  c <- candidate name udgraph ;;
  if c then
    let U := get udgraph "U" in
    let D := get udgraph "D" in
    f <- forwardable udgraph ;;
    if f
    then match D with
         | d :: _ => LazyRemover.run U d node
         | [] => ret node
         end
    else ret node
  else ret node.

Fixpoint forward_all (items : list (string * ud_graph)) (node : ast.stmt)
  : M nat ast.stmt :=
  match items with
  | [] => ret node
  | (name, udgraph) :: rest =>
      node' <- forward name udgraph node ;; forward_all rest node'
  end.

Definition visit_FunctionDef (node : ast.stmt) : M nat ast.stmt :=
  forward_all (map_to_list used_def_chain) node.

End Pass.

End ForwardSubstitution.

(** ** Measures on trees and values used in the statements *)

(** Every literal container node of [e] has fewer than [cap] elements (for a
    [Dict]: entries). *)
Fixpoint containers_below (cap : nat) (e : ast.expr) : bool :=
  match e with
  | ast.Num _ _ | ast.Str _ _ | ast.Name _ _ _ => true
  | ast.Attribute _ v _ _ => containers_below cap v
  | ast.BinOp _ l _ r => containers_below cap l && containers_below cap r
  | ast.Call _ f args =>
      containers_below cap f && forallb (containers_below cap) args
  | ast.List _ elts _ | ast.Tuple _ elts _ | ast.Set_ _ elts =>
      Nat.ltb (length elts) cap && forallb (containers_below cap) elts
  | ast.Dict _ ks vs =>
      Nat.ltb (length ks) cap && forallb (containers_below cap) ks
      && forallb (containers_below cap) vs
  | ast.Subscript _ v sl _ => containers_below cap v && containers_below cap sl
  | ast.Index _ v => containers_below cap v
  | ast.Yield _ None => true
  | ast.Yield _ (Some v) => containers_below cap v
  end.

(** [v] is, or holds somewhere inside, a container of [cap] elements or
    more. *)
Fixpoint has_oversized (cap : nat) (v : value) : bool :=
  match v with
  | PyNum _ | PyBool _ | PyStr _ | PyOther _ => false
  | PyList l | PyTuple l | PySet l =>
      Nat.leb cap (length l) || existsb (has_oversized cap) l
  | PyDict ks vs =>
      Nat.leb cap (length ks) || existsb (has_oversized cap) ks
      || existsb (has_oversized cap) vs
  end.

(** [to_ast] has a node for [v]: no object of another type and no container
    of [cap] elements or more, at any depth. *)
Fixpoint convertible (cap : nat) (v : value) : bool :=
  match v with
  | PyNum _ | PyBool _ | PyStr _ => true
  | PyOther _ => false
  | PyList l | PyTuple l | PySet l =>
      Nat.ltb (length l) cap && forallb (convertible cap) l
  | PyDict ks vs =>
      Nat.ltb (length ks) cap && forallb (convertible cap) ks
      && forallb (convertible cap) vs
  end.

(** The identities of the nodes of a tree. *)
Fixpoint expr_ids (e : ast.expr) : list nat :=
  match e with
  | ast.Num i _ | ast.Str i _ | ast.Name i _ _ => [i]
  | ast.Attribute i v _ _ | ast.Index i v => i :: expr_ids v
  | ast.BinOp i l _ r => i :: expr_ids l ++ expr_ids r
  | ast.Call i f args => i :: expr_ids f ++ flat_map expr_ids args
  | ast.List i elts _ | ast.Tuple i elts _ | ast.Set_ i elts =>
      i :: flat_map expr_ids elts
  | ast.Dict i ks vs => i :: flat_map expr_ids ks ++ flat_map expr_ids vs
  | ast.Subscript i v sl _ => i :: expr_ids v ++ expr_ids sl
  | ast.Yield i None => [i]
  | ast.Yield i (Some v) => i :: expr_ids v
  end.

Fixpoint stmt_ids (s : ast.stmt) : list nat :=
  match s with
  | ast.FunctionDef i _ args body =>
      i :: flat_map expr_ids args ++ flat_map stmt_ids body
  | ast.Return i None => [i]
  | ast.Return i (Some v) => i :: expr_ids v
  | ast.Assign i targets v => i :: flat_map expr_ids targets ++ expr_ids v
  | ast.AugAssign i t _ v => i :: expr_ids t ++ expr_ids v
  | ast.Print i values => i :: flat_map expr_ids values
  | ast.For i t it body orelse =>
      i :: expr_ids t ++ expr_ids it ++ flat_map stmt_ids body
        ++ flat_map stmt_ids orelse
  | ast.While i t body orelse | ast.If i t body orelse =>
      i :: expr_ids t ++ flat_map stmt_ids body ++ flat_map stmt_ids orelse
  | ast.Expr i v => i :: expr_ids v
  | ast.Pass i | ast.Break i | ast.Continue i => [i]
  end.

(** What a node made by [to_ast] from state [st] to [st'] looks like. *)
Definition made_by_to_ast (st st' : nat) (e : ast.expr) : Prop :=
  st <= st' /\
  containers_below ConstantFolding.MAX_LEN e = true /\
  Forall (fun i => st <= i < st') (expr_ids e) /\
  ConstantFolding.isinstance_Index e = false.

Definition to_ast_answer (v : value) (st : nat) : Prop :=
  if convertible ConstantFolding.MAX_LEN v
  then exists e st', ConstantFolding.to_ast v st = Ok (e, st') /\
                     made_by_to_ast st st' e
  else ConstantFolding.to_ast v st = Raise ConversionError.

Definition map_to_ast_answer (l : list value) (st : nat) : Prop :=
  if forallb (convertible ConstantFolding.MAX_LEN) l
  then exists es st', ConstantFolding.map_to_ast l st = Ok (es, st') /\
                      st <= st' /\ length es = length l /\
                      forallb (containers_below ConstantFolding.MAX_LEN) es = true /\
                      Forall (fun i => st <= i < st') (flat_map expr_ids es)
  else ConstantFolding.map_to_ast l st = Raise ConversionError.

(** A tree without the identities of its nodes: two trees with the same
    erasure are the same program text. *)
Fixpoint erase_expr (e : ast.expr) : ast.expr :=
  match e with
  | ast.Num _ n => ast.Num 0 n
  | ast.Str _ s => ast.Str 0 s
  | ast.Name _ id c => ast.Name 0 id c
  | ast.Attribute _ v a c => ast.Attribute 0 (erase_expr v) a c
  | ast.BinOp _ l o r => ast.BinOp 0 (erase_expr l) o (erase_expr r)
  | ast.Call _ f args => ast.Call 0 (erase_expr f) (map erase_expr args)
  | ast.List _ elts c => ast.List 0 (map erase_expr elts) c
  | ast.Tuple _ elts c => ast.Tuple 0 (map erase_expr elts) c
  | ast.Set_ _ elts => ast.Set_ 0 (map erase_expr elts)
  | ast.Dict _ ks vs => ast.Dict 0 (map erase_expr ks) (map erase_expr vs)
  | ast.Subscript _ v sl c => ast.Subscript 0 (erase_expr v) (erase_expr sl) c
  | ast.Index _ v => ast.Index 0 (erase_expr v)
  | ast.Yield _ None => ast.Yield 0 None
  | ast.Yield _ (Some v) => ast.Yield 0 (Some (erase_expr v))
  end.

Fixpoint erase_stmt (s : ast.stmt) : ast.stmt :=
  match s with
  | ast.FunctionDef _ name args body =>
      ast.FunctionDef 0 name (map erase_expr args) (map erase_stmt body)
  | ast.Return _ None => ast.Return 0 None
  | ast.Return _ (Some v) => ast.Return 0 (Some (erase_expr v))
  | ast.Assign _ targets v =>
      ast.Assign 0 (map erase_expr targets) (erase_expr v)
  | ast.AugAssign _ t o v => ast.AugAssign 0 (erase_expr t) o (erase_expr v)
  | ast.Print _ values => ast.Print 0 (map erase_expr values)
  | ast.For _ t it body orelse =>
      ast.For 0 (erase_expr t) (erase_expr it) (map erase_stmt body)
        (map erase_stmt orelse)
  | ast.While _ t body orelse =>
      ast.While 0 (erase_expr t) (map erase_stmt body) (map erase_stmt orelse)
  | ast.If _ t body orelse =>
      ast.If 0 (erase_expr t) (map erase_stmt body) (map erase_stmt orelse)
  | ast.Expr _ v => ast.Expr 0 (erase_expr v)
  | ast.Pass _ => ast.Pass 0
  | ast.Break _ => ast.Break 0
  | ast.Continue _ => ast.Continue 0
  end.

(** [x'] is a deep copy of [x] made while the identity supply went from [st]
    to [st']: the same program text, every node of it a new object. *)
Definition deep_copy_of_expr (st st' : nat) (x x' : ast.expr) : Prop :=
  erase_expr x' = erase_expr x /\
  Forall (fun i => st <= i < st') (expr_ids x').

Definition deep_copy_of_stmts (st st' : nat) (x x' : list ast.stmt) : Prop :=
  map erase_stmt x' = map erase_stmt x /\
  Forall (fun i => st <= i < st') (flat_map stmt_ids x').

(** The wording of the specification for the unrolled loop: for each
    element, in order, one assignment of that element (the node itself) to a
    deep copy of the loop variable, followed by a deep copy of the body; all of
    them concatenated. *)
Fixpoint unrolled (target : ast.expr) (body : list ast.stmt)
    (elts : list ast.expr) (st : nat) (out : list ast.stmt) (st' : nat) : Prop :=
  match elts with
  | [] => out = [] /\ st' = st
  | elt :: rest =>
      exists target' j body' st1 out',
        out = ast.Assign j [target'] elt :: body' ++ out' /\
        deep_copy_of_expr st st1 target target' /\
        st <= j < st1 /\
        deep_copy_of_stmts st st1 body body' /\
        unrolled target body rest st1 out' st'
  end.

(** The number of nodes of a tree (expression and statement nodes). *)
Fixpoint count_expr (e : ast.expr) : nat :=
  match e with
  | ast.Num _ _ | ast.Str _ _ | ast.Name _ _ _ | ast.Yield _ None => 1
  | ast.Attribute _ v _ _ | ast.Index _ v | ast.Yield _ (Some v) =>
      1 + count_expr v
  | ast.BinOp _ l _ r | ast.Subscript _ l r _ => 1 + count_expr l + count_expr r
  | ast.Call _ f args => 1 + count_expr f + list_sum (map count_expr args)
  | ast.List _ elts _ | ast.Tuple _ elts _ | ast.Set_ _ elts =>
      1 + list_sum (map count_expr elts)
  | ast.Dict _ ks vs =>
      1 + list_sum (map count_expr ks) + list_sum (map count_expr vs)
  end.

Fixpoint count_stmt (s : ast.stmt) : nat :=
  match s with
  | ast.FunctionDef _ _ args body =>
      1 + list_sum (map count_expr args) + list_sum (map count_stmt body)
  | ast.Return _ None | ast.Pass _ | ast.Break _ | ast.Continue _ => 1
  | ast.Return _ (Some v) | ast.Expr _ v => 1 + count_expr v
  | ast.Assign _ targets v => 1 + list_sum (map count_expr targets) + count_expr v
  | ast.AugAssign _ t _ v => 1 + count_expr t + count_expr v
  | ast.Print _ values => 1 + list_sum (map count_expr values)
  | ast.For _ t it body orelse =>
      1 + count_expr t + count_expr it + list_sum (map count_stmt body)
        + list_sum (map count_stmt orelse)
  | ast.While _ t body orelse | ast.If _ t body orelse =>
      1 + count_expr t + list_sum (map count_stmt body)
        + list_sum (map count_stmt orelse)
  end.

(** [node.ctx] without the exception: [None] when the node has no such
    attribute. *)
Definition ctx_of (e : ast.expr) : option ast.expr_context :=
  match e with
  | ast.Name _ _ c | ast.Attribute _ _ _ c | ast.List _ _ c | ast.Tuple _ _ c
  | ast.Subscript _ _ _ c => Some c
  | _ => None
  end.

(** The wording of the specification for the first test of forward
    substitution: (a) two occurrences in the chain and laziness 1, or (b) a
    finite laziness and the variable among the literals. *)
Definition eligible (literals : gset string) (name : string)
    (udgraph : ud_graph) (lazy : lazyness) : Prop :=
  (length udgraph = 2 /\ lazy = Count 1) \/ (lazy <> Inf /\ name ∈ literals).

(** Every name of [e] that is one of the nodes [U] replaced by the node
    [c] itself. *)
Fixpoint substitute_expr (U : list ast.expr) (c : ast.expr) (e : ast.expr)
  : ast.expr :=
  match e with
  | ast.Name _ _ _ => if node_in e U then c else e
  | ast.Num _ _ | ast.Str _ _ => e
  | ast.Attribute i v a x => ast.Attribute i (substitute_expr U c v) a x
  | ast.BinOp i l o r =>
      ast.BinOp i (substitute_expr U c l) o (substitute_expr U c r)
  | ast.Call i f args =>
      ast.Call i (substitute_expr U c f) (map (substitute_expr U c) args)
  | ast.List i elts x => ast.List i (map (substitute_expr U c) elts) x
  | ast.Tuple i elts x => ast.Tuple i (map (substitute_expr U c) elts) x
  | ast.Set_ i elts => ast.Set_ i (map (substitute_expr U c) elts)
  | ast.Dict i ks vs =>
      ast.Dict i (map (substitute_expr U c) ks) (map (substitute_expr U c) vs)
  | ast.Subscript i v sl x =>
      ast.Subscript i (substitute_expr U c v) (substitute_expr U c sl) x
  | ast.Index i v => ast.Index i (substitute_expr U c v)
  | ast.Yield i None => e
  | ast.Yield i (Some v) => ast.Yield i (Some (substitute_expr U c v))
  end.

Fixpoint substitute_stmt (U : list ast.expr) (c : ast.expr) (s : ast.stmt)
  : ast.stmt :=
  match s with
  | ast.FunctionDef i name args body =>
      ast.FunctionDef i name (map (substitute_expr U c) args)
        (map (substitute_stmt U c) body)
  | ast.Return i None => s
  | ast.Return i (Some v) => ast.Return i (Some (substitute_expr U c v))
  | ast.Assign i targets v =>
      ast.Assign i (map (substitute_expr U c) targets) (substitute_expr U c v)
  | ast.AugAssign i t o v =>
      ast.AugAssign i (substitute_expr U c t) o (substitute_expr U c v)
  | ast.Print i values => ast.Print i (map (substitute_expr U c) values)
  | ast.For i t it body orelse =>
      ast.For i (substitute_expr U c t) (substitute_expr U c it)
        (map (substitute_stmt U c) body) (map (substitute_stmt U c) orelse)
  | ast.While i t body orelse =>
      ast.While i (substitute_expr U c t)
        (map (substitute_stmt U c) body) (map (substitute_stmt U c) orelse)
  | ast.If i t body orelse =>
      ast.If i (substitute_expr U c t)
        (map (substitute_stmt U c) body) (map (substitute_stmt U c) orelse)
  | ast.Expr i v => ast.Expr i (substitute_expr U c v)
  | ast.Pass _ | ast.Break _ | ast.Continue _ => s
  end.

(** No assignment of [s] has the node [D] among its targets (as they are
    after the substitution). *)
Fixpoint defines_elsewhere (U : list ast.expr) (c D : ast.expr) (s : ast.stmt)
  : bool :=
  match s with
  | ast.Assign _ targets _ => node_in D (map (substitute_expr U c) targets)
  | ast.FunctionDef _ _ _ body => existsb (defines_elsewhere U c D) body
  | ast.For _ _ _ body orelse | ast.While _ _ body orelse
  | ast.If _ _ body orelse =>
      existsb (defines_elsewhere U c D) body
      || existsb (defines_elsewhere U c D) orelse
  | _ => false
  end.

(** The memo of a [deepcopy] that started at [st0] maps to objects made
    since. *)
Definition memo_made_since (st0 : nat) (s : nat * memo) : Prop :=
  st0 <= fst s /\
  forall i j, snd s !! i = Some j -> st0 <= j < fst s.

(** What a copy function does on [x]: it answers, keeps the memo as it
    should be, and the answer has the text of [x] and only nodes made since
    [st0]. *)
Definition copies {A} (copy : A -> M (nat * memo) A) (erase : A -> A)
    (ids : A -> list nat) (x : A) : Prop :=
  forall st0 s, memo_made_since st0 s ->
    exists x' s', copy x s = Ok (x', s') /\ memo_made_since st0 s' /\
                  fst s <= fst s' /\ erase x' = erase x /\
                  Forall (fun i => st0 <= i < fst s') (ids x').

(** ** The programs of the doctests, with the analysis results for them *)

Module DCE_example.

(** [[2, 3]] *)
Definition rhs : ast.expr :=
  ast.List 3 [ast.Num 4 (ast.PyInt 2); ast.Num 5 (ast.PyInt 3)] ast.Load.

(** [b[0]] as a target *)
Definition subscript : ast.expr :=
  ast.Subscript 10 (ast.Name 11 "b" ast.Load)
    (ast.Index 12 (ast.Num 13 (ast.PyInt 0))) ast.Store.

(** [f()] *)
Definition call : ast.expr := ast.Call 14 (ast.Name 15 "f" ast.Load) [].

(** [def foo(): a = [2, 3]; return 1] *)
Definition foo : ast.stmt :=
  ast.FunctionDef 0 "foo" []
    [ast.Assign 1 [ast.Name 2 "a" ast.Store] rhs;
     ast.Return 6 (Some (ast.Num 7 (ast.PyInt 1)))].

Definition pure : gset nat := {[ 3; 4; 5; 7 ]}.

Definition chains : gmap string ud_graph :=
  {[ "a" := [ {| name := ast.Name 2 "a" ast.Store; action := "D" |} ] ]}.

End DCE_example.

(** An interpreter for integer literals, [+] and [/] (the floor division of
    Python 2), standing for [eval] on the expressions it covers. *)
Fixpoint arith_eval (e : ast.expr) : exn + value :=
  match e with
  | ast.Num _ n => inr (PyNum n)
  | ast.BinOp _ l op r =>
      match arith_eval l, arith_eval r with
      | inr (PyNum (ast.PyInt a)), inr (PyNum (ast.PyInt b)) =>
          match op with
          | ast.Add => inr (PyNum (ast.PyInt (a + b)))
          | ast.Div =>
              if Z.eqb b 0 then inl (EvalError "ZeroDivisionError")
              else inr (PyNum (ast.PyInt (a / b)))
          | _ => inl (EvalError "NotImplementedError")
          end
      | inl x, _ => inl x
      | _, inl x => inl x
      | _, _ => inl (EvalError "TypeError")
      end
  | _ => inl (EvalError "NameError")
  end.

Module CF_example.

(** [(1 + 2) / 0] *)
Definition division : ast.expr :=
  ast.BinOp 1 (ast.BinOp 2 (ast.Num 3 (ast.PyInt 1)) ast.Add
                 (ast.Num 4 (ast.PyInt 2)))
    ast.Div (ast.Num 5 (ast.PyInt 0)).

(** Every node of it is a constant expression. *)
Definition constants : gset nat := {[ 1; 2; 3; 4; 5 ]}.

(** [def foo(): return 1+3], the doctest of [ConstantFolding] *)
Definition foo : ast.stmt :=
  ast.FunctionDef 10 "foo" []
    [ast.Return 11
       (Some (ast.BinOp 12 (ast.Num 13 (ast.PyInt 1)) ast.Add
                (ast.Num 14 (ast.PyInt 3))))].

Definition foo_constants : gset nat := {[ 12; 13; 14 ]}.

End CF_example.

Module LFU_example.

(** [for j in [1,2,3]: i += j], the doctest of [LoopFullUnrolling] *)
Definition loop : ast.stmt :=
  ast.For 0 (ast.Name 1 "j" ast.Store)
    (ast.List 2 [ast.Num 3 (ast.PyInt 1); ast.Num 4 (ast.PyInt 2);
                 ast.Num 5 (ast.PyInt 3)] ast.Load)
    [ast.AugAssign 6 (ast.Name 7 "i" ast.Store) ast.Add
       (ast.Name 8 "j" ast.Load)] [].

(** [for j in []: pass] *)
Definition empty_loop : ast.stmt :=
  ast.For 0 (ast.Name 1 "j" ast.Store) (ast.List 2 [] ast.Load) [ast.Pass 3] [].

(** [for j in [0, 0, ..., 0]: pass], thirty elements *)
Definition long_loop : ast.stmt :=
  ast.For 0 (ast.Name 1 "j" ast.Store)
    (ast.List 2 (map (fun k => ast.Num (4 + k) (ast.PyInt 0)) (seq 0 30))
       ast.Load)
    [ast.Pass 3] [].

(** [for i in x:] with the body [for j in [1, 2]: pass] *)
Definition nested : ast.stmt :=
  ast.For 0 (ast.Name 1 "i" ast.Store) (ast.Name 2 "x" ast.Load)
    [ast.For 3 (ast.Name 4 "j" ast.Store)
       (ast.List 5 [ast.Num 6 (ast.PyInt 1); ast.Num 7 (ast.PyInt 2)] ast.Load)
       [ast.Pass 8] []] [].

(** No node has an OpenMP directive; no statement of these loops holds a
    break or a continue. *)
Definition no_directive (node : nat) : list OMPDirective := [].
Definition no_break (s : ast.stmt) : bool := false.
Definition no_continue (s : ast.stmt) : bool := false.

Definition visit : ast.stmt -> M nat (list ast.stmt) :=
  LoopFullUnrolling.visit no_directive no_break no_continue count_stmt.

End LFU_example.

Module FS_example.

(** [def foo(): a = 2; print a + a], the second doctest of
    [ForwardSubstitution] *)
Definition rhs : ast.expr := ast.Num 3 (ast.PyInt 2).

Definition foo : ast.stmt :=
  ast.FunctionDef 0 "foo" []
    [ast.Assign 1 [ast.Name 2 "a" ast.Store] rhs;
     ast.Print 6 [ast.BinOp 7 (ast.Name 8 "a" ast.Load) ast.Add
                    (ast.Name 9 "a" ast.Load)]].

Definition chains : gmap string ud_graph :=
  {[ "a" := [ {| name := ast.Name 2 "a" ast.Store; action := "D" |};
              {| name := ast.Name 8 "a" ast.Load; action := "U" |};
              {| name := ast.Name 9 "a" ast.Load; action := "U" |} ] ]}.

Definition lazyness_analysis : gmap string lazyness := {[ "a" := Count 2 ]}.

Definition literals : gset string := {[ "a" ]}.

End FS_example.

(** ** Induction on values and trees *)

Section value_induction.

Variable P : value -> Prop.
Hypothesis HNum : forall n, P (PyNum n).
Hypothesis HBool : forall b, P (PyBool b).
Hypothesis HStr : forall s, P (PyStr s).
Hypothesis HList : forall l, Forall P l -> P (PyList l).
Hypothesis HTuple : forall l, Forall P l -> P (PyTuple l).
Hypothesis HSet : forall l, Forall P l -> P (PySet l).
Hypothesis HDict : forall ks vs, Forall P ks -> Forall P vs -> P (PyDict ks vs).
Hypothesis HOther : forall t, P (PyOther t).

Fixpoint value_nested_ind (v : value) : P v :=
  let all :=
    fix all (l : list value) : Forall P l :=
      match l with
      | [] => List.Forall_nil P
      | x :: l' => List.Forall_cons P x l' (value_nested_ind x) (all l')
      end in
  match v with
  | PyNum n => HNum n
  | PyBool b => HBool b
  | PyStr s => HStr s
  | PyList l => HList l (all l)
  | PyTuple l => HTuple l (all l)
  | PySet l => HSet l (all l)
  | PyDict ks vs => HDict ks vs (all ks) (all vs)
  | PyOther t => HOther t
  end.

End value_induction.

Section expr_induction.

Variable P : ast.expr -> Prop.
Hypothesis HNum : forall i n, P (ast.Num i n).
Hypothesis HStr : forall i s, P (ast.Str i s).
Hypothesis HName : forall i id c, P (ast.Name i id c).
Hypothesis HAttribute : forall i v a c, P v -> P (ast.Attribute i v a c).
Hypothesis HBinOp : forall i l o r, P l -> P r -> P (ast.BinOp i l o r).
Hypothesis HCall : forall i f args, P f -> Forall P args -> P (ast.Call i f args).
Hypothesis HList : forall i elts c, Forall P elts -> P (ast.List i elts c).
Hypothesis HTuple : forall i elts c, Forall P elts -> P (ast.Tuple i elts c).
Hypothesis HSet : forall i elts, Forall P elts -> P (ast.Set_ i elts).
Hypothesis HDict :
  forall i ks vs, Forall P ks -> Forall P vs -> P (ast.Dict i ks vs).
Hypothesis HSubscript :
  forall i v sl c, P v -> P sl -> P (ast.Subscript i v sl c).
Hypothesis HIndex : forall i v, P v -> P (ast.Index i v).
Hypothesis HYieldNone : forall i, P (ast.Yield i None).
Hypothesis HYield : forall i v, P v -> P (ast.Yield i (Some v)).

Fixpoint expr_nested_ind (e : ast.expr) : P e :=
  let all :=
    fix all (l : list ast.expr) : Forall P l :=
      match l with
      | [] => List.Forall_nil P
      | x :: l' => List.Forall_cons P x l' (expr_nested_ind x) (all l')
      end in
  match e with
  | ast.Num i n => HNum i n
  | ast.Str i s => HStr i s
  | ast.Name i id c => HName i id c
  | ast.Attribute i v a c => HAttribute i v a c (expr_nested_ind v)
  | ast.BinOp i l o r => HBinOp i l o r (expr_nested_ind l) (expr_nested_ind r)
  | ast.Call i f args => HCall i f args (expr_nested_ind f) (all args)
  | ast.List i elts c => HList i elts c (all elts)
  | ast.Tuple i elts c => HTuple i elts c (all elts)
  | ast.Set_ i elts => HSet i elts (all elts)
  | ast.Dict i ks vs => HDict i ks vs (all ks) (all vs)
  | ast.Subscript i v sl c =>
      HSubscript i v sl c (expr_nested_ind v) (expr_nested_ind sl)
  | ast.Index i v => HIndex i v (expr_nested_ind v)
  | ast.Yield i None => HYieldNone i
  | ast.Yield i (Some v) => HYield i v (expr_nested_ind v)
  end.

End expr_induction.

Section stmt_induction.

Variable P : ast.stmt -> Prop.
Hypothesis HFunctionDef :
  forall i name args body, Forall P body -> P (ast.FunctionDef i name args body).
Hypothesis HReturn : forall i v, P (ast.Return i v).
Hypothesis HAssign : forall i targets v, P (ast.Assign i targets v).
Hypothesis HAugAssign : forall i t o v, P (ast.AugAssign i t o v).
Hypothesis HPrint : forall i values, P (ast.Print i values).
Hypothesis HFor :
  forall i t it body orelse,
    Forall P body -> Forall P orelse -> P (ast.For i t it body orelse).
Hypothesis HWhile :
  forall i t body orelse,
    Forall P body -> Forall P orelse -> P (ast.While i t body orelse).
Hypothesis HIf :
  forall i t body orelse,
    Forall P body -> Forall P orelse -> P (ast.If i t body orelse).
Hypothesis HExpr : forall i v, P (ast.Expr i v).
Hypothesis HPass : forall i, P (ast.Pass i).
Hypothesis HBreak : forall i, P (ast.Break i).
Hypothesis HContinue : forall i, P (ast.Continue i).

Fixpoint stmt_nested_ind (s : ast.stmt) : P s :=
  let all :=
    fix all (l : list ast.stmt) : Forall P l :=
      match l with
      | [] => List.Forall_nil P
      | x :: l' => List.Forall_cons P x l' (stmt_nested_ind x) (all l')
      end in
  match s with
  | ast.FunctionDef i name args body => HFunctionDef i name args body (all body)
  | ast.Return i v => HReturn i v
  | ast.Assign i targets v => HAssign i targets v
  | ast.AugAssign i t o v => HAugAssign i t o v
  | ast.Print i values => HPrint i values
  | ast.For i t it body orelse => HFor i t it body orelse (all body) (all orelse)
  | ast.While i t body orelse => HWhile i t body orelse (all body) (all orelse)
  | ast.If i t body orelse => HIf i t body orelse (all body) (all orelse)
  | ast.Expr i v => HExpr i v
  | ast.Pass i => HPass i
  | ast.Break i => HBreak i
  | ast.Continue i => HContinue i
  end.

End stmt_induction.

(** ** Further measures and readings used in the statements below *)

(** The Python object a literal node stands for, [None] when the node is not
    of the kind [to_ast] makes. *)
Fixpoint value_of_literal (e : ast.expr) : option value :=
  let all :=
    fix all (l : list ast.expr) : option (list value) :=
      match l with
      | [] => Some []
      | x :: l' =>
          match value_of_literal x, all l' with
          | Some v, Some vs => Some (v :: vs)
          | _, _ => None
          end
      end in
  match e with
  | ast.Num _ n => Some (PyNum n)
  | ast.Str _ s => Some (PyStr s)
  | ast.Attribute _ (ast.Name _ m _) a _ =>
      if String.eqb m "__builtin__" then
        if String.eqb a "True" then Some (PyBool true)
        else if String.eqb a "False" then Some (PyBool false)
        else None
      else None
  | ast.List _ elts _ => option_map PyList (all elts)
  | ast.Tuple _ elts _ => option_map PyTuple (all elts)
  | ast.Set_ _ elts => option_map PySet (all elts)
  | ast.Dict _ ks vs =>
      match all ks, all vs with
      | Some ks', Some vs' => Some (PyDict ks' vs')
      | _, _ => None
      end
  | _ => None
  end.

Fixpoint values_of_literals (l : list ast.expr) : option (list value) :=
  match l with
  | [] => Some []
  | x :: l' =>
      match value_of_literal x, values_of_literals l' with
      | Some v, Some vs => Some (v :: vs)
      | _, _ => None
      end
  end.

(** The identities of the expression nodes of a statement. *)
Fixpoint stmt_expr_ids (s : ast.stmt) : list nat :=
  match s with
  | ast.FunctionDef _ _ args body =>
      flat_map expr_ids args ++ flat_map stmt_expr_ids body
  | ast.Return _ None => []
  | ast.Return _ (Some v) => expr_ids v
  | ast.Assign _ targets v => flat_map expr_ids targets ++ expr_ids v
  | ast.AugAssign _ t _ v => expr_ids t ++ expr_ids v
  | ast.Print _ values => flat_map expr_ids values
  | ast.For _ t it body orelse =>
      expr_ids t ++ expr_ids it ++ flat_map stmt_expr_ids body
        ++ flat_map stmt_expr_ids orelse
  | ast.While _ t body orelse | ast.If _ t body orelse =>
      expr_ids t ++ flat_map stmt_expr_ids body ++ flat_map stmt_expr_ids orelse
  | ast.Expr _ v => expr_ids v
  | ast.Pass _ | ast.Break _ | ast.Continue _ => []
  end.

(** What a computation may end in: an answer that satisfies [post], or one
    of the [allowed] exceptions; never a malformed tree. *)
Definition ends_in {S A} (allowed : exn -> Prop) (post : A -> S -> Prop)
    (r : outcome (A * S)) : Prop :=
  match r with
  | Ok (a, s) => post a s
  | Raise e => allowed e
  | Malformed => False
  end.

(** The traversal of a statement sequence by [DeadCodeElimination]. *)
Definition DeadCodeElimination_body (pure_expressions : gset nat)
    (used_def_chain : gmap string ud_graph)
  : list ast.stmt -> M nat (list ast.stmt) :=
  visit_stmts default_visit_expr
    (DeadCodeElimination.visit_stmt_method pure_expressions used_def_chain).

(** Some statement of [s], at any depth, is a for-loop. *)
Fixpoint contains_For (s : ast.stmt) : bool :=
  match s with
  | ast.For _ _ _ _ _ => true
  | ast.FunctionDef _ _ _ body => existsb contains_For body
  | ast.While _ _ body orelse | ast.If _ _ body orelse =>
      existsb contains_For body || existsb contains_For orelse
  | _ => false
  end.

(** The program text of an unrolled loop: for each element, in order, the
    assignment of the element to the loop variable, then the body. *)
Definition unrolled_text (target : ast.expr) (body : list ast.stmt)
    (elts : list ast.expr) : list ast.stmt :=
  flat_map (fun elt =>
              ast.Assign 0 [erase_expr target] (erase_expr elt)
                :: map erase_stmt body) elts.

(** [for j in [1, 2]: i += j] with the else-branch [pass] *)
Definition loop_with_else : ast.stmt :=
  ast.For 0 (ast.Name 1 "j" ast.Store)
    (ast.List 2 [ast.Num 3 (ast.PyInt 1); ast.Num 4 (ast.PyInt 2)] ast.Load)
    [ast.AugAssign 6 (ast.Name 7 "i" ast.Store) ast.Add
       (ast.Name 8 "j" ast.Load)]
    [ast.Pass 9].

(** Some name node of [e] is one of the nodes [U]. *)
Fixpoint mentions (U : list ast.expr) (e : ast.expr) : bool :=
  match e with
  | ast.Name _ _ _ => node_in e U
  | ast.Num _ _ | ast.Str _ _ | ast.Yield _ None => false
  | ast.Attribute _ v _ _ | ast.Index _ v | ast.Yield _ (Some v) => mentions U v
  | ast.BinOp _ l _ r | ast.Subscript _ l r _ => mentions U l || mentions U r
  | ast.Call _ f args => mentions U f || existsb (mentions U) args
  | ast.List _ elts _ | ast.Tuple _ elts _ | ast.Set_ _ elts =>
      existsb (mentions U) elts
  | ast.Dict _ ks vs => existsb (mentions U) ks || existsb (mentions U) vs
  end.

Fixpoint stmt_mentions (U : list ast.expr) (s : ast.stmt) : bool :=
  match s with
  | ast.FunctionDef _ _ args body =>
      existsb (mentions U) args || existsb (stmt_mentions U) body
  | ast.Return _ None | ast.Pass _ | ast.Break _ | ast.Continue _ => false
  | ast.Return _ (Some v) | ast.Expr _ v => mentions U v
  | ast.Assign _ targets v => existsb (mentions U) targets || mentions U v
  | ast.AugAssign _ t _ v => mentions U t || mentions U v
  | ast.Print _ values => existsb (mentions U) values
  | ast.For _ t it body orelse =>
      mentions U t || mentions U it || existsb (stmt_mentions U) body
      || existsb (stmt_mentions U) orelse
  | ast.While _ t body orelse | ast.If _ t body orelse =>
      mentions U t || existsb (stmt_mentions U) body
      || existsb (stmt_mentions U) orelse
  end.

(** Some assignment of [s], at any depth, has the node [D] among its
    targets. *)
Fixpoint assigns_to (D : ast.expr) (s : ast.stmt) : bool :=
  match s with
  | ast.Assign _ targets _ => node_in D targets
  | ast.FunctionDef _ _ _ body => existsb (assigns_to D) body
  | ast.For _ _ _ body orelse | ast.While _ _ body orelse
  | ast.If _ _ body orelse =>
      existsb (assigns_to D) body || existsb (assigns_to D) orelse
  | _ => false
  end.

(** A chain for which [forward] does not run the remover: the variable is
    not eligible, or it has not exactly one D occurrence, or it has a UD
    occurrence, or its D occurrence is a parameter. *)
Definition not_forwardable (literals : gset string) (name : string)
    (udgraph : ud_graph) (lazy : lazyness) : Prop :=
  ~ eligible literals name udgraph lazy \/
  length (ForwardSubstitution.get udgraph "D") <> 1 \/
  ForwardSubstitution.get udgraph "UD" <> [] \/
  exists d, ForwardSubstitution.get udgraph "D" = [d] /\
            ctx_of d = Some ast.Param.

(** [def bar(a): return a], the first function of the third doctest of
    [DeadCodeElimination], with the chain of its parameter. *)
Definition bar : ast.stmt :=
  ast.FunctionDef 0 "bar" [ast.Name 1 "a" ast.Param]
    [ast.Return 2 (Some (ast.Name 3 "a" ast.Load))].

Definition bar_chains : gmap string ud_graph :=
  {[ "a" := [ {| name := ast.Name 1 "a" ast.Param; action := "D" |};
              {| name := ast.Name 3 "a" ast.Load; action := "U" |} ] ]}.

Definition bar_lazyness : gmap string lazyness := {[ "a" := Count 1 ]}.

(** ** [Pow2] *)

Module Pow2.

(** [n == 2] for the payload of an [ast.Num].  The only float that equals 2
    is [2.0]; the complex numbers that equal 2 are [2+0j] and [2-0j] (a
    negative zero as imaginary part). *)
Definition equals_2 (n : ast.num) : bool :=
  match n with
  | ast.PyInt z | ast.PyLong z => Z.eqb z 2
  | ast.PyFloat repr => String.eqb repr "2.0"
  | ast.PyComplex repr => String.eqb repr "(2+0j)" || String.eqb repr "(2-0j)"
  end.

(** The new call is built from the inside: the [ast.Name] first, then the
    [ast.Attribute], then the [ast.Call]; its argument is the object
    [node.left], not a copy of it. *)
Definition visit_BinOp (generic_visit : M nat ast.expr) : M nat (option ast.expr) :=
  node <- generic_visit ;;
  match node with
  | ast.BinOp _ left_ ast.Pow (ast.Num _ n) =>
      if equals_2 n then
        i <- fresh ;; j <- fresh ;; k <- fresh ;;
        ret (Some (ast.Call k
                     (ast.Attribute j (ast.Name i "__builtin__" ast.Load)
                        "pow2" ast.Load)
                     [left_]))
      else ret (Some node)
  | _ => ret (Some node)
  end.

Definition visit_expr_method (e : ast.expr) (generic_visit : M nat ast.expr)
  : M nat (option ast.expr) :=
  match e with
  | ast.BinOp _ _ _ _ => visit_BinOp generic_visit
  | _ => default_visit_expr e generic_visit
  end.

Definition visit_expression : ast.expr -> M nat (option ast.expr) :=
  visit_expr visit_expr_method.

(** [visit] of a statement: the class has no method for statements. *)
Definition visit (s : ast.stmt) : M nat ast.stmt :=
  generic_visit_stmt visit_expr_method default_visit_stmt s.

Definition visit_body : list ast.stmt -> M nat (list ast.stmt) :=
  visit_stmts visit_expr_method default_visit_stmt.

End Pow2.

(** [node.n] when the node is an [ast.Num]. *)
Definition payload (e : ast.expr) : option ast.num :=
  match e with ast.Num _ n => Some n | _ => None end.

(** The node is a power whose exponent is a number that equals 2. *)
Definition is_square (e : ast.expr) : bool :=
  match e with
  | ast.BinOp _ _ ast.Pow r =>
      match payload r with Some n => Pow2.equals_2 n | None => false end
  | _ => false
  end.

(** The number of such powers in a tree. *)
Fixpoint squares (e : ast.expr) : nat :=
  (if is_square e then 1 else 0) +
  match e with
  | ast.Num _ _ | ast.Str _ _ | ast.Name _ _ _ | ast.Yield _ None => 0
  | ast.Attribute _ v _ _ | ast.Index _ v | ast.Yield _ (Some v) => squares v
  | ast.BinOp _ l _ r | ast.Subscript _ l r _ => squares l + squares r
  | ast.Call _ f args => squares f + list_sum (map squares args)
  | ast.List _ elts _ | ast.Tuple _ elts _ | ast.Set_ _ elts =>
      list_sum (map squares elts)
  | ast.Dict _ ks vs => list_sum (map squares ks) + list_sum (map squares vs)
  end.

Fixpoint stmt_squares (s : ast.stmt) : nat :=
  match s with
  | ast.FunctionDef _ _ args body =>
      list_sum (map squares args) + list_sum (map stmt_squares body)
  | ast.Return _ None | ast.Pass _ | ast.Break _ | ast.Continue _ => 0
  | ast.Return _ (Some v) | ast.Expr _ v => squares v
  | ast.Assign _ targets v => list_sum (map squares targets) + squares v
  | ast.AugAssign _ t _ v => squares t + squares v
  | ast.Print _ values => list_sum (map squares values)
  | ast.For _ t it body orelse =>
      squares t + squares it + list_sum (map stmt_squares body)
      + list_sum (map stmt_squares orelse)
  | ast.While _ t body orelse | ast.If _ t body orelse =>
      squares t + list_sum (map stmt_squares body)
      + list_sum (map stmt_squares orelse)
  end.

(** [a**2] as an expression statement, the doctest of [Pow2]. *)
Definition a_squared : ast.stmt :=
  ast.Expr 0 (ast.BinOp 1 (ast.Name 2 "a" ast.Load) ast.Pow
                (ast.Num 3 (ast.PyInt 2))).

(** ** [IterTransformation] *)

Module IterTransformation.

Section Pass.

(** The results of [PotentialIterator] and [Aliases] and the table
    [equivalent_iterators] of [tables.py].  [self.aliases] is a dictionary
    from nodes to objects with a field [aliases]; it is kept as the list of
    its items in the order [iteritems] yields them, each with the field
    [aliases] of its value, and [same_aliases] is [==] on these fields. *)
Context {alias : Type}.
Variable same_aliases : alias -> alias -> bool.
Variable potential_iterator : gset nat.
Variable aliases : list (ast.expr * alias).
Variable equivalent_iterators : gmap string (string * string).

(** [self.aliases[node].aliases], [None] when [node not in self.aliases]. *)
Definition aliases_get (node : ast.expr) : option alias :=
  option_map snd
    (List.find (fun item => Nat.eqb (expr_id (fst item)) (expr_id node)) aliases).

(** [k.attr] when [k] is an attribute of the name [__builtin__]. *)
Definition builtin_attr (k : ast.expr) : option string :=
  match k with
  | ast.Attribute _ (ast.Name _ id _) attr _ =>
      if String.eqb id "__builtin__" then Some attr else None
  | _ => None
  end.

(** The loop of [find_matching_builtin] over the items that are left. *)
Fixpoint first_builtin (a : alias) (items : list (ast.expr * alias))
  : option string :=
  match items with
  | [] => None
  | (k, v) :: rest =>
      match builtin_attr k with
      | Some attr => if same_aliases a v then Some attr else first_builtin a rest
      | None => first_builtin a rest
      end
  end.

(** [find_matching_builtin(node)] for a call whose [node.func] is [func];
    the answer [None] is Python's [None]. *)
Definition find_matching_builtin (func : ast.expr) : option string :=
  match aliases_get func with
  | Some a => first_builtin a aliases
  | None => None
  end.

(** The first half of [visit_Call] for the call [i] with [node.func = func]:
    the attribute that is stored in [node.func], if any.  The name is
    created before the attribute. *)
Definition new_func (i : nat) (func : ast.expr) : M nat (option ast.expr) :=
  if in_set i potential_iterator then
    match find_matching_builtin func with
    | Some f =>
        match equivalent_iterators !! f with
        | Some (ns, new) =>
            k <- fresh ;; j <- fresh ;;
            ret (Some (ast.Attribute j (ast.Name k ns ast.Load) new ast.Load))
        | None => ret None
        end
    | None => ret None
    end
  else ret None.

(** [visit]: [visit_Call] for a call, [generic_visit] for every other
    expression.  [visit_Call] ends in [generic_visit(node)] on the call with
    its new [func]; a new attribute holds no call, so that [visit] on it is
    the traversal of a transformer without methods. *)
Fixpoint visit_expression (e : ast.expr) : M nat (option ast.expr) :=
  let visit_list :=
    fix go (l : list ast.expr) : M nat (list ast.expr) :=
      match l with
      | [] => ret []
      | c :: l' =>
          r <- visit_expression c ;;
          rs <- go l' ;;
          ret (match r with Some c' => c' :: rs | None => rs end)
      end in
  match e with
  | ast.Num _ _ | ast.Str _ _ | ast.Name _ _ _ => ret (Some e)
  | ast.Attribute i v a c =>
      v' <- field (visit_expression v) ;; ret (Some (ast.Attribute i v' a c))
  | ast.BinOp i l o r =>
      l' <- field (visit_expression l) ;; r' <- field (visit_expression r) ;;
      ret (Some (ast.BinOp i l' o r'))
  | ast.Call i func args =>
      replaced <- new_func i func ;;
      func' <- field (match replaced with
                      | Some attribute => visit_expr default_visit_expr attribute
                      | None => visit_expression func
                      end) ;;
      args' <- visit_list args ;;
      ret (Some (ast.Call i func' args'))
  | ast.List i elts c => elts' <- visit_list elts ;; ret (Some (ast.List i elts' c))
  | ast.Tuple i elts c => elts' <- visit_list elts ;; ret (Some (ast.Tuple i elts' c))
  | ast.Set_ i elts => elts' <- visit_list elts ;; ret (Some (ast.Set_ i elts'))
  | ast.Dict i ks vs =>
      ks' <- visit_list ks ;; vs' <- visit_list vs ;;
      ret (Some (ast.Dict i ks' vs'))
  | ast.Subscript i v sl c =>
      v' <- field (visit_expression v) ;; sl' <- field (visit_expression sl) ;;
      ret (Some (ast.Subscript i v' sl' c))
  | ast.Index i v => v' <- field (visit_expression v) ;; ret (Some (ast.Index i v'))
  | ast.Yield i None => ret (Some e)
  | ast.Yield i (Some v) =>
      v' <- field (visit_expression v) ;; ret (Some (ast.Yield i (Some v')))
  end.

Fixpoint visit_expressions (l : list ast.expr) : M nat (list ast.expr) :=
  match l with
  | [] => ret []
  | c :: l' =>
      r <- visit_expression c ;;
      rs <- visit_expressions l' ;;
      ret (match r with Some c' => c' :: rs | None => rs end)
  end.

Definition visit_expr_method (e : ast.expr) (generic_visit : M nat ast.expr)
  : M nat (option ast.expr) :=
  visit_expression e.

(** [visit] of a statement other than the module. *)
Definition visit (s : ast.stmt) : M nat ast.stmt :=
  generic_visit_stmt visit_expr_method default_visit_stmt s.

(** The call [i] gets a new [func]. *)
Definition replaces (i : nat) (func : ast.expr) : bool :=
  in_set i potential_iterator &&
  match find_matching_builtin func with
  | Some f => bool_decide (is_Some (equivalent_iterators !! f))
  | None => false
  end.

(** Some call of the tree gets a new [func]. *)
Fixpoint replaces_in (e : ast.expr) : bool :=
  match e with
  | ast.Num _ _ | ast.Str _ _ | ast.Name _ _ _ | ast.Yield _ None => false
  | ast.Attribute _ v _ _ | ast.Index _ v | ast.Yield _ (Some v) => replaces_in v
  | ast.BinOp _ l _ r | ast.Subscript _ l r _ => replaces_in l || replaces_in r
  | ast.Call i f args => replaces i f || replaces_in f || existsb replaces_in args
  | ast.List _ elts _ | ast.Tuple _ elts _ | ast.Set_ _ elts =>
      existsb replaces_in elts
  | ast.Dict _ ks vs => existsb replaces_in ks || existsb replaces_in vs
  end.

Fixpoint replaces_in_stmt (s : ast.stmt) : bool :=
  match s with
  | ast.FunctionDef _ _ args body =>
      existsb replaces_in args || existsb replaces_in_stmt body
  | ast.Return _ None | ast.Pass _ | ast.Break _ | ast.Continue _ => false
  | ast.Return _ (Some v) | ast.Expr _ v => replaces_in v
  | ast.Assign _ targets v => existsb replaces_in targets || replaces_in v
  | ast.AugAssign _ t _ v => replaces_in t || replaces_in v
  | ast.Print _ values => existsb replaces_in values
  | ast.For _ t it body orelse =>
      replaces_in t || replaces_in it || existsb replaces_in_stmt body
      || existsb replaces_in_stmt orelse
  | ast.While _ t body orelse | ast.If _ t body orelse =>
      replaces_in t || existsb replaces_in_stmt body
      || existsb replaces_in_stmt orelse
  end.

End Pass.

End IterTransformation.

(** The two functions of the doctest of [IterTransformation],

      def foo(l): return __builtin__.sum(l)
      def bar(n): return foo(__builtin__.range(n))

    with analysis results for them: the call of [range] is the potential
    iterator, every function aliases itself, and [range] has the equivalent
    iterator [xrange]. *)
Module IT_example.

Definition range : ast.expr :=
  ast.Attribute 6 (ast.Name 7 "__builtin__" ast.Load) "range" ast.Load.

Definition sum : ast.expr :=
  ast.Attribute 14 (ast.Name 15 "__builtin__" ast.Load) "sum" ast.Load.

Definition foo : ast.stmt :=
  ast.FunctionDef 10 "foo" [ast.Name 11 "l" ast.Param]
    [ast.Return 12 (Some (ast.Call 13 sum [ast.Name 16 "l" ast.Load]))].

Definition bar : ast.stmt :=
  ast.FunctionDef 0 "bar" [ast.Name 1 "n" ast.Param]
    [ast.Return 2
       (Some (ast.Call 3 (ast.Name 4 "foo" ast.Load)
                [ast.Call 5 range [ast.Name 8 "n" ast.Load]]))].

Definition potential_iterator : gset nat := {[ 5 ]}.

Definition aliases : list (ast.expr * string) :=
  [ (ast.Name 4 "foo" ast.Load, "foo"); (sum, "sum"); (range, "range") ].

Definition equivalent_iterators : gmap string (string * string) :=
  {[ "range" := ("__builtin__", "xrange") ]}.

Definition visit : ast.stmt -> M nat ast.stmt :=
  IterTransformation.visit String.eqb potential_iterator aliases
    equivalent_iterators.

End IT_example.

(** * Properties of the passes *)

(** ** Running a computation *)

Lemma bind_Ok {S A B} (m : M S A) (k : A -> M S B) s a s' :
  m s = Ok (a, s') -> bind m k s = k a s'.
Proof. unfold bind. intros ->. reflexivity. Qed.

Lemma bind_Raise {S A B} (m : M S A) (k : A -> M S B) s e :
  m s = Raise e -> bind m k s = Raise e.
Proof. unfold bind. intros ->. reflexivity. Qed.

Lemma bind_inv {S A B} (m : M S A) (k : A -> M S B) s b s2 :
  bind m k s = Ok (b, s2) ->
  exists a s1, m s = Ok (a, s1) /\ k a s1 = Ok (b, s2).
Proof.
  unfold bind. destruct (m s) as [[a s1]| |]; try discriminate.
  intros H. exists a, s1. split; [reflexivity | exact H].
Qed.

(** ** [DeadCodeElimination] *)

Section DeadCodeElimination_properties.

Variable pure_expressions : gset nat.
Variable used_def_chain : gmap string ud_graph.

Local Abbreviation used_target := (DeadCodeElimination.used_target used_def_chain).
Local Abbreviation visit_Assign :=
  (DeadCodeElimination.visit_Assign pure_expressions used_def_chain).
Local Abbreviation visit_Expr := (DeadCodeElimination.visit_Expr pure_expressions).
Local Abbreviation keeps := (DeadCodeElimination.keeps used_def_chain).
Local Abbreviation unused_name := (DeadCodeElimination.unused_name used_def_chain).
Local Abbreviation chains_known := (DeadCodeElimination.chains_known used_def_chain).

Local Abbreviation is_use := DeadCodeElimination.is_use.
Local Abbreviation no_use_occurrence := DeadCodeElimination.no_use_occurrence.

Lemma use_count_existsb (udc : ud_graph) :
  negb (Nat.eqb (length (List.filter is_use udc)) 0) = existsb is_use udc.
Proof.
  induction udc as [|n udc IH]; simpl; [reflexivity|].
  destruct (is_use n); simpl; [reflexivity | exact IH].
Qed.

Lemma is_use_false (n : ud_node) :
  is_use n = false <-> action n <> "U" /\ action n <> "UD".
Proof.
  unfold is_use. rewrite orb_false_iff, !String.eqb_neq. reflexivity.
Qed.

Lemma existsb_is_use_false (udc : ud_graph) :
  existsb is_use udc = false <-> no_use_occurrence udc.
Proof.
  unfold no_use_occurrence. induction udc as [|n udc IH]; simpl.
  - split; [constructor | reflexivity].
  - rewrite orb_false_iff, IH, is_use_false. split.
    + intros [H1 H2]. constructor; assumption.
    + intros H. inversion H; subst. split; assumption.
Qed.

(** The filter drops exactly the unused names. *)
Lemma keeps_false (t : ast.expr) : keeps t = false <-> unused_name t.
Proof.
  unfold DeadCodeElimination.keeps, DeadCodeElimination.unused_name. split.
  - destruct t; try discriminate.
    destruct (used_def_chain !! id) as [udc|] eqn:E; [|discriminate].
    intros H. exists i, id, ctx, udc.
    split; [reflexivity|]. split; [exact E|]. apply existsb_is_use_false, H.
  - intros (i & id & ctx & udc & -> & E & H). simpl. rewrite E.
    apply existsb_is_use_false, H.
Qed.

Lemma used_target_known (t : ast.expr) (st : nat) :
  chains_known [t] -> used_target t st = Ok (keeps t, st).
Proof.
  intros H. inversion H as [|? ? Ht _]; subst.
  destruct t; try reflexivity.
  destruct (Ht i id ctx eq_refl) as [udc E].
  unfold DeadCodeElimination.used_target, DeadCodeElimination.keeps.
  rewrite E. unfold ret. rewrite use_count_existsb. reflexivity.
Qed.

Lemma filter_used_target (targets : list ast.expr) (st : nat) :
  chains_known targets ->
  filterM used_target targets st = Ok (List.filter keeps targets, st).
Proof.
  induction targets as [|t targets IH]; intros H; [reflexivity|].
  inversion H as [|? ? Ht Hrest]; subst. simpl.
  assert (H1 : chains_known [t]) by (constructor; [exact Ht | constructor]).
  rewrite (bind_Ok _ _ _ _ _ (used_target_known t st H1)).
  rewrite (bind_Ok _ _ _ _ _ (IH Hrest)).
  unfold ret. destruct (keeps t); reflexivity.
Qed.

(** C1.  [visit_Assign], on an assignment all of whose target names have a
    use-def chain: the targets that stay are, in order, those that are not a
    name whose chain has no occurrence tagged U or UD; when some target stays
    the assignment is returned with them; when none stays, the statement
    becomes [Pass] if the right-hand side is in the pure-expression set, and
    otherwise an expression statement that holds the right-hand side itself. *)
Theorem visit_Assign_drops_unused_targets
    (i : nat) (targets : list ast.expr) (value : ast.expr) (st : nat) :
  chains_known targets ->
  let kept := List.filter keeps targets in
  (forall t, In t kept <-> In t targets /\ ~ unused_name t) /\
  (kept <> [] ->
   visit_Assign i targets value st = Ok ([ast.Assign i kept value], st)) /\
  (kept = [] -> expr_id value ∈ pure_expressions ->
   visit_Assign i targets value st = Ok ([ast.Pass st], S st)) /\
  (kept = [] -> expr_id value ∉ pure_expressions ->
   visit_Assign i targets value st = Ok ([ast.Expr st value], S st)).
Proof.
  intros Hknown kept.
  assert (Hrun : visit_Assign i targets value st
                 = match kept with
                   | _ :: _ => Ok ([ast.Assign i kept value], st)
                   | [] => if in_set (expr_id value) pure_expressions
                           then Ok ([ast.Pass st], S st)
                           else Ok ([ast.Expr st value], S st)
                   end).
  { unfold DeadCodeElimination.visit_Assign.
    rewrite (bind_Ok _ _ _ _ _ (filter_used_target targets st Hknown)).
    fold kept. destruct kept; [|reflexivity].
    destruct (in_set (expr_id value) pure_expressions); reflexivity. }
  split; [|split; [|split]].
  - intros t. unfold kept. rewrite filter_In, <- keeps_false.
    destruct (keeps t); intuition congruence.
  - intros Hne. rewrite Hrun. destruct kept; [congruence | reflexivity].
  - intros He Hpure. rewrite Hrun, He. unfold in_set.
    rewrite bool_decide_eq_true_2 by exact Hpure. reflexivity.
  - intros He Hpure. rewrite Hrun, He. unfold in_set.
    rewrite bool_decide_eq_false_2 by exact Hpure. reflexivity.
Qed.

(** What the filter of [visit_Assign] can end in, with or without chains. *)
Lemma filter_used_target_outcome (targets : list ast.expr) (st : nat) :
  match filterM used_target targets st with
  | Ok (l, st') =>
      st' = st /\ (forall t, In t l -> In t targets) /\
      (forall t, In t targets -> DeadCodeElimination.is_Name t = false -> In t l)
  | Raise e =>
      exists i id ctx,
        e = KeyError id /\ In (ast.Name i id ctx) targets /\
        used_def_chain !! id = None
  | Malformed => False
  end.
Proof.
  induction targets as [|t targets IH]; simpl.
  - unfold ret. split; [reflexivity|]. split; intros t H; [exact H | destruct H].
  - unfold bind at 1.
    assert (Ht : (exists b, used_target t st = Ok (b, st) /\
                            (DeadCodeElimination.is_Name t = false -> b = true)) \/
                 (exists i id ctx, t = ast.Name i id ctx /\
                                   used_def_chain !! id = None /\
                                   used_target t st = Raise (KeyError id))).
    { destruct t; try (left; exists true; split; reflexivity).
      simpl. destruct (used_def_chain !! id) as [udc|] eqn:E.
      - left. eexists. split; [reflexivity | discriminate].
      - right. exists i, id, ctx. repeat split; assumption. }
    destruct Ht as [(b & -> & Hb) | (i & id & ctx & -> & E & ->)].
    + unfold bind at 1.
      destruct (filterM used_target targets st) as [[l st']| e |]; [| |exact IH].
      * destruct IH as (-> & Hsub & Hkeep). unfold ret.
        split; [reflexivity|]. split.
        -- intros t' H. destruct b; [destruct H as [->|H]|]; simpl; auto.
        -- intros t' [->|H] Hn.
           ++ rewrite (Hb Hn). left. reflexivity.
           ++ destruct b; [right|]; auto.
      * destruct IH as (i & id & ctx & -> & Hin & E).
        exists i, id, ctx. repeat split; [right|]; assumption.
    + exists i, id, ctx. repeat split; [left; reflexivity | exact E].
Qed.

(** C10.  A target of an assignment that is not a name is never removed by
    [visit_Assign], whatever the use-def chains say: when the method returns,
    it returns the assignment itself (never [Pass], never an expression
    statement) and every target that is not a name is among its targets; it
    returns whenever every target name has a chain, and otherwise raises the
    KeyError of the failed lookup. *)
Theorem visit_Assign_keeps_non_name_targets
    (i : nat) (targets : list ast.expr) (value : ast.expr) (st : nat)
    (t : ast.expr) :
  In t targets -> DeadCodeElimination.is_Name t = false ->
  (chains_known targets ->
   exists kept,
     visit_Assign i targets value st = Ok ([ast.Assign i kept value], st)) /\
  (forall r st', visit_Assign i targets value st = Ok (r, st') ->
     exists kept,
       r = [ast.Assign i kept value] /\ st' = st /\ In t kept /\
       (forall t', In t' kept -> In t' targets) /\
       (forall t', In t' targets -> DeadCodeElimination.is_Name t' = false ->
                   In t' kept)) /\
  (forall e, visit_Assign i targets value st = Raise e ->
     exists j id ctx,
       e = KeyError id /\ In (ast.Name j id ctx) targets /\
       used_def_chain !! id = None) /\
  visit_Assign i targets value st <> Malformed.
Proof.
  intros Hin Hname.
  pose proof (filter_used_target_outcome targets st) as Hout.
  unfold DeadCodeElimination.visit_Assign, bind.
  destruct (filterM used_target targets st) as [[l st1]| e |] eqn:E;
    [|split; [|split; [|split]]; try discriminate | destruct Hout].
  - destruct Hout as (-> & Hsub & Hkeep).
    pose proof (Hkeep t Hin Hname) as Ht.
    destruct l as [|t0 l]; [destruct Ht|].
    unfold ret. split; [|split; [|split]]; try discriminate.
    + intros _. eexists. reflexivity.
    + intros r st' H. injection H as <- <-.
      eexists. repeat split; eauto.
  - intros Hknown. rewrite (filter_used_target targets st Hknown) in E.
    discriminate.
  - intros e' H. injection H as <-. exact Hout.
Qed.

(** C9.  [visit_Expr] answers [Pass] exactly when the expression statement
    is in the pure-expression set and its expression is not a [Yield]; in
    every other case it answers the statement itself. *)
Theorem visit_Expr_pure_and_not_yield
    (i : nat) (value : ast.expr) (st : nat) :
  let pure_not_yield :=
    i ∈ pure_expressions /\ DeadCodeElimination.isinstance_Yield value = false in
  ((exists j st', visit_Expr i value st = Ok ([ast.Pass j], st')) <->
   pure_not_yield) /\
  (pure_not_yield -> visit_Expr i value st = Ok ([ast.Pass st], S st)) /\
  (~ pure_not_yield -> visit_Expr i value st = Ok ([ast.Expr i value], st)).
Proof.
  unfold DeadCodeElimination.visit_Expr, in_set. simpl.
  destruct (decide (i ∈ pure_expressions)) as [Hp|Hp].
  - rewrite bool_decide_eq_true_2 by exact Hp.
    destruct (DeadCodeElimination.isinstance_Yield value); simpl.
    + split; [|split]; [|intros [_ H]; discriminate | reflexivity]. split.
      * intros (j & st' & H). discriminate.
      * intros [_ H]. discriminate.
    + split; [|split]; [|reflexivity | intros H; destruct H; auto]. split.
      * intros _. split; [exact Hp | reflexivity].
      * intros _. exists st, (S st). reflexivity.
  - rewrite bool_decide_eq_false_2 by exact Hp. simpl.
    split; [|split]; [|intros [H _]; contradiction | reflexivity]. split.
    + intros (j & st' & H). discriminate.
    + intros [H _]. contradiction.
Qed.

End DeadCodeElimination_properties.

(** The assignment [a = [2, 3]] of the doctest of [DeadCodeElimination]: [a]
    is defined and never used, the list is pure. *)
Lemma visit_Assign_drops_unused_targets_witness :
  DeadCodeElimination.visit_Assign DCE_example.pure DCE_example.chains
    1 [ast.Name 2 "a" ast.Store] DCE_example.rhs 8
  = Ok ([ast.Pass 8], 9).
Proof.
  assert (Hknown : DeadCodeElimination.chains_known DCE_example.chains
                     [ast.Name 2 "a" ast.Store]).
  { constructor; [|constructor]. intros i id ctx H. injection H as _ <- _.
    vm_compute. eexists. reflexivity. }
  destruct (visit_Assign_drops_unused_targets DCE_example.pure
              DCE_example.chains 1 [ast.Name 2 "a" ast.Store]
              DCE_example.rhs 8 Hknown) as (_ & _ & Hpass & _).
  apply Hpass; [reflexivity | vm_compute; reflexivity].
Defined.

(** [a = b[0] = f()] with [a] unused: the subscript stays, and so does the
    assignment. *)
Lemma visit_Assign_keeps_non_name_targets_witness :
  exists kept,
    DeadCodeElimination.visit_Assign DCE_example.pure DCE_example.chains
      1 [ast.Name 2 "a" ast.Store; DCE_example.subscript] DCE_example.call 20
    = Ok ([ast.Assign 1 kept DCE_example.call], 20).
Proof.
  assert (Hknown : DeadCodeElimination.chains_known DCE_example.chains
                     [ast.Name 2 "a" ast.Store; DCE_example.subscript]).
  { constructor; [|constructor; [|constructor]].
    - intros i id ctx H. injection H as _ <- _. vm_compute. eexists. reflexivity.
    - intros i id ctx H. discriminate. }
  destruct (visit_Assign_keeps_non_name_targets DCE_example.pure
              DCE_example.chains 1
              [ast.Name 2 "a" ast.Store; DCE_example.subscript]
              DCE_example.call 20 DCE_example.subscript) as (H & _).
  - right. left. reflexivity.
  - reflexivity.
  - exact (H Hknown).
Defined.


(** ** [ConstantFolding.to_ast] *)

Lemma to_ast_PyList (l : list value) :
  ConstantFolding.to_ast (PyList l)
  = if Nat.ltb (length l) ConstantFolding.MAX_LEN
    then elts <- ConstantFolding.map_to_ast l ;; i <- fresh ;;
         ret (ast.List i elts ast.Load)
    else raise ConversionError.
Proof. reflexivity. Qed.

Lemma to_ast_PyTuple (l : list value) :
  ConstantFolding.to_ast (PyTuple l)
  = if Nat.ltb (length l) ConstantFolding.MAX_LEN
    then elts <- ConstantFolding.map_to_ast l ;; i <- fresh ;;
         ret (ast.Tuple i elts ast.Load)
    else raise ConversionError.
Proof. reflexivity. Qed.

Lemma to_ast_PySet (l : list value) :
  ConstantFolding.to_ast (PySet l)
  = if Nat.ltb (length l) ConstantFolding.MAX_LEN
    then elts <- ConstantFolding.map_to_ast l ;; i <- fresh ;;
         ret (ast.Set_ i elts)
    else raise ConversionError.
Proof. reflexivity. Qed.

Lemma to_ast_PyDict (ks vs : list value) :
  ConstantFolding.to_ast (PyDict ks vs)
  = if Nat.ltb (length ks) ConstantFolding.MAX_LEN
    then keys <- ConstantFolding.map_to_ast ks ;;
         values <- ConstantFolding.map_to_ast vs ;;
         i <- fresh ;; ret (ast.Dict i keys values)
    else raise ConversionError.
Proof. reflexivity. Qed.

Lemma Forall_range_weaken (a b a' b' : nat) (l : list nat) :
  a' <= a -> b <= b' ->
  Forall (fun i => a <= i < b) l -> Forall (fun i => a' <= i < b') l.
Proof.
  intros Ha Hb H. eapply List.Forall_impl; [|exact H]. simpl. intros i Hi. lia.
Qed.

Lemma map_to_ast_total (l : list value) :
  Forall (fun v => forall st, to_ast_answer v st) l ->
  forall st, map_to_ast_answer l st.
Proof.
  induction 1 as [|v l Hv _ IH]; intros st; unfold map_to_ast_answer; simpl.
  - exists [], st. repeat split; auto.
  - specialize (Hv st). unfold to_ast_answer in Hv.
    destruct (convertible ConstantFolding.MAX_LEN v); simpl.
    + destruct Hv as (e & st1 & He & Hle1 & Hc & Hids & _).
      specialize (IH st1). unfold map_to_ast_answer in IH.
      rewrite (bind_Ok _ _ _ _ _ He).
      destruct (forallb (convertible ConstantFolding.MAX_LEN) l).
      * destruct IH as (es & st2 & Hes & Hle2 & Hlen & Hcs & Hidss).
        rewrite (bind_Ok _ _ _ _ _ Hes). unfold ret.
        exists (e :: es), st2. split; [reflexivity|].
        split; [lia|]. split; [simpl; congruence|].
        split; [simpl; rewrite Hc, Hcs; reflexivity|].
        simpl. apply Forall_app. split.
        -- eapply Forall_range_weaken; [| |exact Hids]; lia.
        -- eapply Forall_range_weaken; [| |exact Hidss]; lia.
      * rewrite (bind_Raise _ _ _ _ IH). reflexivity.
    + rewrite (bind_Raise _ _ _ _ Hv). reflexivity.
Qed.

Lemma to_ast_total (v : value) : forall st, to_ast_answer v st.
Proof.
  induction v as [n|b|s|l IH|l IH|l IH|ks vs IHk IHv|t] using value_nested_ind;
    intros st; unfold to_ast_answer.
  - simpl. exists (ast.Num st n), (S st). split; [reflexivity|].
    repeat split; auto. repeat constructor; lia.
  - simpl. eexists _, (S (S st)). split; [reflexivity|].
    repeat split; auto. repeat constructor; lia.
  - simpl. exists (ast.Str st s), (S st). split; [reflexivity|].
    repeat split; auto. repeat constructor; lia.
  - rewrite to_ast_PyList. cbn [convertible].
    destruct (Nat.ltb (length l) ConstantFolding.MAX_LEN) eqn:E; [|reflexivity].
    pose proof (map_to_ast_total l IH st) as H. unfold map_to_ast_answer in H.
    simpl. destruct (forallb (convertible ConstantFolding.MAX_LEN) l).
    + destruct H as (es & st1 & Hes & Hle & Hlen & Hcs & Hids).
      rewrite (bind_Ok _ _ _ _ _ Hes). exists (ast.List st1 es ast.Load), (S st1).
      split; [reflexivity|]. split; [lia|].
      split; [cbn [containers_below]; rewrite Hlen, E, Hcs; reflexivity|].
      split; [|reflexivity]. cbn [expr_ids]. constructor; [lia|].
      eapply Forall_range_weaken; [| |exact Hids]; lia.
    + rewrite (bind_Raise _ _ _ _ H). reflexivity.
  - rewrite to_ast_PyTuple. cbn [convertible].
    destruct (Nat.ltb (length l) ConstantFolding.MAX_LEN) eqn:E; [|reflexivity].
    pose proof (map_to_ast_total l IH st) as H. unfold map_to_ast_answer in H.
    simpl. destruct (forallb (convertible ConstantFolding.MAX_LEN) l).
    + destruct H as (es & st1 & Hes & Hle & Hlen & Hcs & Hids).
      rewrite (bind_Ok _ _ _ _ _ Hes). exists (ast.Tuple st1 es ast.Load), (S st1).
      split; [reflexivity|]. split; [lia|].
      split; [cbn [containers_below]; rewrite Hlen, E, Hcs; reflexivity|].
      split; [|reflexivity]. cbn [expr_ids]. constructor; [lia|].
      eapply Forall_range_weaken; [| |exact Hids]; lia.
    + rewrite (bind_Raise _ _ _ _ H). reflexivity.
  - rewrite to_ast_PySet. cbn [convertible].
    destruct (Nat.ltb (length l) ConstantFolding.MAX_LEN) eqn:E; [|reflexivity].
    pose proof (map_to_ast_total l IH st) as H. unfold map_to_ast_answer in H.
    simpl. destruct (forallb (convertible ConstantFolding.MAX_LEN) l).
    + destruct H as (es & st1 & Hes & Hle & Hlen & Hcs & Hids).
      rewrite (bind_Ok _ _ _ _ _ Hes). exists (ast.Set_ st1 es), (S st1).
      split; [reflexivity|]. split; [lia|].
      split; [cbn [containers_below]; rewrite Hlen, E, Hcs; reflexivity|].
      split; [|reflexivity]. cbn [expr_ids]. constructor; [lia|].
      eapply Forall_range_weaken; [| |exact Hids]; lia.
    + rewrite (bind_Raise _ _ _ _ H). reflexivity.
  - rewrite to_ast_PyDict. cbn [convertible].
    destruct (Nat.ltb (length ks) ConstantFolding.MAX_LEN) eqn:E; [|reflexivity].
    pose proof (map_to_ast_total ks IHk st) as Hk. unfold map_to_ast_answer in Hk.
    simpl. destruct (forallb (convertible ConstantFolding.MAX_LEN) ks); simpl.
    + destruct Hk as (eks & st1 & Hes & Hle & Hlen & Hcs & Hids).
      rewrite (bind_Ok _ _ _ _ _ Hes).
      pose proof (map_to_ast_total vs IHv st1) as Hv.
      unfold map_to_ast_answer in Hv.
      destruct (forallb (convertible ConstantFolding.MAX_LEN) vs).
      * destruct Hv as (evs & st2 & Hes2 & Hle2 & Hlen2 & Hcs2 & Hids2).
        rewrite (bind_Ok _ _ _ _ _ Hes2).
        exists (ast.Dict st2 eks evs), (S st2).
        split; [reflexivity|]. split; [lia|].
        split; [cbn [containers_below]; rewrite Hlen, E, Hcs, Hcs2; reflexivity|].
        split; [|reflexivity]. cbn [expr_ids]. constructor; [lia|].
        apply Forall_app. split.
        -- eapply Forall_range_weaken; [| |exact Hids]; lia.
        -- eapply Forall_range_weaken; [| |exact Hids2]; lia.
      * rewrite (bind_Raise _ _ _ _ Hv). reflexivity.
    + rewrite (bind_Raise _ _ _ _ Hk). reflexivity.
  - reflexivity.
Qed.

Lemma existsb_forallb_false {A} (p q : A -> bool) (l : list A) :
  Forall (fun a => p a = true -> q a = false) l ->
  existsb p l = true -> forallb q l = false.
Proof.
  induction 1 as [|a l Ha _ IH]; simpl; [discriminate|].
  destruct (p a); simpl.
  - intros _. rewrite (Ha eq_refl). reflexivity.
  - intros H. rewrite (IH H). apply andb_false_r.
Qed.

Lemma has_oversized_not_convertible (cap : nat) (v : value) :
  has_oversized cap v = true -> convertible cap v = false.
Proof.
  induction v as [n|b|s|l IH|l IH|l IH|ks vs IHk IHv|t] using value_nested_ind;
    simpl; try discriminate.
  1-3: intros H; apply orb_true_iff in H; destruct H as [H|H];
       [ apply Nat.leb_le in H; apply andb_false_iff; left;
         apply Nat.ltb_ge; exact H
       | apply andb_false_iff; right;
         exact (existsb_forallb_false _ _ _ IH H) ].
  intros H. rewrite !orb_true_iff in H. destruct H as [[H|H]|H].
  - apply Nat.leb_le in H. apply Nat.ltb_ge in H. rewrite H. reflexivity.
  - rewrite (existsb_forallb_false _ _ _ IHk H). rewrite andb_false_r. reflexivity.
  - rewrite (existsb_forallb_false _ _ _ IHv H). rewrite andb_false_r. reflexivity.
Qed.

Section ConstantFolding_properties.

Variable constant_expressions : gset nat.
Variable eval : ast.expr -> exn + value.

Local Abbreviation fold := (ConstantFolding.fold eval).
Local Abbreviation generic_visit :=
  (ConstantFolding.generic_visit constant_expressions eval).

Local Abbreviation evaluated := ConstantFolding.evaluated.

(** What the [try] block ends in: a literal made from state [st], or an
    exception. *)
Lemma fold_outcome (node : ast.expr) (st : nat) :
  match fold node st with
  | Ok (new_node, st') =>
      exists v, eval (evaluated node) = inr v /\
                convertible ConstantFolding.MAX_LEN v = true /\
                st <= st' /\
                containers_below ConstantFolding.MAX_LEN new_node = true /\
                Forall (fun i => st <= i < st') (expr_ids new_node)
  | Raise e =>
      eval (evaluated node) = inl e \/
      (exists v, eval (evaluated node) = inr v /\ e = ConversionError /\
                 convertible ConstantFolding.MAX_LEN v = false)
  | Malformed => False
  end.
Proof.
  unfold ConstantFolding.fold. unfold bind at 1.
  destruct (eval (evaluated node)) as [e|v] eqn:Ev; simpl; [left; reflexivity|].
  pose proof (to_ast_total v st) as H. unfold to_ast_answer in H.
  destruct (convertible ConstantFolding.MAX_LEN v) eqn:Ec.
  - destruct H as (e & st1 & He & Hle & Hc & Hids & Hidx).
    rewrite (bind_Ok _ _ _ _ _ He). rewrite Hidx. simpl.
    destruct (ConstantFolding.isinstance_Index node); simpl.
    + exists v. repeat split; auto. constructor; [lia|].
      eapply Forall_range_weaken; [| |exact Hids]; lia.
    + exists v. repeat split; auto.
  - rewrite (bind_Raise _ _ _ _ H). right. exists v. auto.
Qed.

(** C6.  Constant folding never makes a literal container of [MAX_LEN] = 256
    elements or more: every node the [try] block of [generic_visit] produces
    has only containers below the cap; [to_ast] raises [ConversionError] on
    every value that is, or holds, a container of 256 elements or more; and a
    node whose value is such a container is not replaced: [generic_visit]
    answers what [Transformation.generic_visit] answers for it. *)
Theorem folding_respects_MAX_LEN :
  ConstantFolding.MAX_LEN = 256 /\
  (forall node st new_node st',
     fold node st = Ok (new_node, st') ->
     containers_below 256 new_node = true) /\
  (forall v st,
     has_oversized 256 v = true ->
     ConstantFolding.to_ast v st = Raise ConversionError) /\
  (forall node v Transformation_generic_visit st,
     eval (evaluated node) = inr v -> has_oversized 256 v = true ->
     generic_visit node Transformation_generic_visit st
     = default_visit_expr node Transformation_generic_visit st).
Proof.
  assert (Hcap : ConstantFolding.MAX_LEN = 256) by reflexivity.
  assert (Hraise : forall v st, has_oversized 256 v = true ->
            ConstantFolding.to_ast v st = Raise ConversionError).
  { intros v st H. pose proof (to_ast_total v st) as Ht.
    unfold to_ast_answer in Ht. rewrite Hcap in Ht.
    rewrite (has_oversized_not_convertible _ _ H) in Ht. exact Ht. }
  split; [exact Hcap|]. split; [|split; [exact Hraise|]].
  - intros node st new_node st' H. pose proof (fold_outcome node st) as Ho.
    rewrite H in Ho. destruct Ho as (v & _ & _ & _ & Hc & _).
    rewrite Hcap in Hc. exact Hc.
  - intros node v gv st Hev Hbig. unfold ConstantFolding.generic_visit.
    destruct (in_set (expr_id node) constant_expressions); [|reflexivity].
    unfold try_except.
    assert (Hf : fold node st = Raise ConversionError).
    { unfold ConstantFolding.fold. rewrite Hev. unfold lift.
      rewrite (bind_Ok (ret v) _ st v st eq_refl).
      apply bind_Raise. exact (Hraise v st Hbig). }
    rewrite (bind_Raise _ _ _ _ Hf). reflexivity.
Qed.

End ConstantFolding_properties.



(** ** The equations of [generic_visit] *)

Section NodeTransformer_equations.

Context {S : Type}.
Variable visit_expr_method : ast.expr -> M S ast.expr -> M S (option ast.expr).
Variable visit_stmt_method : ast.stmt -> M S ast.stmt -> M S (list ast.stmt).

Local Abbreviation gve := (generic_visit_expr visit_expr_method).
Local Abbreviation ve := (visit_expr visit_expr_method).
Local Abbreviation ves := (visit_exprs visit_expr_method).
Local Abbreviation gvs := (generic_visit_stmt visit_expr_method visit_stmt_method).
Local Abbreviation vss := (visit_stmts visit_expr_method visit_stmt_method).

Lemma generic_visit_expr_eq (e : ast.expr) :
  gve e =
  match e with
  | ast.Num _ _ | ast.Str _ _ | ast.Name _ _ _ => ret e
  | ast.Attribute i v a c => v' <- field (ve v) ;; ret (ast.Attribute i v' a c)
  | ast.BinOp i l o r =>
      l' <- field (ve l) ;; r' <- field (ve r) ;; ret (ast.BinOp i l' o r')
  | ast.Call i f args =>
      f' <- field (ve f) ;; args' <- ves args ;; ret (ast.Call i f' args')
  | ast.List i elts c => elts' <- ves elts ;; ret (ast.List i elts' c)
  | ast.Tuple i elts c => elts' <- ves elts ;; ret (ast.Tuple i elts' c)
  | ast.Set_ i elts => elts' <- ves elts ;; ret (ast.Set_ i elts')
  | ast.Dict i ks vs =>
      ks' <- ves ks ;; vs' <- ves vs ;; ret (ast.Dict i ks' vs')
  | ast.Subscript i v sl c =>
      v' <- field (ve v) ;; sl' <- field (ve sl) ;;
      ret (ast.Subscript i v' sl' c)
  | ast.Index i v => v' <- field (ve v) ;; ret (ast.Index i v')
  | ast.Yield i None => ret e
  | ast.Yield i (Some v) => v' <- field (ve v) ;; ret (ast.Yield i (Some v'))
  end.
Proof. destruct e as [| | | | | | | | | | | |i [v|]]; reflexivity. Qed.

Lemma generic_visit_stmt_eq (s : ast.stmt) :
  gvs s =
  match s with
  | ast.FunctionDef i name args body =>
      args' <- ves args ;; body' <- vss body ;;
      ret (ast.FunctionDef i name args' body')
  | ast.Return i None => ret s
  | ast.Return i (Some v) => v' <- field (ve v) ;; ret (ast.Return i (Some v'))
  | ast.Assign i targets v =>
      targets' <- ves targets ;; v' <- field (ve v) ;;
      ret (ast.Assign i targets' v')
  | ast.AugAssign i t o v =>
      t' <- field (ve t) ;; v' <- field (ve v) ;; ret (ast.AugAssign i t' o v')
  | ast.Print i values => values' <- ves values ;; ret (ast.Print i values')
  | ast.For i t it body orelse =>
      t' <- field (ve t) ;; it' <- field (ve it) ;;
      body' <- vss body ;; orelse' <- vss orelse ;;
      ret (ast.For i t' it' body' orelse')
  | ast.While i t body orelse =>
      t' <- field (ve t) ;; body' <- vss body ;; orelse' <- vss orelse ;;
      ret (ast.While i t' body' orelse')
  | ast.If i t body orelse =>
      t' <- field (ve t) ;; body' <- vss body ;; orelse' <- vss orelse ;;
      ret (ast.If i t' body' orelse')
  | ast.Expr i v => v' <- field (ve v) ;; ret (ast.Expr i v')
  | ast.Pass _ | ast.Break _ | ast.Continue _ => ret s
  end.
Proof. destruct s as [|i [v|]| | | | | | | | | |]; reflexivity. Qed.

(** A mandatory field whose visit answers a node. *)
Lemma field_Ok {A} (m : M S (option A)) s a s' :
  m s = Ok (Some a, s') -> field m s = Ok (a, s').
Proof. intros H. unfold field. rewrite (bind_Ok _ _ _ _ _ H). reflexivity. Qed.

Lemma field_inv {A} (m : M S (option A)) s a s' :
  field m s = Ok (a, s') -> m s = Ok (Some a, s').
Proof.
  unfold field. intros H. apply bind_inv in H.
  destruct H as ([x|] & s1 & Hm & Hr); [|discriminate].
  injection Hr as -> ->. exact Hm.
Qed.

End NodeTransformer_equations.

(** Steps of a proof that runs a computation: a known answer moves a bind
    forward; an answer in the hypotheses is taken apart. *)
Ltac run_with H :=
  first [ rewrite (bind_Ok _ _ _ _ _ H)
        | rewrite (bind_Ok _ _ _ _ _ (field_Ok _ _ _ _ H)) ].

Ltac bind_inversion H :=
  let a := fresh "a" in
  let s := fresh "s" in
  let H1 := fresh "Hstep" in
  apply bind_inv in H; destruct H as (a & s & H1 & H).

(** ** [ConstantFolding]: the traversal always answers *)

Section ConstantFolding_traversal.

Variable constant_expressions : gset nat.
Variable eval : ast.expr -> exn + value.

Local Abbreviation fold := (ConstantFolding.fold eval).
Local Abbreviation hook := (ConstantFolding.generic_visit constant_expressions eval).
Local Abbreviation hook_stmt :=
  (ConstantFolding.generic_visit_statement constant_expressions).
Local Abbreviation gve := (generic_visit_expr hook).
Local Abbreviation ve := (visit_expr hook).
Local Abbreviation ves := (visit_exprs hook).
Local Abbreviation gvs := (generic_visit_stmt hook hook_stmt).
Local Abbreviation vs := (visit_stmt hook hook_stmt).
Local Abbreviation vss := (visit_stmts hook hook_stmt).

Local Abbreviation answers e :=
  (forall st, exists e1 st1, gve e st = Ok (e1, st1) /\ st <= st1).
Local Abbreviation visit_answers e :=
  (forall st, exists e1 st1, ve e st = Ok (Some e1, st1) /\ st <= st1).

Lemma visit_answers_of_generic (e : ast.expr) : answers e -> visit_answers e.
Proof.
  intros He st. unfold visit_expr, ConstantFolding.generic_visit.
  destruct (He st) as (e1 & st1 & Hg & Hle).
  assert (Hd : default_visit_expr e (gve e) st = Ok (Some e1, st1)).
  { unfold default_visit_expr. run_with Hg. reflexivity. }
  destruct (in_set (expr_id e) constant_expressions); [|eauto].
  unfold try_except. pose proof (fold_outcome eval e st) as Ho.
  destruct (fold e st) as [[new st']| x |] eqn:Ef.
  - run_with Ef. destruct Ho as (v & _ & _ & Hle' & _).
    exists new, st'. split; [reflexivity | exact Hle'].
  - rewrite (bind_Raise _ _ _ _ Ef). eauto.
  - destruct Ho.
Qed.

Lemma visit_exprs_answers (l : list ast.expr) :
  Forall (fun e => answers e) l ->
  forall st, exists l1 st1, ves l st = Ok (l1, st1) /\ st <= st1.
Proof.
  induction 1 as [|e l He _ IH]; intros st; simpl.
  - exists [], st. split; [reflexivity | lia].
  - destruct (visit_answers_of_generic e He st) as (e1 & st1 & H1 & Hle1).
    destruct (IH st1) as (l1 & st2 & H2 & Hle2).
    run_with H1. run_with H2. exists (e1 :: l1), st2.
    split; [reflexivity | lia].
Qed.

Ltac answer_child He st :=
  let e1 := fresh "e1" in
  let st1 := fresh "st1" in
  let H1 := fresh "Hrun" in
  let Hle := fresh "Hle" in
  first [ destruct (visit_answers_of_generic _ He st) as (e1 & st1 & H1 & Hle)
        | destruct (visit_exprs_answers _ He st) as (e1 & st1 & H1 & Hle) ];
  run_with H1.

Ltac answered := eexists _, _; split; [reflexivity | lia].

Lemma generic_visit_expr_answers (e : ast.expr) : answers e.
Proof.
  induction e using expr_nested_ind; intros st; rewrite generic_visit_expr_eq.
  - exists (ast.Num i n), st. split; [reflexivity | lia].
  - exists (ast.Str i s), st. split; [reflexivity | lia].
  - exists (ast.Name i id c), st. split; [reflexivity | lia].
  - answer_child IHe st. answered.
  - answer_child IHe1 st. answer_child IHe2 st1. answered.
  - answer_child IHe st. answer_child H st1. answered.
  - answer_child H st. answered.
  - answer_child H st. answered.
  - answer_child H st. answered.
  - answer_child H st. answer_child H0 st1. answered.
  - answer_child IHe1 st. answer_child IHe2 st1. answered.
  - answer_child IHe st. answered.
  - exists (ast.Yield i None), st. split; [reflexivity | lia].
  - answer_child IHe st. answered.
Qed.

Lemma visit_expression_answers (e : ast.expr) : visit_answers e.
Proof. apply visit_answers_of_generic, generic_visit_expr_answers. Qed.

Lemma visit_expressions_answer (l : list ast.expr) (st : nat) :
  exists l1 st1, ves l st = Ok (l1, st1) /\ st <= st1.
Proof.
  apply visit_exprs_answers. apply List.Forall_forall.
  intros e _. apply generic_visit_expr_answers.
Qed.

(** On a statement the [try] block always raises: the statement is
    traversed by [Transformation.generic_visit]. *)
Lemma generic_visit_statement_default (s : ast.stmt) (gv : M nat ast.stmt) :
  hook_stmt s gv = default_visit_stmt s gv.
Proof.
  unfold ConstantFolding.generic_visit_statement.
  destruct (in_set (stmt_id s) constant_expressions); reflexivity.
Qed.

Local Abbreviation stmt_answers s :=
  (forall st, exists s1 st1, gvs s st = Ok (s1, st1) /\ st <= st1).

Lemma visit_stmts_answers (l : list ast.stmt) :
  Forall (fun s => stmt_answers s) l ->
  forall st, exists l1 st1, vss l st = Ok (l1, st1) /\ st <= st1.
Proof.
  induction 1 as [|s l Hs _ IH]; intros st; simpl.
  - exists [], st. split; [reflexivity | lia].
  - destruct (Hs st) as (s1 & st1 & H1 & Hle1).
    destruct (IH st1) as (l1 & st2 & H2 & Hle2).
    unfold visit_stmt. rewrite generic_visit_statement_default.
    assert (Hv : default_visit_stmt s (gvs s) st = Ok ([s1], st1)).
    { unfold default_visit_stmt. run_with H1. reflexivity. }
    run_with Hv. run_with H2.
    exists ([s1] ++ l1), st2. split; [reflexivity | lia].
Qed.

Ltac answer_expr e st :=
  let e1 := fresh "e1" in
  let st1 := fresh "st1" in
  let H1 := fresh "Hrun" in
  let Hle := fresh "Hle" in
  destruct (visit_expression_answers e st) as (e1 & st1 & H1 & Hle);
  run_with H1.

Ltac answer_exprs l st :=
  let l1 := fresh "l1" in
  let st1 := fresh "st1" in
  let H1 := fresh "Hrun" in
  let Hle := fresh "Hle" in
  destruct (visit_expressions_answer l st) as (l1 & st1 & H1 & Hle);
  run_with H1.

Ltac answer_stmts H st :=
  let l1 := fresh "l1" in
  let st1 := fresh "st1" in
  let H1 := fresh "Hrun" in
  let Hle := fresh "Hle" in
  destruct (visit_stmts_answers _ H st) as (l1 & st1 & H1 & Hle);
  run_with H1.

Lemma generic_visit_stmt_answers (s : ast.stmt) : stmt_answers s.
Proof.
  induction s using stmt_nested_ind; intros st; rewrite generic_visit_stmt_eq.
  - answer_exprs args st. answer_stmts H st1. answered.
  - destruct v as [v|]; [answer_expr v st|]; answered.
  - answer_exprs targets st. answer_expr v st1. answered.
  - answer_expr t st. answer_expr v st1. answered.
  - answer_exprs values st. answered.
  - answer_expr t st. answer_expr it st1. answer_stmts H st0.
    answer_stmts H0 st2. answered.
  - answer_expr t st. answer_stmts H st1. answer_stmts H0 st0. answered.
  - answer_expr t st. answer_stmts H st1. answer_stmts H0 st0. answered.
  - answer_expr v st. answered.
  - answered.
  - answered.
  - answered.
Qed.

Lemma visit_body_answers (l : list ast.stmt) (st : nat) :
  exists l1 st1, vss l st = Ok (l1, st1) /\ st <= st1.
Proof.
  apply visit_stmts_answers. apply List.Forall_forall.
  intros s _. apply generic_visit_stmt_answers.
Qed.

(** C7 (as the code has it).  A fold attempt that raises, at a node of the
    constant-expression set, is caught at that node: [generic_visit] then
    answers what [Transformation.generic_visit] answers for the node, that is
    the node itself with its children visited in turn (they may be folded).
    No exception leaves the pass: on every expression and every statement the
    visit answers a tree. *)
Theorem fold_failure_is_caught_at_the_node :
  (forall node e st,
     fold node st = Raise e ->
     ve node st = (n <- gve node ;; ret (Some n)) st) /\
  (forall node st, fold node st <> Malformed) /\
  (forall e st, exists e1 st1,
     ConstantFolding.visit_expression constant_expressions eval e st
     = Ok (Some e1, st1)) /\
  (forall s st, exists s1 st1,
     ConstantFolding.visit constant_expressions eval s st = Ok ([s1], st1)).
Proof.
  split; [|split; [|split]].
  - intros node e st Hf. unfold visit_expr, ConstantFolding.generic_visit.
    destruct (in_set (expr_id node) constant_expressions); [|reflexivity].
    unfold try_except. rewrite (bind_Raise _ _ _ _ Hf). reflexivity.
  - intros node st Hf. pose proof (fold_outcome eval node st) as Ho.
    rewrite Hf in Ho. exact Ho.
  - intros e st. destruct (visit_expression_answers e st) as (e1 & st1 & H & _).
    exists e1, st1. exact H.
  - intros s st. destruct (generic_visit_stmt_answers s st) as (s1 & st1 & H & _).
    exists s1, st1. unfold ConstantFolding.visit, visit_stmt.
    rewrite generic_visit_statement_default. unfold default_visit_stmt.
    run_with H. reflexivity.
Qed.

End ConstantFolding_traversal.

(** [(1 + 2) / 0]: the division raises, the node stays, and its left operand
    is folded: the subtree of the failed node is not left untouched. *)
Lemma fold_failure_changes_the_subtree :
  ConstantFolding.fold arith_eval CF_example.division 6
  = Raise (EvalError "ZeroDivisionError") /\
  ConstantFolding.visit_expression CF_example.constants arith_eval
    CF_example.division 6
  = Ok (Some (ast.BinOp 1 (ast.Num 6 (ast.PyInt 3)) ast.Div
                (ast.Num 7 (ast.PyInt 0))), 8) /\
  ast.BinOp 1 (ast.Num 6 (ast.PyInt 3)) ast.Div (ast.Num 7 (ast.PyInt 0))
  <> CF_example.division.
Proof.
  split; [vm_compute; reflexivity|].
  split; [vm_compute; reflexivity|]. discriminate.
Qed.

(** Taking apart an answer of [generic_visit]: the visits of the children,
    in order, and the rebuilt node. *)
Ltac invert_generic H :=
  first [ rewrite generic_visit_expr_eq in H
        | rewrite generic_visit_stmt_eq in H ];
  repeat (let c := fresh "c" in
          let s := fresh "s" in
          let Hv := fresh "Hvisit" in
          apply bind_inv in H; destruct H as (c & s & Hv & H);
          try apply field_inv in Hv);
  unfold ret in H; injection H as <- <-.

(** ** [ConstantFolding]: a second run changes nothing *)

Section ConstantFolding_idempotence.

Variable constant_expressions : gset nat.
Variable eval : ast.expr -> exn + value.

Local Abbreviation fold := (ConstantFolding.fold eval).
Local Abbreviation hook := (ConstantFolding.generic_visit constant_expressions eval).
Local Abbreviation hook_stmt :=
  (ConstantFolding.generic_visit_statement constant_expressions).
Local Abbreviation gve := (generic_visit_expr hook).
Local Abbreviation ve := (visit_expr hook).
Local Abbreviation ves := (visit_exprs hook).
Local Abbreviation gvs := (generic_visit_stmt hook hook_stmt).
Local Abbreviation vs := (visit_stmt hook hook_stmt).
Local Abbreviation vss := (visit_stmts hook hook_stmt).

(** No node of the tree is in the constant-expression set. *)
Local Abbreviation unflagged e :=
  (Forall (fun i => i ∉ constant_expressions) (expr_ids e)).

Lemma visit_unflagged (e : ast.expr) (st : nat) :
  expr_id e ∉ constant_expressions ->
  gve e st = Ok (e, st) -> ve e st = Ok (Some e, st).
Proof.
  intros Hid Hg. unfold visit_expr, ConstantFolding.generic_visit, in_set.
  rewrite bool_decide_eq_false_2 by exact Hid.
  unfold default_visit_expr. run_with Hg. reflexivity.
Qed.

Lemma expr_ids_head (e : ast.expr) : exists rest, expr_ids e = expr_id e :: rest.
Proof. destruct e as [| | | | | | | | | | | |i [v|]]; simpl; eauto. Qed.

Lemma unflagged_head (e : ast.expr) :
  unflagged e -> expr_id e ∉ constant_expressions.
Proof.
  destruct (expr_ids_head e) as (rest & ->). intros H.
  inversion H; subst; assumption.
Qed.

Lemma visit_exprs_unflagged (l : list ast.expr) :
  Forall (fun e => unflagged e -> forall st, gve e st = Ok (e, st)) l ->
  Forall (fun i => i ∉ constant_expressions) (flat_map expr_ids l) ->
  forall st, ves l st = Ok (l, st).
Proof.
  induction 1 as [|e l He _ IH]; intros Hids st; simpl; [reflexivity|].
  simpl in Hids. apply Forall_app in Hids. destruct Hids as [H1 H2].
  rewrite (bind_Ok _ _ _ _ _
             (visit_unflagged e st (unflagged_head e H1) (He H1 st))).
  rewrite (bind_Ok _ _ _ _ _ (IH H2 st)). reflexivity.
Qed.

Ltac split_ids H :=
  repeat match type of H with
         | Forall _ (_ :: _) =>
             let Hh := fresh "Hhead" in
             apply List.Forall_cons_iff in H; destruct H as [Hh H]
         | Forall _ (_ ++ _) =>
             let Hl := fresh "Hids" in
             apply Forall_app in H; destruct H as [Hl H]
         end.

Ltac rerun_child IH Hids st :=
  first [ rewrite (bind_Ok _ _ _ _ _
                     (field_Ok _ _ _ _
                        (visit_unflagged _ st (unflagged_head _ Hids) (IH Hids st))))
        | rewrite (bind_Ok _ _ _ _ _ (visit_exprs_unflagged _ IH Hids st)) ].

(** A tree none of whose nodes is flagged is returned as it is. *)
Lemma generic_visit_unflagged (e : ast.expr) :
  unflagged e -> forall st, gve e st = Ok (e, st).
Proof.
  induction e using expr_nested_ind; intros Hids st;
    rewrite generic_visit_expr_eq; try reflexivity; cbn [expr_ids] in Hids;
    split_ids Hids.
  - rerun_child IHe Hids st. reflexivity.
  - rerun_child IHe1 Hids0 st. rerun_child IHe2 Hids st. reflexivity.
  - rerun_child IHe Hids0 st. rerun_child H Hids st. reflexivity.
  - rerun_child H Hids st. reflexivity.
  - rerun_child H Hids st. reflexivity.
  - rerun_child H Hids st. reflexivity.
  - rerun_child H Hids0 st. rerun_child H0 Hids st. reflexivity.
  - rerun_child IHe1 Hids0 st. rerun_child IHe2 Hids st. reflexivity.
  - rerun_child IHe Hids st. reflexivity.
  - rerun_child IHe Hids st. reflexivity.
Qed.

Lemma visit_expression_unflagged (e : ast.expr) (st : nat) :
  unflagged e -> ve e st = Ok (Some e, st).
Proof.
  intros H. apply visit_unflagged; [apply unflagged_head, H|].
  apply generic_visit_unflagged, H.
Qed.

(** The identities of the constant-expression set are all older than the
    identities the pass hands out from [st] on. *)
Local Abbreviation older_than st :=
  (forall i, i ∈ constant_expressions -> i < st).

(** Evaluating a visited tree answers what evaluating the tree answered. *)
Hypothesis folding_sound :
  forall e st e' st', ve e st = Ok (Some e', st') -> eval e' = eval e.

Lemma visit_expression_grows (e : ast.expr) (st : nat) r st1 :
  ve e st = Ok (r, st1) -> st <= st1 /\ exists e1, r = Some e1.
Proof.
  intros H.
  destruct (visit_expression_answers constant_expressions eval e st)
    as (e1 & st1' & H1 & Hle).
  rewrite H1 in H. injection H as <- <-. eauto.
Qed.

Lemma visit_expressions_grow (l : list ast.expr) (st : nat) l1 st1 :
  ves l st = Ok (l1, st1) -> st <= st1.
Proof.
  intros H.
  destruct (visit_expressions_answer constant_expressions eval l st)
    as (l1' & st1' & H1 & Hle).
  rewrite H1 in H. injection H as <- <-. exact Hle.
Qed.

Lemma generic_visit_same_head (e : ast.expr) (st : nat) e1 st1 :
  gve e st = Ok (e1, st1) ->
  expr_id e1 = expr_id e /\
  ConstantFolding.isinstance_Index e1 = ConstantFolding.isinstance_Index e.
Proof.
  intros H. destruct e as [| | | | | | | | | | | |i [v|]];
    invert_generic H; split; reflexivity.
Qed.

Lemma evaluated_stable (e : ast.expr) (st : nat) e1 st1 :
  gve e st = Ok (e1, st1) -> ve e st = Ok (Some e1, st1) ->
  eval (ConstantFolding.evaluated e1) = eval (ConstantFolding.evaluated e).
Proof.
  intros H Hve. destruct e as [| | | | | | | | | | | |i [v|]];
    invert_generic H; simpl;
    first [ exact (folding_sound _ _ _ _ Hve)
          | exact (folding_sound _ _ _ _ Hvisit) ].
Qed.

(** A fold attempt that raised raises again on a tree that evaluates to the
    same: neither the exception of [eval] nor the refusal of [to_ast] depends
    on the state. *)
Lemma fold_raises_again (e e1 : ast.expr) (st st2 : nat) x :
  fold e st = Raise x ->
  eval (ConstantFolding.evaluated e1) = eval (ConstantFolding.evaluated e) ->
  exists x', fold e1 st2 = Raise x'.
Proof.
  intros Hf Hev. pose proof (fold_outcome eval e st) as Ho. rewrite Hf in Ho.
  unfold ConstantFolding.fold. rewrite Hev.
  destruct Ho as [Hx | (v & Hv & _ & Hc)].
  - rewrite Hx. exists x. reflexivity.
  - rewrite Hv. unfold lift. rewrite (bind_Ok (ret v) _ st2 v st2 eq_refl).
    pose proof (to_ast_total v st2) as Ht. unfold to_ast_answer in Ht.
    rewrite Hc in Ht. exists ConversionError. apply bind_Raise. exact Ht.
Qed.

Local Abbreviation generic_settles e :=
  (forall st e1 st1, gve e st = Ok (e1, st1) -> older_than st ->
                     forall st2, gve e1 st2 = Ok (e1, st2)).
Local Abbreviation visit_settles e :=
  (forall st e1 st1, ve e st = Ok (Some e1, st1) -> older_than st ->
                     forall st2, ve e1 st2 = Ok (Some e1, st2)).

Lemma visit_settles_of_generic (e : ast.expr) :
  generic_settles e -> visit_settles e.
Proof.
  intros Hg st e1 st1 Hv Hold st2.
  pose proof Hv as Hv0.
  unfold visit_expr, ConstantFolding.generic_visit, in_set in Hv.
  destruct (decide (expr_id e ∈ constant_expressions)) as [Hin|Hout].
  - rewrite bool_decide_eq_true_2 in Hv by exact Hin.
    unfold try_except in Hv. pose proof (fold_outcome eval e st) as Ho.
    destruct (fold e st) as [[new st']| x |] eqn:Ef; [| |destruct Ho].
    + rewrite (bind_Ok _ _ _ _ _ Ef) in Hv. injection Hv as <- <-.
      destruct Ho as (v & _ & _ & _ & _ & Hids).
      apply visit_expression_unflagged.
      eapply List.Forall_impl; [|exact Hids]. simpl.
      intros i Hi Hin'. specialize (Hold i Hin'). lia.
    + rewrite (bind_Raise _ _ _ _ Ef) in Hv. unfold default_visit_expr in Hv.
      bind_inversion Hv. injection Hv as <- <-.
      destruct (generic_visit_same_head e st a s Hstep) as [Hid Hidx].
      destruct (fold_raises_again e a st st2 x Ef
                  (evaluated_stable e st a s Hstep Hv0)) as (x' & Hf2).
      unfold visit_expr, ConstantFolding.generic_visit, in_set.
      rewrite Hid. rewrite bool_decide_eq_true_2 by exact Hin.
      unfold try_except. rewrite (bind_Raise _ _ _ _ Hf2).
      unfold default_visit_expr. rewrite (bind_Ok _ _ _ _ _ (Hg _ _ _ Hstep Hold st2)).
      reflexivity.
  - rewrite bool_decide_eq_false_2 in Hv by exact Hout.
    unfold default_visit_expr in Hv. bind_inversion Hv. injection Hv as <- <-.
    destruct (generic_visit_same_head e st a s Hstep) as [Hid _].
    apply visit_unflagged; [rewrite Hid; exact Hout|].
    exact (Hg _ _ _ Hstep Hold st2).
Qed.

Lemma visit_exprs_settle (l : list ast.expr) :
  Forall (fun e => generic_settles e) l ->
  forall st l1 st1, ves l st = Ok (l1, st1) -> older_than st ->
                    forall st2, ves l1 st2 = Ok (l1, st2).
Proof.
  induction 1 as [|e l He _ IH]; intros st l1 st1 H Hold st2; simpl in H.
  - injection H as <- <-. reflexivity.
  - bind_inversion H. bind_inversion H. injection H as <- <-.
    destruct (visit_expression_grows _ _ _ _ Hstep) as (Hle & e1 & ->).
    assert (Hold' : older_than s).
    { intros i Hi. specialize (Hold i Hi). lia. }
    simpl.
    rewrite (bind_Ok _ _ _ _ _
               (visit_settles_of_generic e He _ _ _ Hstep Hold st2)).
    rewrite (bind_Ok _ _ _ _ _ (IH _ _ _ Hstep0 Hold' st2)). reflexivity.
Qed.

Ltac settle_child IH Hv Hold st2 :=
  first [ rewrite (bind_Ok _ _ _ _ _
                     (field_Ok _ _ _ _
                        (visit_settles_of_generic _ IH _ _ _ Hv Hold st2)))
        | rewrite (bind_Ok _ _ _ _ _ (visit_exprs_settle _ IH _ _ _ Hv Hold st2)) ].

Ltac still_older Hv Hold :=
  let j := fresh "j" in
  let Hj := fresh "Hj" in
  intros j Hj; specialize (Hold j Hj);
  first [ pose proof (proj1 (visit_expression_grows _ _ _ _ Hv))
        | pose proof (visit_expressions_grow _ _ _ _ Hv) ];
  lia.

(** What [Transformation.generic_visit] returned is returned as it is by a
    second run. *)
Lemma generic_visit_settles (e : ast.expr) : generic_settles e.
Proof.
  induction e as [i n|i s|i id c|i v a c IHv|i l o r IHl IHr
                 |i f args IHf IHargs|i elts c IH|i elts c IH|i elts IH
                 |i ks vs IHk IHv|i v sl c IHv IHsl|i v IHv|i|i v IHv]
    using expr_nested_ind; intros st out st1 Hg Hold st2;
    invert_generic Hg; try reflexivity; rewrite generic_visit_expr_eq.
  - settle_child IHv Hvisit Hold st2. reflexivity.
  - assert (Hold1 : older_than s) by still_older Hvisit Hold.
    settle_child IHl Hvisit Hold st2. settle_child IHr Hvisit0 Hold1 st2.
    reflexivity.
  - assert (Hold1 : older_than s) by still_older Hvisit Hold.
    settle_child IHf Hvisit Hold st2. settle_child IHargs Hvisit0 Hold1 st2.
    reflexivity.
  - settle_child IH Hvisit Hold st2. reflexivity.
  - settle_child IH Hvisit Hold st2. reflexivity.
  - settle_child IH Hvisit Hold st2. reflexivity.
  - assert (Hold1 : older_than s) by still_older Hvisit Hold.
    settle_child IHk Hvisit Hold st2. settle_child IHv Hvisit0 Hold1 st2.
    reflexivity.
  - assert (Hold1 : older_than s) by still_older Hvisit Hold.
    settle_child IHv Hvisit Hold st2. settle_child IHsl Hvisit0 Hold1 st2.
    reflexivity.
  - settle_child IHv Hvisit Hold st2. reflexivity.
  - settle_child IHv Hvisit Hold st2. reflexivity.
Qed.

Lemma visit_expression_settles (e : ast.expr) : visit_settles e.
Proof. apply visit_settles_of_generic, generic_visit_settles. Qed.

Lemma visit_expressions_settle (l : list ast.expr) (st : nat) l1 st1 :
  ves l st = Ok (l1, st1) -> older_than st ->
  forall st2, ves l1 st2 = Ok (l1, st2).
Proof.
  apply visit_exprs_settle. apply List.Forall_forall.
  intros e _. apply generic_visit_settles.
Qed.

Lemma visit_body_grows (l : list ast.stmt) (st : nat) l1 st1 :
  vss l st = Ok (l1, st1) -> st <= st1.
Proof.
  intros H.
  destruct (visit_body_answers constant_expressions eval l st)
    as (l1' & st1' & H1 & Hle).
  rewrite H1 in H. injection H as <- <-. exact Hle.
Qed.

Lemma generic_visit_stmt_grows (s : ast.stmt) (st : nat) s1 st1 :
  gvs s st = Ok (s1, st1) -> st <= st1.
Proof.
  intros H.
  destruct (generic_visit_stmt_answers constant_expressions eval s st)
    as (s1' & st1' & H1 & Hle).
  rewrite H1 in H. injection H as <- <-. exact Hle.
Qed.

Local Abbreviation stmt_settles s :=
  (forall st s1 st1, gvs s st = Ok (s1, st1) -> older_than st ->
                     forall st2, gvs s1 st2 = Ok (s1, st2)).

Lemma visit_stmts_settle (l : list ast.stmt) :
  Forall (fun s => stmt_settles s) l ->
  forall st l1 st1, vss l st = Ok (l1, st1) -> older_than st ->
                    forall st2, vss l1 st2 = Ok (l1, st2).
Proof.
  induction 1 as [|s l Hs _ IH]; intros st l1 st1 H Hold st2; simpl in H.
  - injection H as <- <-. reflexivity.
  - bind_inversion H. bind_inversion H. injection H as <- <-.
    unfold visit_stmt in Hstep.
    rewrite generic_visit_statement_default in Hstep.
    unfold default_visit_stmt in Hstep. bind_inversion Hstep.
    injection Hstep as <- <-.
    assert (Hold' : older_than s2).
    { intros j Hj. specialize (Hold j Hj).
      pose proof (generic_visit_stmt_grows _ _ _ _ Hstep1). lia. }
    simpl. unfold visit_stmt. rewrite generic_visit_statement_default.
    unfold default_visit_stmt.
    rewrite (bind_Ok _ _ _ _ _
               (bind_Ok _ (fun n => ret [n]) _ _ _ (Hs _ _ _ Hstep1 Hold st2))).
    unfold ret at 1.
    rewrite (bind_Ok _ _ _ _ _ (IH _ _ _ Hstep0 Hold' st2)). reflexivity.
Qed.

Ltac settle_part IH Hv Hold st2 :=
  first [ rewrite (bind_Ok _ _ _ _ _
                     (field_Ok _ _ _ _
                        (visit_expression_settles _ _ _ _ Hv Hold st2)))
        | rewrite (bind_Ok _ _ _ _ _
                     (visit_expressions_settle _ _ _ _ Hv Hold st2))
        | rewrite (bind_Ok _ _ _ _ _ (visit_stmts_settle _ IH _ _ _ Hv Hold st2)) ].

Ltac older_after Hv Hold :=
  let j := fresh "j" in
  let Hj := fresh "Hj" in
  intros j Hj; specialize (Hold j Hj);
  first [ pose proof (proj1 (visit_expression_grows _ _ _ _ Hv))
        | pose proof (visit_expressions_grow _ _ _ _ Hv)
        | pose proof (visit_body_grows _ _ _ _ Hv) ];
  lia.

Lemma generic_visit_stmt_settles (s : ast.stmt) : stmt_settles s.
Proof.
  induction s as [i name args body IH|i v|i targets v|i t o v|i values
                 |i t it body orelse IHb IHo|i t body orelse IHb IHo
                 |i t body orelse IHb IHo|i v|i|i|i]
    using stmt_nested_ind; intros st out st1 Hg Hold st2;
    try destruct v as [v|];
    invert_generic Hg; try reflexivity; rewrite generic_visit_stmt_eq.
  - assert (Hold1 : older_than s) by older_after Hvisit Hold.
    settle_part IH Hvisit Hold st2. settle_part IH Hvisit0 Hold1 st2.
    reflexivity.
  - settle_part I Hvisit Hold st2. reflexivity.
  - assert (Hold1 : older_than s) by older_after Hvisit Hold.
    settle_part I Hvisit Hold st2. settle_part I Hvisit0 Hold1 st2.
    reflexivity.
  - assert (Hold1 : older_than s) by older_after Hvisit Hold.
    settle_part I Hvisit Hold st2. settle_part I Hvisit0 Hold1 st2.
    reflexivity.
  - settle_part I Hvisit Hold st2. reflexivity.
  - assert (Hold1 : older_than s) by older_after Hvisit Hold.
    assert (Hold2 : older_than s0) by older_after Hvisit0 Hold1.
    assert (Hold3 : older_than s1) by older_after Hvisit1 Hold2.
    settle_part I Hvisit Hold st2. settle_part I Hvisit0 Hold1 st2.
    settle_part IHb Hvisit1 Hold2 st2. settle_part IHo Hvisit2 Hold3 st2.
    reflexivity.
  - assert (Hold1 : older_than s) by older_after Hvisit Hold.
    assert (Hold2 : older_than s0) by older_after Hvisit0 Hold1.
    settle_part I Hvisit Hold st2. settle_part IHb Hvisit0 Hold1 st2.
    settle_part IHo Hvisit1 Hold2 st2. reflexivity.
  - assert (Hold1 : older_than s) by older_after Hvisit Hold.
    assert (Hold2 : older_than s0) by older_after Hvisit0 Hold1.
    settle_part I Hvisit Hold st2. settle_part IHb Hvisit0 Hold1 st2.
    settle_part IHo Hvisit1 Hold2 st2. reflexivity.
  - settle_part I Hvisit Hold st2. reflexivity.
Qed.

(** C8.  Constant folding is idempotent.  The pass is run on a tree [T]
    with identities handed out from [st], every node of the
    constant-expression set being older than [st]; evaluation is assumed to
    answer on a visited tree what it answered on the tree
    ([folding_sound]).  Then the pass answers a tree [T1], running it again
    on [T1] answers [T1] and creates no node, and so does a visit of every
    expression; the nodes a fold creates are not in the constant-expression
    set. *)
Theorem ConstantFolding_idempotent (st : nat) :
  older_than st ->
  (forall T, exists T1 st1,
     ConstantFolding.visit_body constant_expressions eval T st = Ok (T1, st1) /\
     ConstantFolding.visit_body constant_expressions eval T1 st1 = Ok (T1, st1)) /\
  (forall e, exists e1 st1,
     ConstantFolding.visit_expression constant_expressions eval e st
     = Ok (Some e1, st1) /\
     ConstantFolding.visit_expression constant_expressions eval e1 st1
     = Ok (Some e1, st1)) /\
  (forall node new_node st1,
     fold node st = Ok (new_node, st1) ->
     Forall (fun i => i ∉ constant_expressions) (expr_ids new_node)).
Proof.
  intros Hold. split; [|split].
  - intros T.
    destruct (visit_body_answers constant_expressions eval T st)
      as (T1 & st1 & H & _).
    exists T1, st1. split; [exact H|].
    unfold ConstantFolding.visit_body in *.
    apply (visit_stmts_settle T) with (st := st) (st1 := st1); auto.
    apply List.Forall_forall. intros s _. apply generic_visit_stmt_settles.
  - intros e.
    destruct (visit_expression_answers constant_expressions eval e st)
      as (e1 & st1 & H & _).
    exists e1, st1. split; [exact H|].
    exact (visit_expression_settles e st e1 st1 H Hold st1).
  - intros node new_node st1 H. pose proof (fold_outcome eval node st) as Ho.
    rewrite H in Ho. destruct Ho as (v & _ & _ & _ & _ & Hids).
    eapply List.Forall_impl; [|exact Hids]. simpl.
    intros i Hi Hin. specialize (Hold i Hin). lia.
Qed.

End ConstantFolding_idempotence.

(** ** The interpreter [arith_eval] satisfies the assumption of C8 *)

Lemma arith_eval_number (e : ast.expr) (v : value) :
  arith_eval e = inr v -> exists n, v = PyNum n.
Proof.
  destruct e; simpl; try discriminate.
  - intros H. injection H as <-. eauto.
  - destruct (arith_eval e1) as [x|[[za|?|?|?]|?|?|?|?|?|? ?|?]];
      destruct (arith_eval e2) as [y|[[zb|?|?|?]|?|?|?|?|?|? ?|?]];
      try discriminate.
    destruct op; try discriminate.
    + intros H. injection H as <-. eauto.
    + destruct (Z.eqb zb 0); [discriminate|]. intros H. injection H as <-. eauto.
Qed.

Lemma fold_arith_eval (e : ast.expr) (st : nat) new st' :
  ConstantFolding.fold arith_eval e st = Ok (new, st') ->
  arith_eval new = arith_eval e.
Proof.
  intros H. unfold ConstantFolding.fold in H. bind_inversion H.
  destruct (arith_eval (ConstantFolding.evaluated e)) as [x|v] eqn:E;
    [discriminate|].
  injection Hstep as <- <-. destruct (arith_eval_number _ _ E) as (n & ->).
  bind_inversion H. injection Hstep as <- <-.
  destruct e; simpl in H, E; injection H as <- <-;
    first [ symmetry; exact E | reflexivity ].
Qed.

Section arith_eval_sound.

Variable constant_expressions : gset nat.

Local Abbreviation hook :=
  (ConstantFolding.generic_visit constant_expressions arith_eval).
Local Abbreviation gve := (generic_visit_expr hook).
Local Abbreviation ve := (visit_expr hook).

Lemma arith_eval_visit_of_generic (e : ast.expr) :
  (forall st e' st', gve e st = Ok (e', st') -> arith_eval e' = arith_eval e) ->
  forall st e' st', ve e st = Ok (Some e', st') -> arith_eval e' = arith_eval e.
Proof.
  intros Hg st e' st' H. unfold visit_expr, ConstantFolding.generic_visit in H.
  assert (Hd : default_visit_expr e (gve e) st = Ok (Some e', st') ->
               arith_eval e' = arith_eval e).
  { unfold default_visit_expr. intros Hd. bind_inversion Hd.
    injection Hd as <- <-. eapply Hg, Hstep. }
  destruct (in_set (expr_id e) constant_expressions); [|auto].
  unfold try_except in H.
  destruct (ConstantFolding.fold arith_eval e st) as [[new st1]| x |] eqn:Ef.
  - rewrite (bind_Ok _ _ _ _ _ Ef) in H. injection H as <- <-.
    eapply fold_arith_eval, Ef.
  - rewrite (bind_Raise _ _ _ _ Ef) in H. auto.
  - unfold bind in H. rewrite Ef in H. discriminate.
Qed.

Lemma arith_eval_generic (e : ast.expr) :
  forall st e' st', gve e st = Ok (e', st') -> arith_eval e' = arith_eval e.
Proof.
  induction e as [i n|i s|i id c|i v a c IHv|i l o r IHl IHr
                 |i f args IHf IHargs|i elts c IH|i elts c IH|i elts IH
                 |i ks vs IHk IHv|i v sl c IHv IHsl|i v IHv|i|i v IHv]
    using expr_nested_ind; intros st out st1 Hg;
    invert_generic Hg; try reflexivity.
  simpl.
  rewrite (arith_eval_visit_of_generic l IHl _ _ _ Hvisit).
  rewrite (arith_eval_visit_of_generic r IHr _ _ _ Hvisit0).
  reflexivity.
Qed.

Lemma arith_eval_sound (e : ast.expr) (st : nat) e' st' :
  ve e st = Ok (Some e', st') -> arith_eval e' = arith_eval e.
Proof. apply arith_eval_visit_of_generic, arith_eval_generic. Qed.

End arith_eval_sound.

(** [def foo(): return 1+3] folds to [def foo(): return 4], and a second run
    leaves that tree as it is. *)
Lemma ConstantFolding_idempotent_witness :
  exists T1 st1,
    ConstantFolding.visit_body CF_example.foo_constants arith_eval
      [CF_example.foo] 20 = Ok (T1, st1) /\
    ConstantFolding.visit_body CF_example.foo_constants arith_eval T1 st1
    = Ok (T1, st1).
Proof.
  assert (Hold : forall i, i ∈ CF_example.foo_constants -> i < 20).
  { intros i Hi. unfold CF_example.foo_constants in Hi. set_unfold. lia. }
  exact (proj1 (ConstantFolding_idempotent CF_example.foo_constants arith_eval
                  (arith_eval_sound CF_example.foo_constants) 20 Hold)
           [CF_example.foo]).
Defined.

Example ConstantFolding_doctest :
  ConstantFolding.visit CF_example.foo_constants arith_eval CF_example.foo 20
  = Ok ([ast.FunctionDef 10 "foo" []
           [ast.Return 11 (Some (ast.Num 20 (ast.PyInt 4)))]], 21).
Proof. vm_compute. reflexivity. Qed.

(** ** [copy.deepcopy] *)

Lemma copy_expr_eq (e : ast.expr) :
  copy_expr e =
  match e with
  | ast.Num i n => j <- copy_id i ;; ret (ast.Num j n)
  | ast.Str i s => j <- copy_id i ;; ret (ast.Str j s)
  | ast.Name i id c => j <- copy_id i ;; ret (ast.Name j id c)
  | ast.Attribute i v a c =>
      j <- copy_id i ;; v' <- copy_expr v ;; ret (ast.Attribute j v' a c)
  | ast.BinOp i l o r =>
      j <- copy_id i ;; l' <- copy_expr l ;; r' <- copy_expr r ;;
      ret (ast.BinOp j l' o r')
  | ast.Call i f args =>
      j <- copy_id i ;; f' <- copy_expr f ;; args' <- copy_exprs args ;;
      ret (ast.Call j f' args')
  | ast.List i elts c =>
      j <- copy_id i ;; elts' <- copy_exprs elts ;; ret (ast.List j elts' c)
  | ast.Tuple i elts c =>
      j <- copy_id i ;; elts' <- copy_exprs elts ;; ret (ast.Tuple j elts' c)
  | ast.Set_ i elts =>
      j <- copy_id i ;; elts' <- copy_exprs elts ;; ret (ast.Set_ j elts')
  | ast.Dict i ks vs =>
      j <- copy_id i ;; ks' <- copy_exprs ks ;; vs' <- copy_exprs vs ;;
      ret (ast.Dict j ks' vs')
  | ast.Subscript i v sl c =>
      j <- copy_id i ;; v' <- copy_expr v ;; sl' <- copy_expr sl ;;
      ret (ast.Subscript j v' sl' c)
  | ast.Index i v => j <- copy_id i ;; v' <- copy_expr v ;; ret (ast.Index j v')
  | ast.Yield i None => j <- copy_id i ;; ret (ast.Yield j None)
  | ast.Yield i (Some v) =>
      j <- copy_id i ;; v' <- copy_expr v ;; ret (ast.Yield j (Some v'))
  end.
Proof. destruct e as [| | | | | | | | | | | |i [v|]]; reflexivity. Qed.

Lemma copy_stmt_eq (s : ast.stmt) :
  copy_stmt s =
  match s with
  | ast.FunctionDef i name args body =>
      j <- copy_id i ;; args' <- copy_exprs args ;; body' <- copy_stmts body ;;
      ret (ast.FunctionDef j name args' body')
  | ast.Return i None => j <- copy_id i ;; ret (ast.Return j None)
  | ast.Return i (Some v) =>
      j <- copy_id i ;; v' <- copy_expr v ;; ret (ast.Return j (Some v'))
  | ast.Assign i targets v =>
      j <- copy_id i ;; targets' <- copy_exprs targets ;; v' <- copy_expr v ;;
      ret (ast.Assign j targets' v')
  | ast.AugAssign i t o v =>
      j <- copy_id i ;; t' <- copy_expr t ;; v' <- copy_expr v ;;
      ret (ast.AugAssign j t' o v')
  | ast.Print i values =>
      j <- copy_id i ;; values' <- copy_exprs values ;; ret (ast.Print j values')
  | ast.For i t it body orelse =>
      j <- copy_id i ;; t' <- copy_expr t ;; it' <- copy_expr it ;;
      body' <- copy_stmts body ;; orelse' <- copy_stmts orelse ;;
      ret (ast.For j t' it' body' orelse')
  | ast.While i t body orelse =>
      j <- copy_id i ;; t' <- copy_expr t ;;
      body' <- copy_stmts body ;; orelse' <- copy_stmts orelse ;;
      ret (ast.While j t' body' orelse')
  | ast.If i t body orelse =>
      j <- copy_id i ;; t' <- copy_expr t ;;
      body' <- copy_stmts body ;; orelse' <- copy_stmts orelse ;;
      ret (ast.If j t' body' orelse')
  | ast.Expr i v => j <- copy_id i ;; v' <- copy_expr v ;; ret (ast.Expr j v')
  | ast.Pass i => j <- copy_id i ;; ret (ast.Pass j)
  | ast.Break i => j <- copy_id i ;; ret (ast.Break j)
  | ast.Continue i => j <- copy_id i ;; ret (ast.Continue j)
  end.
Proof. destruct s as [|i [v|]| | | | | | | | | |]; reflexivity. Qed.


Lemma copy_id_made (st0 i : nat) (s : nat * memo) :
  memo_made_since st0 s ->
  exists j s', copy_id i s = Ok (j, s') /\ memo_made_since st0 s' /\
               fst s <= fst s' /\ st0 <= j < fst s'.
Proof.
  destruct s as [next m]. intros [Hle Hm]. simpl in *. unfold copy_id.
  destruct (m !! i) as [j|] eqn:E.
  - exists j, (next, m). split; [reflexivity|]. split; [split; assumption|].
    split; [simpl; lia|]. apply (Hm _ _ E).
  - exists next, (S next, <[i := next]> m). split; [reflexivity|].
    split; [|simpl; lia]. split; [simpl; lia|]. simpl. intros i' j' H.
    destruct (decide (i = i')) as [->|Hne].
    + rewrite lookup_insert_eq in H. injection H as <-. lia.
    + rewrite lookup_insert_ne in H by exact Hne. specialize (Hm _ _ H). lia.
Qed.


Lemma copy_exprs_copies (l : list ast.expr) :
  Forall (copies copy_expr erase_expr expr_ids) l ->
  copies copy_exprs (map erase_expr) (flat_map expr_ids) l.
Proof.
  induction 1 as [|e l He _ IH]; intros st0 s Hs; simpl.
  - exists [], s. split; [reflexivity|]. split; [exact Hs|]. split; [lia|].
    split; [reflexivity | constructor].
  - destruct (He st0 s Hs) as (e' & s1 & H1 & Hs1 & Hle1 & Her1 & Hids1).
    destruct (IH st0 s1 Hs1) as (l' & s2 & H2 & Hs2 & Hle2 & Her2 & Hids2).
    run_with H1. run_with H2. exists (e' :: l'), s2.
    split; [reflexivity|]. split; [exact Hs2|]. split; [lia|].
    split; [simpl; congruence|]. simpl. apply Forall_app. split; [|exact Hids2].
    eapply Forall_range_weaken; [| |exact Hids1]; lia.
Qed.

Ltac copy_step H st0 :=
  match goal with
  | Hs : memo_made_since st0 ?s |- context [bind (copy_id ?i) _ ?s] =>
      let j := fresh "j" in
      let s' := fresh "s" in
      let Hrun := fresh "Hrun" in
      let Hs' := fresh "Hs" in
      let Hle := fresh "Hle" in
      let Hj := fresh "Hj" in
      destruct (copy_id_made st0 i s Hs) as (j & s' & Hrun & Hs' & Hle & Hj);
      run_with Hrun; clear Hs
  | Hs : memo_made_since st0 ?s |- context [bind _ _ ?s] =>
      let x := fresh "x" in
      let s' := fresh "s" in
      let Hrun := fresh "Hrun" in
      let Hs' := fresh "Hs" in
      let Hle := fresh "Hle" in
      let Her := fresh "Her" in
      let Hids := fresh "Hids" in
      destruct (H st0 s Hs) as (x & s' & Hrun & Hs' & Hle & Her & Hids);
      run_with Hrun; clear Hs
  end.

Ltac copied :=
  eexists _, _; split; [reflexivity|]; split; [eassumption|];
  split; [lia|]; split; [simpl; congruence|];
  simpl;
  repeat first [ apply List.Forall_cons
               | apply List.Forall_nil
               | apply Forall_app; split ];
  try lia;
  try (eapply Forall_range_weaken; [| |eassumption]; lia).

Lemma copy_expr_copies (e : ast.expr) : copies copy_expr erase_expr expr_ids e.
Proof.
  induction e as [i n|i s|i id c|i v a c IHv|i l o r IHl IHr
                 |i f args IHf IHargs|i elts c IH|i elts c IH|i elts IH
                 |i ks vs IHk IHv|i v sl c IHv IHsl|i v IHv|i|i v IHv]
    using expr_nested_ind; intros st0 s0 Hs0; rewrite copy_expr_eq;
    try (apply copy_exprs_copies in IH);
    try (apply copy_exprs_copies in IHargs);
    try (apply copy_exprs_copies in IHk).
  - copy_step I st0. copied.
  - copy_step I st0. copied.
  - copy_step I st0. copied.
  - copy_step I st0. copy_step IHv st0. copied.
  - copy_step I st0. copy_step IHl st0. copy_step IHr st0. copied.
  - copy_step I st0. copy_step IHf st0. copy_step IHargs st0. copied.
  - copy_step I st0. copy_step IH st0. copied.
  - copy_step I st0. copy_step IH st0. copied.
  - copy_step I st0. copy_step IH st0. copied.
  - apply copy_exprs_copies in IHv.
    copy_step I st0. copy_step IHk st0. copy_step IHv st0. copied.
  - copy_step I st0. copy_step IHv st0. copy_step IHsl st0. copied.
  - copy_step I st0. copy_step IHv st0. copied.
  - copy_step I st0. copied.
  - copy_step I st0. copy_step IHv st0. copied.
Qed.

Lemma copy_exprs_all (l : list ast.expr) :
  copies copy_exprs (map erase_expr) (flat_map expr_ids) l.
Proof.
  apply copy_exprs_copies, List.Forall_forall. intros e _.
  apply copy_expr_copies.
Qed.

Lemma copy_stmts_copies (l : list ast.stmt) :
  Forall (copies copy_stmt erase_stmt stmt_ids) l ->
  copies copy_stmts (map erase_stmt) (flat_map stmt_ids) l.
Proof.
  induction 1 as [|x l Hx _ IH]; intros st0 s Hs; simpl.
  - exists [], s. split; [reflexivity|]. split; [exact Hs|]. split; [lia|].
    split; [reflexivity | constructor].
  - destruct (Hx st0 s Hs) as (x' & s1 & H1 & Hs1 & Hle1 & Her1 & Hids1).
    destruct (IH st0 s1 Hs1) as (l' & s2 & H2 & Hs2 & Hle2 & Her2 & Hids2).
    run_with H1. run_with H2. exists (x' :: l'), s2.
    split; [reflexivity|]. split; [exact Hs2|]. split; [lia|].
    split; [simpl; congruence|]. simpl. apply Forall_app. split; [|exact Hids2].
    eapply Forall_range_weaken; [| |exact Hids1]; lia.
Qed.

Lemma copy_stmt_copies (s : ast.stmt) : copies copy_stmt erase_stmt stmt_ids s.
Proof.
  pose proof copy_expr_copies as He. pose proof copy_exprs_all as Hes.
  induction s as [i name args body IH|i v|i targets v|i t o v|i values
                 |i t it body orelse IHb IHo|i t body orelse IHb IHo
                 |i t body orelse IHb IHo|i v|i|i|i]
    using stmt_nested_ind; intros st0 s0 Hs0; rewrite copy_stmt_eq;
    try (apply copy_stmts_copies in IH);
    try (apply copy_stmts_copies in IHb);
    try (apply copy_stmts_copies in IHo).
  - copy_step I st0. copy_step (Hes args) st0. copy_step IH st0. copied.
  - destruct v as [v|]; copy_step I st0; [copy_step (He v) st0|]; copied.
  - copy_step I st0. copy_step (Hes targets) st0. copy_step (He v) st0. copied.
  - copy_step I st0. copy_step (He t) st0. copy_step (He v) st0. copied.
  - copy_step I st0. copy_step (Hes values) st0. copied.
  - copy_step I st0. copy_step (He t) st0. copy_step (He it) st0.
    copy_step IHb st0. copy_step IHo st0. copied.
  - copy_step I st0. copy_step (He t) st0.
    copy_step IHb st0. copy_step IHo st0. copied.
  - copy_step I st0. copy_step (He t) st0.
    copy_step IHb st0. copy_step IHo st0. copied.
  - copy_step I st0. copy_step (He v) st0. copied.
  - copy_step I st0. copied.
  - copy_step I st0. copied.
  - copy_step I st0. copied.
Qed.

Lemma memo_made_since_empty (st : nat) : memo_made_since st (st, ∅).
Proof.
  split; [simpl; lia|]. simpl. intros i j H. rewrite lookup_empty in H.
  discriminate.
Qed.

(** [deepcopy] of an expression answers a deep copy. *)
Lemma deepcopy_expr (e : ast.expr) (st : nat) :
  exists e' st', deepcopy copy_expr e st = Ok (e', st') /\ st <= st' /\
                 deep_copy_of_expr st st' e e'.
Proof.
  destruct (copy_expr_copies e st (st, ∅) (memo_made_since_empty st))
    as (e' & [st' m] & H & _ & Hle & Her & Hids).
  exists e', st'. unfold deepcopy. rewrite H.
  split; [reflexivity|]. split; [exact Hle|]. split; assumption.
Qed.

(** [deepcopy] of a list of statements answers a deep copy. *)
Lemma deepcopy_stmts (l : list ast.stmt) (st : nat) :
  exists l' st', deepcopy copy_stmts l st = Ok (l', st') /\ st <= st' /\
                 deep_copy_of_stmts st st' l l'.
Proof.
  assert (Hl : copies copy_stmts (map erase_stmt) (flat_map stmt_ids) l).
  { apply copy_stmts_copies, List.Forall_forall. intros s _.
    apply copy_stmt_copies. }
  destruct (Hl st (st, ∅) (memo_made_since_empty st))
    as (l' & [st' m] & H & _ & Hle & Her & Hids).
  exists l', st'. unfold deepcopy. rewrite H.
  split; [reflexivity|]. split; [exact Hle|]. split; assumption.
Qed.

(** ** A pass without a method for expressions leaves them as they are *)

Section default_expressions.

Context {S : Type}.

Local Abbreviation gve := (generic_visit_expr (S := S) default_visit_expr).
Local Abbreviation ve := (visit_expr (S := S) default_visit_expr).
Local Abbreviation ves := (visit_exprs (S := S) default_visit_expr).

Lemma default_visit_of_generic (e : ast.expr) (st : S) :
  gve e st = Ok (e, st) -> ve e st = Ok (Some e, st).
Proof.
  intros H. unfold visit_expr, default_visit_expr. run_with H. reflexivity.
Qed.

Lemma default_visit_exprs_of_generic (l : list ast.expr) :
  Forall (fun e => forall st, gve e st = Ok (e, st)) l ->
  forall st, ves l st = Ok (l, st).
Proof.
  induction 1 as [|e l He _ IH]; intros st; simpl; [reflexivity|].
  rewrite (bind_Ok _ _ _ _ _ (default_visit_of_generic e st (He st))).
  rewrite (bind_Ok _ _ _ _ _ (IH st)). reflexivity.
Qed.

Ltac same_child IH st :=
  first [ rewrite (bind_Ok _ _ _ _ _
                     (field_Ok _ _ _ _ (default_visit_of_generic _ st (IH st))))
        | rewrite (bind_Ok _ _ _ _ _ (default_visit_exprs_of_generic _ IH st)) ].

Lemma default_generic_visit_expr (e : ast.expr) (st : S) : gve e st = Ok (e, st).
Proof.
  revert st.
  induction e as [i n|i s|i id c|i v a c IHv|i l o r IHl IHr
                 |i f args IHf IHargs|i elts c IH|i elts c IH|i elts IH
                 |i ks vs IHk IHv|i v sl c IHv IHsl|i v IHv|i|i v IHv]
    using expr_nested_ind; intros st; rewrite generic_visit_expr_eq;
    try reflexivity.
  - same_child IHv st. reflexivity.
  - same_child IHl st. same_child IHr st. reflexivity.
  - same_child IHf st. same_child IHargs st. reflexivity.
  - same_child IH st. reflexivity.
  - same_child IH st. reflexivity.
  - same_child IH st. reflexivity.
  - same_child IHk st. same_child IHv st. reflexivity.
  - same_child IHv st. same_child IHsl st. reflexivity.
  - same_child IHv st. reflexivity.
  - same_child IHv st. reflexivity.
Qed.

Lemma default_visit_expr_same (e : ast.expr) (st : S) :
  ve e st = Ok (Some e, st).
Proof. apply default_visit_of_generic, default_generic_visit_expr. Qed.

Lemma default_visit_exprs_same (l : list ast.expr) (st : S) :
  ves l st = Ok (l, st).
Proof.
  apply default_visit_exprs_of_generic, List.Forall_forall.
  intros e _ st'. apply default_generic_visit_expr.
Qed.

End default_expressions.

(** ** [LoopFullUnrolling] *)

Lemma fold_left_app_concat {A} (parts : list (list A)) (first : list A) :
  fold_left (fun acc p => acc ++ p) parts first = first ++ concat parts.
Proof.
  revert first. induction parts as [|p parts IH]; intros first; simpl.
  - symmetry. apply app_nil_r.
  - rewrite IH. symmetry. apply app_assoc.
Qed.

Lemma reduce_add_concat {S A} (parts : list (list A)) (st : S) :
  parts <> [] -> reduce_add parts st = Ok (concat parts, st).
Proof.
  destruct parts as [|p parts]; [congruence|]. intros _. unfold reduce_add, ret.
  rewrite fold_left_app_concat. reflexivity.
Qed.

Lemma deep_copy_of_expr_weaken (a b a' b' : nat) (x x' : ast.expr) :
  a' <= a -> b <= b' ->
  deep_copy_of_expr a b x x' -> deep_copy_of_expr a' b' x x'.
Proof.
  intros Ha Hb [He Hids]. split; [exact He|].
  eapply Forall_range_weaken; [| |exact Hids]; lia.
Qed.

Lemma deep_copy_of_stmts_weaken (a b a' b' : nat) (x x' : list ast.stmt) :
  a' <= a -> b <= b' ->
  deep_copy_of_stmts a b x x' -> deep_copy_of_stmts a' b' x x'.
Proof.
  intros Ha Hb [He Hids]. split; [exact He|].
  eapply Forall_range_weaken; [| |exact Hids]; lia.
Qed.

Section LoopFullUnrolling_properties.

Variable metadata_get_OMPDirective : nat -> list OMPDirective.
Variable HasBreak : ast.stmt -> bool.
Variable HasContinue : ast.stmt -> bool.
Variable NodeCount : ast.stmt -> nat.

Local Abbreviation visit_For :=
  (LoopFullUnrolling.visit_For metadata_get_OMPDirective HasBreak HasContinue
     NodeCount).
Local Abbreviation generic_visit :=
  (LoopFullUnrolling.generic_visit metadata_get_OMPDirective HasBreak
     HasContinue NodeCount).
Local Abbreviation visit :=
  (LoopFullUnrolling.visit metadata_get_OMPDirective HasBreak HasContinue
     NodeCount).
Local Abbreviation visit_body :=
  (LoopFullUnrolling.visit_body metadata_get_OMPDirective HasBreak HasContinue
     NodeCount).

(** [self.generic_visit(node)] on a loop: the target and the iterable are
    the same objects afterwards, the body and the else-branch are what the
    traversal makes of them. *)
Lemma generic_visit_For (i : nat) (target iter : ast.expr)
    (body orelse : list ast.stmt) (st : nat) body' s1 orelse' st1 :
  visit_body body st = Ok (body', s1) ->
  visit_body orelse s1 = Ok (orelse', st1) ->
  generic_visit (ast.For i target iter body orelse) st
  = Ok (ast.For i target iter body' orelse', st1).
Proof.
  intros Hb Ho. unfold LoopFullUnrolling.generic_visit.
  rewrite generic_visit_stmt_eq.
  rewrite (bind_Ok _ _ _ _ _ (field_Ok _ _ _ _ (default_visit_expr_same target st))).
  rewrite (bind_Ok _ _ _ _ _ (field_Ok _ _ _ _ (default_visit_expr_same iter st))).
  unfold LoopFullUnrolling.visit_body in Hb, Ho.
  rewrite (bind_Ok _ _ _ _ _ Hb). rewrite (bind_Ok _ _ _ _ _ Ho). reflexivity.
Qed.

(** One round of [unroll]. *)
Lemma unroll_makes (target : ast.expr) (body : list ast.stmt) (elt : ast.expr)
    (st : nat) :
  exists target' j body' st1,
    LoopFullUnrolling.unroll target body elt st
    = Ok (ast.Assign j [target'] elt :: body', st1) /\
    st <= st1 /\
    deep_copy_of_expr st st1 target target' /\ st <= j < st1 /\
    deep_copy_of_stmts st st1 body body'.
Proof.
  destruct (deepcopy_expr target st) as (t' & s1 & Ht & Hle1 & Hct).
  destruct (deepcopy_stmts body (S s1)) as (b' & s2 & Hb & Hle2 & Hcb).
  exists t', s1, b', s2. unfold LoopFullUnrolling.unroll.
  rewrite (bind_Ok _ _ _ _ _ Ht).
  rewrite (bind_Ok fresh _ s1 s1 (S s1) eq_refl).
  rewrite (bind_Ok _ _ _ _ _ Hb).
  split; [reflexivity|]. split; [lia|].
  split; [eapply deep_copy_of_expr_weaken; [| |exact Hct]; lia|].
  split; [lia|].
  eapply deep_copy_of_stmts_weaken; [| |exact Hcb]; lia.
Qed.

Lemma map_unroll_unrolled (target : ast.expr) (body : list ast.stmt)
    (elts : list ast.expr) :
  forall st, exists parts st',
    mapM (LoopFullUnrolling.unroll target body) elts st = Ok (parts, st') /\
    st <= st' /\ length parts = length elts /\
    unrolled target body elts st (concat parts) st'.
Proof.
  induction elts as [|elt elts IH]; intros st; simpl.
  - exists [], st. repeat split; auto.
  - destruct (unroll_makes target body elt st)
      as (t' & j & b' & s1 & Hu & Hle & Hct & Hj & Hcb).
    destruct (IH s1) as (parts & st' & Hm & Hle' & Hlen & Hun).
    rewrite (bind_Ok _ _ _ _ _ Hu). rewrite (bind_Ok _ _ _ _ _ Hm).
    exists ((ast.Assign j [t'] elt :: b') :: parts), st'.
    split; [reflexivity|]. split; [lia|]. split; [simpl; congruence|].
    exists t', j, b', s1, (concat parts).
    split; [reflexivity|]. auto.
Qed.

(** C4 (as the code has it).  A for-loop over a literal list that is not
    empty, without OpenMP directive, without break or continue in its
    (already transformed) body, and such that the node count of the loop (the
    whole transformed [For] node, not its body alone) times the number of
    elements is below 512, is replaced by the unrolled statements: for each
    element, in order, one assignment of the element to a deep copy of the
    loop variable, followed by a deep copy of the transformed body. *)
Theorem visit_For_unrolls
    (i : nat) (target : ast.expr) (j : nat) (elts : list ast.expr)
    (c : ast.expr_context) (body orelse : list ast.stmt) (st : nat)
    (body' : list ast.stmt) (s1 : nat) (orelse' : list ast.stmt) (st1 : nat) :
  visit_body body st = Ok (body', s1) ->
  visit_body orelse s1 = Ok (orelse', st1) ->
  elts <> [] ->
  metadata_get_OMPDirective i = [] ->
  existsb HasBreak body' = false ->
  existsb HasContinue body' = false ->
  NodeCount (ast.For i target (ast.List j elts c) body' orelse') * length elts
  < LoopFullUnrolling.MAX_NODE_COUNT ->
  exists out st2,
    visit (ast.For i target (ast.List j elts c) body orelse) st = Ok (out, st2) /\
    unrolled target body' elts st1 out st2.
Proof.
  intros Hb Ho Hne Homp Hbreak Hcont Hsmall.
  destruct (map_unroll_unrolled target body' elts st1)
    as (parts & st2 & Hm & _ & Hlen & Hun).
  exists (concat parts), st2. split; [|exact Hun].
  unfold LoopFullUnrolling.visit, visit_stmt.
  unfold LoopFullUnrolling.visit_stmt_method, LoopFullUnrolling.visit_For.
  pose proof (generic_visit_For i target (ast.List j elts c) _ _ _ _ _ _ _
                Hb Ho) as Hg.
  unfold LoopFullUnrolling.generic_visit in Hg.
  rewrite (bind_Ok _ _ _ _ _ Hg).
  rewrite Homp, Hbreak, Hcont. cbn [LoopFullUnrolling.truthy orb negb andb].
  apply Nat.ltb_lt in Hsmall. rewrite Hsmall.
  rewrite (bind_Ok _ _ _ _ _ Hm). apply reduce_add_concat.
  destruct parts; [|discriminate]. destruct elts; [congruence | discriminate].
Qed.

(** C5 (as the code has it).  A for-loop with an OpenMP directive, or with
    a break or a continue in its (already transformed) body, or whose iterable
    is not a literal list, or whose node count times the number of elements is
    512 or more, is not unrolled: the pass returns the loop node, with the
    body and the else-branch the traversal of the children made. *)
Theorem visit_For_not_unrolled
    (i : nat) (target iter : ast.expr) (body orelse : list ast.stmt) (st : nat)
    (body' : list ast.stmt) (s1 : nat) (orelse' : list ast.stmt) (st1 : nat) :
  visit_body body st = Ok (body', s1) ->
  visit_body orelse s1 = Ok (orelse', st1) ->
  (metadata_get_OMPDirective i <> [] \/
   existsb HasBreak body' = true \/
   existsb HasContinue body' = true \/
   (forall j elts c, iter = ast.List j elts c ->
      LoopFullUnrolling.MAX_NODE_COUNT
      <= NodeCount (ast.For i target iter body' orelse') * length elts)) ->
  visit (ast.For i target iter body orelse) st
  = Ok ([ast.For i target iter body' orelse'], st1).
Proof.
  intros Hb Ho Hwhy.
  unfold LoopFullUnrolling.visit, visit_stmt.
  unfold LoopFullUnrolling.visit_stmt_method, LoopFullUnrolling.visit_For.
  pose proof (generic_visit_For i target iter _ _ _ _ _ _ _ Hb Ho) as Hg.
  unfold LoopFullUnrolling.generic_visit in Hg.
  rewrite (bind_Ok _ _ _ _ _ Hg).
  destruct iter; try reflexivity.
  destruct Hwhy as [H|[H|[H|H]]].
  - destruct (metadata_get_OMPDirective i); [congruence | reflexivity].
  - rewrite H, orb_true_r. reflexivity.
  - rewrite H, !orb_true_r. reflexivity.
  - specialize (H _ _ _ eq_refl). apply Nat.ltb_ge in H. rewrite H.
    rewrite andb_false_r. reflexivity.
Qed.

End LoopFullUnrolling_properties.

(** The doctest: [for j in [1,2,3]: i += j] is unrolled. *)
Lemma visit_For_unrolls_witness :
  exists out st2,
    LFU_example.visit LFU_example.loop 9 = Ok (out, st2) /\
    unrolled (ast.Name 1 "j" ast.Store)
      [ast.AugAssign 6 (ast.Name 7 "i" ast.Store) ast.Add
         (ast.Name 8 "j" ast.Load)]
      [ast.Num 3 (ast.PyInt 1); ast.Num 4 (ast.PyInt 2); ast.Num 5 (ast.PyInt 3)]
      9 out st2.
Proof.
  apply (visit_For_unrolls LFU_example.no_directive LFU_example.no_break
           LFU_example.no_continue count_stmt
           0 (ast.Name 1 "j" ast.Store) 2 _ ast.Load _ [] 9 _ 9 [] 9).
  - reflexivity.
  - reflexivity.
  - discriminate.
  - reflexivity.
  - reflexivity.
  - reflexivity.
  - vm_compute. lia.
Defined.

Example LoopFullUnrolling_doctest :
  LFU_example.visit LFU_example.loop 9
  = Ok ([ast.Assign 10 [ast.Name 9 "j" ast.Store] (ast.Num 3 (ast.PyInt 1));
         ast.AugAssign 11 (ast.Name 12 "i" ast.Store) ast.Add
           (ast.Name 13 "j" ast.Load);
         ast.Assign 15 [ast.Name 14 "j" ast.Store] (ast.Num 4 (ast.PyInt 2));
         ast.AugAssign 16 (ast.Name 17 "i" ast.Store) ast.Add
           (ast.Name 18 "j" ast.Load);
         ast.Assign 20 [ast.Name 19 "j" ast.Store] (ast.Num 5 (ast.PyInt 3));
         ast.AugAssign 21 (ast.Name 22 "i" ast.Store) ast.Add
           (ast.Name 23 "j" ast.Load)], 24).
Proof. vm_compute. reflexivity. Qed.

(** Two loops over a literal list, without directive, break or continue,
    whose body node count times element count is below 512, and that the code
    does not unroll.
    [for j in [0, ..., 0]: pass] with thirty elements: the body has one node
    and 1 * 30 < 512, but the loop node has 34 nodes and 34 * 30 >= 512, so
    the loop is returned as it is.  [for j in []: pass]: every guard holds
    (0 < 512), and [reduce] raises TypeError on the empty sequence. *)
Lemma unrolling_counts_the_loop_not_the_body :
  (list_sum (map count_stmt [ast.Pass 3]) * 30 < 512 /\
   count_stmt LFU_example.long_loop * 30 >= 512 /\
   LFU_example.visit LFU_example.long_loop 40
   = Ok ([LFU_example.long_loop], 40)) /\
  LFU_example.visit LFU_example.empty_loop 4 = Raise TypeError.
Proof.
  split; [split; [|split]|].
  - vm_compute. lia.
  - vm_compute. lia.
  - vm_compute. reflexivity.
  - vm_compute. reflexivity.
Qed.

(** [for i in x:] over [for j in [1, 2]: pass]: the outer loop is not
    unrolled (its iterable is no literal list) and is not returned unchanged:
    its body is the unrolled inner loop. *)
Lemma loop_not_unrolled_is_changed :
  LFU_example.visit LFU_example.nested 9
  = Ok ([ast.For 0 (ast.Name 1 "i" ast.Store) (ast.Name 2 "x" ast.Load)
           [ast.Assign 10 [ast.Name 9 "j" ast.Store] (ast.Num 6 (ast.PyInt 1));
            ast.Pass 11;
            ast.Assign 13 [ast.Name 12 "j" ast.Store] (ast.Num 7 (ast.PyInt 2));
            ast.Pass 14] []], 15) /\
  [ast.For 0 (ast.Name 1 "i" ast.Store) (ast.Name 2 "x" ast.Load)
     [ast.Assign 10 [ast.Name 9 "j" ast.Store] (ast.Num 6 (ast.PyInt 1));
      ast.Pass 11;
      ast.Assign 13 [ast.Name 12 "j" ast.Store] (ast.Num 7 (ast.PyInt 2));
      ast.Pass 14] []]
  <> [LFU_example.nested].
Proof. split; [vm_compute; reflexivity | discriminate]. Qed.

Lemma visit_For_not_unrolled_witness :
  LFU_example.visit LFU_example.nested 9
  = Ok ([ast.For 0 (ast.Name 1 "i" ast.Store) (ast.Name 2 "x" ast.Load)
           [ast.Assign 10 [ast.Name 9 "j" ast.Store] (ast.Num 6 (ast.PyInt 1));
            ast.Pass 11;
            ast.Assign 13 [ast.Name 12 "j" ast.Store] (ast.Num 7 (ast.PyInt 2));
            ast.Pass 14] []], 15).
Proof.
  apply (visit_For_not_unrolled LFU_example.no_directive LFU_example.no_break
           LFU_example.no_continue count_stmt
           0 (ast.Name 1 "i" ast.Store) (ast.Name 2 "x" ast.Load) _ [] 9 _ 15 [] 15).
  - vm_compute. reflexivity.
  - reflexivity.
  - right. right. right. intros j elts c H. discriminate.
Defined.

(** ** [ForwardSubstitution] *)

Section ForwardSubstitution_properties.

Variable lazyness_analysis : gmap string lazyness.
Variable used_def_chain : gmap string ud_graph.
Variable literals : gset string.

Local Abbreviation candidate :=
  (ForwardSubstitution.candidate lazyness_analysis literals).
Local Abbreviation forward :=
  (ForwardSubstitution.forward lazyness_analysis literals).
Local Abbreviation get := ForwardSubstitution.get.
Local Abbreviation forwardable := ForwardSubstitution.forwardable.

Lemma candidate_raises (name : string) (udgraph : ud_graph) (st : nat) :
  lazyness_analysis !! name = None ->
  candidate name udgraph st = Raise (KeyError name).
Proof.
  intros H. unfold ForwardSubstitution.candidate, orM, andM, dict_get, bind, ret.
  rewrite H. destruct (Nat.eqb (length udgraph) 2); reflexivity.
Qed.

Lemma candidate_answers (name : string) (udgraph : ud_graph) (st : nat) lazy :
  lazyness_analysis !! name = Some lazy ->
  exists b, candidate name udgraph st = Ok (b, st) /\
            (b = true <-> eligible literals name udgraph lazy).
Proof.
  intros H. unfold ForwardSubstitution.candidate, orM, andM, dict_get, bind, ret.
  rewrite H. unfold eligible.
  destruct (Nat.eqb (length udgraph) 2) eqn:El;
    [apply Nat.eqb_eq in El | apply Nat.eqb_neq in El].
  - destruct lazy as [n|]; simpl.
    + destruct (Z.eqb n 1) eqn:En; [apply Z.eqb_eq in En | apply Z.eqb_neq in En].
      * exists true. split; [reflexivity|]. subst n. tauto.
      * destruct (decide (name ∈ literals)) as [Hin|Hout].
        -- rewrite bool_decide_eq_true_2 by exact Hin. exists true.
           split; [reflexivity|]. split; [|reflexivity]. intros _. right.
           split; [discriminate | exact Hin].
        -- rewrite bool_decide_eq_false_2 by exact Hout. exists false.
           split; [reflexivity|]. split; [discriminate|].
           intros [[_ Hc]|[_ Hc]]; [injection Hc as Hc|]; contradiction.
    + exists false. split; [reflexivity|]. split; [discriminate|].
      intros [[_ Hc]|[Hc _]]; [discriminate | contradiction].
  - destruct lazy as [n|]; simpl.
    + destruct (decide (name ∈ literals)) as [Hin|Hout].
      * rewrite bool_decide_eq_true_2 by exact Hin. exists true.
        split; [reflexivity|]. split; [|reflexivity]. intros _. right.
        split; [discriminate | exact Hin].
      * rewrite bool_decide_eq_false_2 by exact Hout. exists false.
        split; [reflexivity|]. split; [discriminate|].
        intros [[Hc _]|[_ Hc]]; contradiction.
    + exists false. split; [reflexivity|]. split; [discriminate|].
      intros [[Hc _]|[Hc _]]; contradiction.
Qed.

Lemma getattr_ctx_of {S} (e : ast.expr) (st : S) :
  getattr_ctx e st = match ctx_of e with
                     | Some c => Ok (c, st)
                     | None => Raise AttributeError
                     end.
Proof. destruct e; reflexivity. Qed.

Lemma forwardable_answers (udgraph : ud_graph) (st : nat) :
  forwardable udgraph st =
  match get udgraph "D", get udgraph "UD" with
  | [d], [] =>
      match ctx_of d with
      | Some c => Ok (negb (ForwardSubstitution.isinstance_Param c), st)
      | None => Raise AttributeError
      end
  | _, _ => Ok (false, st)
  end.
Proof.
  unfold ForwardSubstitution.forwardable, andM.
  destruct (get udgraph "D") as [|d [|d' D]];
    destruct (get udgraph "UD") as [|u UD]; try reflexivity.
  simpl. unfold bind at 1. unfold ret at 1. unfold bind.
  rewrite getattr_ctx_of. destruct (ctx_of d); reflexivity.
Qed.

(** One round of the loop of [visit_FunctionDef], for the variable [name]
    with chain [udgraph]: what the round is in each case of the two tests. *)
Lemma forward_round
    (name : string) (udgraph : ud_graph) (node : ast.stmt) (st : nat) :
  match lazyness_analysis !! name with
  | None => forward name udgraph node st = Raise (KeyError name)
  | Some lazy =>
      (forall d c,
         eligible literals name udgraph lazy ->
         get udgraph "D" = [d] -> get udgraph "UD" = [] ->
         ctx_of d = Some c -> c <> ast.Param ->
         forward name udgraph node st
         = LazyRemover.run (get udgraph "U") d node st) /\
      (~ eligible literals name udgraph lazy ->
       forward name udgraph node st = Ok (node, st)) /\
      (length (get udgraph "D") <> 1 ->
       forward name udgraph node st = Ok (node, st)) /\
      (get udgraph "UD" <> [] ->
       forward name udgraph node st = Ok (node, st)) /\
      (forall d, get udgraph "D" = [d] -> ctx_of d = Some ast.Param ->
                 forward name udgraph node st = Ok (node, st)) /\
      (forall d,
         eligible literals name udgraph lazy ->
         get udgraph "D" = [d] -> get udgraph "UD" = [] -> ctx_of d = None ->
         forward name udgraph node st = Raise AttributeError)
  end.
Proof.
  destruct (lazyness_analysis !! name) as [lazy|] eqn:Hlazy.
  2: { unfold ForwardSubstitution.forward.
       apply bind_Raise, candidate_raises, Hlazy. }
  destruct (candidate_answers name udgraph st lazy Hlazy) as (b & Hc & Hb).
  unfold ForwardSubstitution.forward. rewrite (bind_Ok _ _ _ _ _ Hc).
  destruct b.
  2: { assert (Hno : ~ eligible literals name udgraph lazy).
       { intros He. apply Hb in He. discriminate. }
       repeat split; try reflexivity; intros; contradiction. }
  assert (Hyes : eligible literals name udgraph lazy) by (apply Hb; reflexivity).
  split; [|split; [|split; [|split; [|split]]]].
  - intros d c _ HD HUD Hctx Hpar. unfold bind. rewrite forwardable_answers.
    rewrite HD, HUD, Hctx. destruct c; try reflexivity. contradiction.
  - intros Hno. contradiction.
  - intros HD. unfold bind. rewrite forwardable_answers.
    destruct (get udgraph "D") as [|d [|d' D]];
      destruct (get udgraph "UD"); try reflexivity;
      exfalso; apply HD; reflexivity.
  - intros HUD. unfold bind. rewrite forwardable_answers.
    destruct (get udgraph "UD") as [|u us]; [congruence|].
    destruct (get udgraph "D") as [|d [|d' D]]; reflexivity.
  - intros d HD Hctx. unfold bind. rewrite forwardable_answers.
    rewrite HD, Hctx. destruct (get udgraph "UD"); reflexivity.
  - intros d _ HD HUD Hctx. unfold bind. rewrite forwardable_answers.
    rewrite HD, HUD, Hctx. reflexivity.
Qed.

Local Abbreviation forward_all :=
  (ForwardSubstitution.forward_all lazyness_analysis literals).
Local Abbreviation visit_FunctionDef :=
  (ForwardSubstitution.visit_FunctionDef lazyness_analysis used_def_chain
     literals).

(** The loop, cut at one of its rounds. *)
Lemma forward_all_app (before after : list (string * ud_graph))
    (name : string) (udgraph : ud_graph) (node : ast.stmt) (st : nat)
    (node1 : ast.stmt) (st1 : nat) :
  forward_all before node st = Ok (node1, st1) ->
  forward_all (before ++ (name, udgraph) :: after) node st
  = (node2 <- forward name udgraph node1 ;; forward_all after node2) st1.
Proof.
  revert node st. induction before as [|[n g] before IH]; intros node st H.
  - simpl in H. injection H as <- <-. reflexivity.
  - simpl in H. apply bind_inv in H. destruct H as (node' & st' & Hf & H).
    simpl. rewrite (bind_Ok _ _ _ _ _ Hf). exact (IH _ _ H).
Qed.

(** Every variable of the chains has its round in the loop, and only one. *)
Lemma round_of_the_loop (name : string) (udgraph : ud_graph) :
  used_def_chain !! name = Some udgraph ->
  exists before after,
    map_to_list used_def_chain = before ++ (name, udgraph) :: after /\
    ~ In name (map fst before) /\ ~ In name (map fst after).
Proof.
  intros H. apply elem_of_map_to_list in H.
  apply list_elem_of_split in H. destruct H as (before & after & Hsplit).
  exists before, after. split; [exact Hsplit|].
  pose proof (NoDup_fst_map_to_list used_def_chain) as Hnd.
  rewrite Hsplit, fmap_app, fmap_cons in Hnd. simpl in Hnd.
  apply NoDup_app in Hnd. destruct Hnd as (_ & Hdisj & Hnd).
  apply NoDup_cons in Hnd. destruct Hnd as [Hafter _].
  split.
  - intros Hin. apply list_elem_of_In in Hin.
    apply (Hdisj name Hin). left.
  - intros Hin. apply list_elem_of_In in Hin. exact (Hafter Hin).
Qed.

(** C2.  [visit_FunctionDef] has one round of its loop for every variable
    [name] of the use-def chains, and only one.  In that round, run on the
    function [node1] the rounds before it have answered, the remover is run
    (with the U occurrences and the one D occurrence) exactly when the
    variable is eligible ((a) two occurrences and laziness 1, or (b) finite
    laziness and a literal) and the chain has exactly one D occurrence, no
    UD occurrence, and the D occurrence is not a parameter; when one of these
    fails the function goes to the rounds after it as it is.  (A variable
    without laziness raises KeyError; a D occurrence without [ctx] raises
    AttributeError.) *)
Theorem forward_fires_iff (name : string) (udgraph : ud_graph) :
  used_def_chain !! name = Some udgraph ->
  exists before after,
    map_to_list used_def_chain = before ++ (name, udgraph) :: after /\
    ~ In name (map fst before) /\ ~ In name (map fst after) /\
    forall node st node1 st1,
      forward_all before node st = Ok (node1, st1) ->
      match lazyness_analysis !! name with
      | None => visit_FunctionDef node st = Raise (KeyError name)
      | Some lazy =>
          (forall d c,
             eligible literals name udgraph lazy ->
             get udgraph "D" = [d] -> get udgraph "UD" = [] ->
             ctx_of d = Some c -> c <> ast.Param ->
             visit_FunctionDef node st
             = (node2 <- LazyRemover.run (get udgraph "U") d node1 ;;
                forward_all after node2) st1) /\
          (~ eligible literals name udgraph lazy ->
           visit_FunctionDef node st = forward_all after node1 st1) /\
          (length (get udgraph "D") <> 1 ->
           visit_FunctionDef node st = forward_all after node1 st1) /\
          (get udgraph "UD" <> [] ->
           visit_FunctionDef node st = forward_all after node1 st1) /\
          (forall d, get udgraph "D" = [d] -> ctx_of d = Some ast.Param ->
                     visit_FunctionDef node st = forward_all after node1 st1) /\
          (forall d,
             eligible literals name udgraph lazy ->
             get udgraph "D" = [d] -> get udgraph "UD" = [] ->
             ctx_of d = None ->
             visit_FunctionDef node st = Raise AttributeError)
      end.
Proof.
  intros Hchain.
  destruct (round_of_the_loop name udgraph Hchain)
    as (before & after & Hsplit & Hbefore & Hafter).
  exists before, after. split; [exact Hsplit|].
  split; [exact Hbefore|]. split; [exact Hafter|].
  intros node st node1 st1 Hrounds.
  assert (Hcut : visit_FunctionDef node st
                 = (node2 <- forward name udgraph node1 ;;
                    forward_all after node2) st1).
  { unfold ForwardSubstitution.visit_FunctionDef. rewrite Hsplit.
    apply forward_all_app. exact Hrounds. }
  rewrite Hcut. clear Hcut.
  pose proof (forward_round name udgraph node1 st1) as Hround.
  destruct (lazyness_analysis !! name) as [lazy|].
  - destruct Hround as (Hrun & Hel & HD & HUD & Hpar & Hctx).
    split; [|split; [|split; [|split; [|split]]]].
    + intros d c H1 H2 H3 H4 H5. unfold bind.
      rewrite (Hrun d c H1 H2 H3 H4 H5). reflexivity.
    + intros H. apply bind_Ok, Hel, H.
    + intros H. apply bind_Ok, HD, H.
    + intros H. apply bind_Ok, HUD, H.
    + intros d H1 H2. apply bind_Ok, (Hpar d H1 H2).
    + intros d H1 H2 H3 H4. apply bind_Raise, (Hctx d H1 H2 H3 H4).
  - apply bind_Raise, Hround.
Qed.

End ForwardSubstitution_properties.

(** The second doctest, [def foo(): a = 2; print a + a]: the variable [a]
    is a literal of finite laziness with one D occurrence, and the pass is
    the run of the remover for it. *)
Lemma forward_fires_iff_witness :
  ForwardSubstitution.visit_FunctionDef FS_example.lazyness_analysis
    FS_example.chains FS_example.literals FS_example.foo 10
  = LazyRemover.run [ast.Name 8 "a" ast.Load; ast.Name 9 "a" ast.Load]
      (ast.Name 2 "a" ast.Store) FS_example.foo 10.
Proof.
  assert (Hchain : FS_example.chains !! "a"
                   = Some [ {| name := ast.Name 2 "a" ast.Store; action := "D" |};
                            {| name := ast.Name 8 "a" ast.Load; action := "U" |};
                            {| name := ast.Name 9 "a" ast.Load; action := "U" |} ])
    by reflexivity.
  destruct (forward_fires_iff FS_example.lazyness_analysis FS_example.chains
              FS_example.literals "a" _ Hchain)
    as (before & after & Hsplit & _ & _ & H).
  assert (Hlist : map_to_list FS_example.chains
                  = [("a", [ {| name := ast.Name 2 "a" ast.Store; action := "D" |};
                             {| name := ast.Name 8 "a" ast.Load; action := "U" |};
                             {| name := ast.Name 9 "a" ast.Load; action := "U" |} ])])
    by (vm_compute; reflexivity).
  rewrite Hlist in Hsplit.
  destruct before as [|item [|item' before]]; try discriminate.
  destruct after as [|item after]; try discriminate.
  specialize (H FS_example.foo 10 FS_example.foo 10 eq_refl).
  change (FS_example.lazyness_analysis !! "a") with (Some (Count 2)) in H.
  destruct H as [H _].
  rewrite (H (ast.Name 2 "a" ast.Store) ast.Store).
  - vm_compute. reflexivity.
  - right. split; [discriminate|]. apply elem_of_singleton. reflexivity.
  - reflexivity.
  - reflexivity.
  - reflexivity.
  - discriminate.
Defined.

Example ForwardSubstitution_doctest :
  ForwardSubstitution.visit_FunctionDef FS_example.lazyness_analysis
    FS_example.chains FS_example.literals FS_example.foo 10
  = Ok (ast.FunctionDef 0 "foo" []
          [ast.Pass 10;
           ast.Print 6 [ast.BinOp 7 FS_example.rhs ast.Add FS_example.rhs]], 11).
Proof. vm_compute. reflexivity. Qed.

(** ** [_LazyRemover] *)

Section LazyRemover_properties.

Variable U : list ast.expr.
Variable D : ast.expr.

Local Abbreviation visit_Name := (LazyRemover.visit_Name U).
Local Abbreviation visit_Assign := (LazyRemover.visit_Assign D).
Local Abbreviation visit_stmt_method := (LazyRemover.visit_stmt_method D).

Local Abbreviation hook := (LazyRemover.visit_expr_method U).
Local Abbreviation hook_stmt := (LazyRemover.visit_stmt_method D).
Local Abbreviation gve := (generic_visit_expr hook).
Local Abbreviation ve := (visit_expr hook).
Local Abbreviation ves := (visit_exprs hook).
Local Abbreviation gvs := (generic_visit_stmt hook hook_stmt).
Local Abbreviation vss := (visit_stmts hook hook_stmt).

Section after_the_definition.

(** The node [self.capture] holds. *)
Variable c : ast.expr.

Local Abbreviation subst := (substitute_expr U c).
Local Abbreviation captured st := (LazyRemover.capture st = Some c).

Lemma visit_of_generic_substituted (e e' : ast.expr) (st : LazyRemover.state) :
  DeadCodeElimination.is_Name e = false ->
  gve e st = Ok (e', st) -> ve e st = Ok (Some e', st).
Proof.
  intros Hn Hg. unfold visit_expr.
  destruct e; try discriminate; simpl; unfold default_visit_expr;
    rewrite (bind_Ok _ _ _ _ _ Hg); reflexivity.
Qed.

Lemma visit_exprs_substituted (l : list ast.expr) :
  Forall (fun e => forall st, captured st -> ve e st = Ok (Some (subst e), st)) l ->
  forall st, captured st -> ves l st = Ok (map subst l, st).
Proof.
  induction 1 as [|e l He _ IH]; intros st Hc; simpl; [reflexivity|].
  rewrite (bind_Ok _ _ _ _ _ (He st Hc)).
  rewrite (bind_Ok _ _ _ _ _ (IH st Hc)). reflexivity.
Qed.

Ltac substituted_child IH st Hc :=
  first [ rewrite (bind_Ok _ _ _ _ _ (field_Ok _ _ _ _ (IH st Hc)))
        | rewrite (bind_Ok _ _ _ _ _ (visit_exprs_substituted _ IH st Hc)) ].

(** Once the right-hand side is captured, a visit replaces every U
    occurrence by the captured node and nothing else. *)
Lemma visit_expression_substitutes (e : ast.expr) :
  forall st, captured st -> ve e st = Ok (Some (subst e), st).
Proof.
  induction e as [i n|i s|i id x|i v a x IHv|i l o r IHl IHr
                 |i f args IHf IHargs|i elts x IH|i elts x IH|i elts IH
                 |i ks vs IHk IHv|i v sl x IHv IHsl|i v IHv|i|i v IHv]
    using expr_nested_ind; intros st Hc;
    try (apply visit_of_generic_substituted; [reflexivity|];
         rewrite generic_visit_expr_eq; cbn [substitute_expr]).
  - reflexivity.
  - reflexivity.
  - unfold visit_expr. cbn [LazyRemover.visit_expr_method substitute_expr].
    unfold LazyRemover.visit_Name. destruct (node_in (ast.Name i id x) U).
    + unfold LazyRemover.get_capture. rewrite Hc. reflexivity.
    + reflexivity.
  - substituted_child IHv st Hc. reflexivity.
  - substituted_child IHl st Hc. substituted_child IHr st Hc. reflexivity.
  - substituted_child IHf st Hc. substituted_child IHargs st Hc. reflexivity.
  - substituted_child IH st Hc. reflexivity.
  - substituted_child IH st Hc. reflexivity.
  - substituted_child IH st Hc. reflexivity.
  - substituted_child IHk st Hc. substituted_child IHv st Hc. reflexivity.
  - substituted_child IHv st Hc. substituted_child IHsl st Hc. reflexivity.
  - substituted_child IHv st Hc. reflexivity.
  - reflexivity.
  - substituted_child IHv st Hc. reflexivity.
Qed.

Lemma visit_expressions_substitute (l : list ast.expr) (st : LazyRemover.state) :
  captured st -> ves l st = Ok (map subst l, st).
Proof.
  apply visit_exprs_substituted, List.Forall_forall.
  intros e _. apply visit_expression_substitutes.
Qed.

Local Abbreviation subst_stmt := (substitute_stmt U c).
Local Abbreviation elsewhere := (defines_elsewhere U c D).
Local Abbreviation substitutes s :=
  (forall st, captured st -> elsewhere s = false ->
              LazyRemover.visit U D s st = Ok (subst_stmt s, st)).

Lemma visit_stmts_substituted (l : list ast.stmt) :
  Forall (fun s => substitutes s) l ->
  forall st, captured st -> existsb elsewhere l = false ->
             vss l st = Ok (map subst_stmt l, st).
Proof.
  induction 1 as [|s l Hs _ IH]; intros st Hc Hno; simpl; [reflexivity|].
  simpl in Hno. apply orb_false_iff in Hno. destruct Hno as [Hno1 Hno2].
  unfold visit_stmt at 1. unfold LazyRemover.visit_stmt_method.
  specialize (Hs st Hc Hno1). unfold LazyRemover.visit in Hs.
  rewrite (bind_Ok _ _ _ _ _ (bind_Ok _ (fun n => ret [n]) _ _ _ Hs)).
  unfold ret at 1.
  rewrite (bind_Ok _ _ _ _ _ (IH st Hc Hno2)). reflexivity.
Qed.

Ltac substituted_part IH st Hc Hno :=
  first [ rewrite (bind_Ok _ _ _ _ _
                     (field_Ok _ _ _ _ (visit_expression_substitutes _ st Hc)))
        | rewrite (bind_Ok _ _ _ _ _ (visit_expressions_substitute _ st Hc))
        | rewrite (bind_Ok _ _ _ _ _ (visit_stmts_substituted _ IH st Hc Hno)) ].

(** Once the right-hand side is captured, the visit of a statement that
    does not define the variable again substitutes and nothing else. *)
Lemma visit_substitutes (s : ast.stmt) : substitutes s.
Proof.
  induction s as [i name args body IH|i v|i targets v|i t o v|i values
                 |i t it body orelse IHb IHo|i t body orelse IHb IHo
                 |i t body orelse IHb IHo|i v|i|i|i]
    using stmt_nested_ind; intros st Hc Hno; unfold LazyRemover.visit;
    cbn [LazyRemover.visit_node]; try unfold LazyRemover.visit_Assign;
    rewrite generic_visit_stmt_eq; cbn [defines_elsewhere] in Hno;
    try (apply orb_false_iff in Hno; destruct Hno as [Hno1 Hno2]).
  - substituted_part I st Hc I. substituted_part IH st Hc Hno. reflexivity.
  - destruct v as [v|]; [substituted_part I st Hc I|]; reflexivity.
  - assert (Hg : (targets' <- ves targets ;; v' <- field (ve v) ;;
                  ret (ast.Assign i targets' v')) st
                 = Ok (ast.Assign i (map subst targets) (subst v), st)).
    { substituted_part I st Hc I. substituted_part I st Hc I. reflexivity. }
    rewrite (bind_Ok _ _ _ _ _ Hg). rewrite Hno. reflexivity.
  - substituted_part I st Hc I. substituted_part I st Hc I. reflexivity.
  - substituted_part I st Hc I. reflexivity.
  - substituted_part I st Hc I. substituted_part I st Hc I.
    substituted_part IHb st Hc Hno1. substituted_part IHo st Hc Hno2.
    reflexivity.
  - substituted_part I st Hc I.
    substituted_part IHb st Hc Hno1. substituted_part IHo st Hc Hno2.
    reflexivity.
  - substituted_part I st Hc I.
    substituted_part IHb st Hc Hno1. substituted_part IHo st Hc Hno2.
    reflexivity.
  - substituted_part I st Hc I. reflexivity.
  - reflexivity.
  - reflexivity.
  - reflexivity.
Qed.

Lemma visit_body_substitutes (l : list ast.stmt) (st : LazyRemover.state) :
  captured st -> existsb elsewhere l = false ->
  LazyRemover.visit_body U D l st = Ok (map subst_stmt l, st).
Proof.
  apply visit_stmts_substituted, List.Forall_forall.
  intros s _. apply visit_substitutes.
Qed.

End after_the_definition.

(** C3 (as the code has it).  [visit_Name] answers, for a name that is one
    of the U occurrences, the object held by [self.capture] itself (the
    right-hand side of the defining assignment once that assignment has been
    visited); it creates no node, so the same object stands at every use; any
    other name is answered as it is.  [visit_Assign], on the assignment whose
    targets hold the D occurrence, captures the right-hand side, and answers
    a new [Pass] when the assignment has exactly one target, and otherwise
    the assignment without its first target that is the D occurrence; any
    other assignment is answered as it is.  A statement is always answered by
    one statement: nothing is deleted from the statement sequence.  Once a
    right-hand side [c] is captured, the visit of an expression, and of
    statements that do not define the variable again, is the substitution of
    the node [c] for the U occurrences. *)
Theorem LazyRemover_replaces_by_the_captured_node :
  (forall node st,
     node_in node U = true ->
     visit_Name node st = Ok (LazyRemover.capture st, st)) /\
  (forall node st,
     node_in node U = false -> visit_Name node st = Ok (Some node, st)) /\
  (forall generic_visit st i targets value st1,
     generic_visit st = Ok (ast.Assign i targets value, st1) ->
     node_in D targets = true ->
     (length targets = 1 ->
      visit_Assign generic_visit st
      = Ok (ast.Pass (LazyRemover.next st1),
            {| LazyRemover.next := S (LazyRemover.next st1);
               LazyRemover.capture := Some value |})) /\
     (length targets <> 1 ->
      visit_Assign generic_visit st
      = Ok (ast.Assign i (list_remove D targets) value,
            {| LazyRemover.next := LazyRemover.next st1;
               LazyRemover.capture := Some value |}))) /\
  (forall generic_visit st i targets value st1,
     generic_visit st = Ok (ast.Assign i targets value, st1) ->
     node_in D targets = false ->
     visit_Assign generic_visit st = Ok (ast.Assign i targets value, st1)) /\
  (forall s generic_visit st out st1,
     visit_stmt_method s generic_visit st = Ok (out, st1) -> length out = 1) /\
  (forall c e st,
     LazyRemover.capture st = Some c ->
     LazyRemover.visit_expression U e st = Ok (Some (substitute_expr U c e), st)) /\
  (forall c body st,
     LazyRemover.capture st = Some c ->
     existsb (defines_elsewhere U c D) body = false ->
     LazyRemover.visit_body U D body st
     = Ok (map (substitute_stmt U c) body, st)).
Proof.
  split; [|split; [|split; [|split; [|split; [|split]]]]].
  7: { intros c body st Hc Hno. apply visit_body_substitutes; assumption. }
  6: { intros c e st Hc. apply visit_expression_substitutes, Hc. }
  - intros node st H. unfold LazyRemover.visit_Name. rewrite H. reflexivity.
  - intros node st H. unfold LazyRemover.visit_Name. rewrite H. reflexivity.
  - intros gv st i targets value st1 Hg HD.
    unfold LazyRemover.visit_Assign. rewrite (bind_Ok _ _ _ _ _ Hg). rewrite HD.
    split; intros Hlen.
    + apply Nat.eqb_eq in Hlen.
      unfold bind, LazyRemover.set_capture, LazyRemover.fresh_node, ret.
      rewrite Hlen. reflexivity.
    + apply Nat.eqb_neq in Hlen.
      unfold bind, LazyRemover.set_capture, ret. rewrite Hlen. reflexivity.
  - intros gv st i targets value st1 Hg HD.
    unfold LazyRemover.visit_Assign. rewrite (bind_Ok _ _ _ _ _ Hg). rewrite HD.
    reflexivity.
  - intros s gv st out st1 H. unfold LazyRemover.visit_stmt_method in H.
    bind_inversion H. injection H as <- _. reflexivity.
Qed.

End LazyRemover_properties.

(** [a = 2; print a + a]: after the substitution both operands are the
    node of the right-hand side of the assignment, the same object twice, and
    not a copy made by the pass (which hands out the identities from 10 on). *)
Lemma substituted_value_is_not_copied :
  ForwardSubstitution.visit_FunctionDef FS_example.lazyness_analysis
    FS_example.chains FS_example.literals FS_example.foo 10
  = Ok (ast.FunctionDef 0 "foo" []
          [ast.Pass 10;
           ast.Print 6 [ast.BinOp 7 (ast.Num 3 (ast.PyInt 2)) ast.Add
                          (ast.Num 3 (ast.PyInt 2))]], 11) /\
  ~ deep_copy_of_expr 10 11 FS_example.rhs (ast.Num 3 (ast.PyInt 2)).
Proof.
  split; [vm_compute; reflexivity|].
  intros [_ H]. inversion H as [|? ? Hrange _]. lia.
Qed.

(** [print a; a = 2]: a use visited before the defining assignment is
    answered [None] ([self.capture] is still [None]) and dropped from the list
    that held it. *)
Example use_before_the_definition_is_dropped :
  LazyRemover.run [ast.Name 8 "a" ast.Load] (ast.Name 2 "a" ast.Store)
    (ast.FunctionDef 0 "foo" []
       [ast.Print 6 [ast.Name 8 "a" ast.Load];
        ast.Assign 1 [ast.Name 2 "a" ast.Store] (ast.Num 3 (ast.PyInt 2))]) 10
  = Ok (ast.FunctionDef 0 "foo" [] [ast.Print 6 []; ast.Pass 10], 11).
Proof. vm_compute. reflexivity. Qed.

(** * Further properties of the passes *)

(** ** [ConstantFolding.to_ast] *)

Lemma value_of_literal_eq (e : ast.expr) :
  value_of_literal e =
  match e with
  | ast.Num _ n => Some (PyNum n)
  | ast.Str _ s => Some (PyStr s)
  | ast.Attribute _ (ast.Name _ m _) a _ =>
      if String.eqb m "__builtin__" then
        if String.eqb a "True" then Some (PyBool true)
        else if String.eqb a "False" then Some (PyBool false)
        else None
      else None
  | ast.List _ elts _ => option_map PyList (values_of_literals elts)
  | ast.Tuple _ elts _ => option_map PyTuple (values_of_literals elts)
  | ast.Set_ _ elts => option_map PySet (values_of_literals elts)
  | ast.Dict _ ks vs =>
      match values_of_literals ks, values_of_literals vs with
      | Some ks', Some vs' => Some (PyDict ks' vs')
      | _, _ => None
      end
  | _ => None
  end.
Proof. destruct e; reflexivity. Qed.

Lemma map_to_ast_read_back (l : list value) :
  Forall (fun v => forall st e st',
            ConstantFolding.to_ast v st = Ok (e, st') ->
            value_of_literal (erase_expr e) = Some v) l ->
  forall st es st',
    ConstantFolding.map_to_ast l st = Ok (es, st') ->
    values_of_literals (map erase_expr es) = Some l.
Proof.
  induction 1 as [|v l Hv _ IH]; intros st es st' H; simpl in H.
  - injection H as <- <-. reflexivity.
  - bind_inversion H. bind_inversion H. injection H as <- <-. simpl.
    rewrite (Hv _ _ _ Hstep), (IH _ _ _ Hstep0). reflexivity.
Qed.

Ltac read_container H E IH :=
  destruct (Nat.ltb _ ConstantFolding.MAX_LEN); [|discriminate];
  bind_inversion H; bind_inversion H; injection H as <- <-;
  cbn [erase_expr]; rewrite value_of_literal_eq;
  match goal with
  | Hm : ConstantFolding.map_to_ast _ _ = Ok _ |- _ =>
      rewrite (map_to_ast_read_back _ IH _ _ _ Hm)
  end; reflexivity.

(** The literal [to_ast] makes reads back as the value. *)
Lemma to_ast_read_back (v : value) :
  forall st e st',
    ConstantFolding.to_ast v st = Ok (e, st') ->
    value_of_literal (erase_expr e) = Some v.
Proof.
  induction v as [n|b|s|l IH|l IH|l IH|ks vs IHk IHv|t] using value_nested_ind;
    intros st e st' H.
  - simpl in H. injection H as <- <-. reflexivity.
  - simpl in H. injection H as <- <-. destruct b; reflexivity.
  - simpl in H. injection H as <- <-. reflexivity.
  - rewrite to_ast_PyList in H. read_container H E IH.
  - rewrite to_ast_PyTuple in H. read_container H E IH.
  - rewrite to_ast_PySet in H. read_container H E IH.
  - rewrite to_ast_PyDict in H.
    destruct (Nat.ltb _ ConstantFolding.MAX_LEN); [|discriminate].
    bind_inversion H. bind_inversion H. bind_inversion H.
    injection H as <- <-. cbn [erase_expr]. rewrite value_of_literal_eq.
    rewrite (map_to_ast_read_back _ IHk _ _ _ Hstep).
    rewrite (map_to_ast_read_back _ IHv _ _ _ Hstep0). reflexivity.
  - discriminate.
Qed.

(** X1.  [to_ast] answers a node exactly for the values that hold no object
    of another type and no container of [MAX_LEN] elements or more, at any
    depth; every node of the answer is a new object; for every other value it
    raises [ConversionError], and no other exception. *)
Theorem to_ast_converts_exactly (v : value) (st : nat) :
  (convertible ConstantFolding.MAX_LEN v = true ->
   exists e st',
     ConstantFolding.to_ast v st = Ok (e, st') /\ st <= st' /\
     Forall (fun i => st <= i < st') (expr_ids e)) /\
  (convertible ConstantFolding.MAX_LEN v = false ->
   ConstantFolding.to_ast v st = Raise ConversionError).
Proof.
  pose proof (to_ast_total v st) as H. unfold to_ast_answer in H.
  destruct (convertible ConstantFolding.MAX_LEN v).
  - split; [|discriminate]. intros _.
    destruct H as (e & st' & He & Hle & _ & Hids & _). eauto.
  - split; [discriminate|]. intros _. exact H.
Qed.

(** X2.  [to_ast] loses nothing: two values whose literals are the same
    program text (the same tree up to the identities of the nodes) are the
    same value. *)
Theorem to_ast_injective (v1 v2 : value) (st1 st2 : nat) e1 e2 st1' st2' :
  ConstantFolding.to_ast v1 st1 = Ok (e1, st1') ->
  ConstantFolding.to_ast v2 st2 = Ok (e2, st2') ->
  erase_expr e1 = erase_expr e2 ->
  v1 = v2.
Proof.
  intros H1 H2 He. apply to_ast_read_back in H1. apply to_ast_read_back in H2.
  rewrite He in H1. rewrite H1 in H2. injection H2 as ->. reflexivity.
Qed.

Lemma to_ast_injective_witness :
  PyList [PyNum (ast.PyInt 2); PyBool true]
  = PyList [PyNum (ast.PyInt 2); PyBool true].
Proof.
  apply (to_ast_injective _ _ 0 7
           (ast.List 3 [ast.Num 0 (ast.PyInt 2);
                        ast.Attribute 2 (ast.Name 1 "__builtin__" ast.Load)
                          "True" ast.Load] ast.Load)
           (ast.List 10 [ast.Num 7 (ast.PyInt 2);
                         ast.Attribute 9 (ast.Name 8 "__builtin__" ast.Load)
                           "True" ast.Load] ast.Load) 4 11).
  - reflexivity.
  - reflexivity.
  - reflexivity.
Defined.

Section ConstantFolding_further.

Variable constant_expressions : gset nat.
Variable eval : ast.expr -> exn + value.

Local Abbreviation fold := (ConstantFolding.fold eval).
Local Abbreviation hook := (ConstantFolding.generic_visit constant_expressions eval).
Local Abbreviation hook_stmt :=
  (ConstantFolding.generic_visit_statement constant_expressions).
Local Abbreviation gve := (generic_visit_expr hook).
Local Abbreviation ve := (visit_expr hook).
Local Abbreviation ves := (visit_exprs hook).
Local Abbreviation gvs := (generic_visit_stmt hook hook_stmt).
Local Abbreviation vss := (visit_stmts hook hook_stmt).

(** X3.  A fold keeps the kind of a subscript index: what replaces an
    [Index] node is an [Index] node around the literal of its value, what
    replaces any other node is the literal itself, which is never an
    [Index]. *)
Theorem fold_keeps_Index (node : ast.expr) (st : nat) new_node st' :
  fold node st = Ok (new_node, st') ->
  ConstantFolding.isinstance_Index new_node
  = ConstantFolding.isinstance_Index node /\
  exists v literal st1,
    eval (ConstantFolding.evaluated node) = inr v /\
    ConstantFolding.to_ast v st = Ok (literal, st1) /\
    ConstantFolding.isinstance_Index literal = false /\
    new_node = (if ConstantFolding.isinstance_Index node
                then ast.Index st1 literal else literal).
Proof.
  intros H. unfold ConstantFolding.fold in H. bind_inversion H.
  destruct (eval (ConstantFolding.evaluated node)) as [x|v] eqn:Ev;
    [discriminate|].
  injection Hstep as <- <-. bind_inversion H.
  pose proof (to_ast_total v st) as Ht. unfold to_ast_answer in Ht.
  destruct (convertible ConstantFolding.MAX_LEN v);
    [|rewrite Ht in Hstep; discriminate].
  destruct Ht as (e & st1 & He & _ & _ & _ & Hidx).
  rewrite He in Hstep. injection Hstep as <- <-. rewrite Hidx in H.
  destruct (ConstantFolding.isinstance_Index node); simpl in H;
    injection H as <- <-.
  - split; [reflexivity|]. exists v, e, st1. auto.
  - split; [exact Hidx|]. exists v, e, st1. auto.
Qed.

Local Abbreviation unflagged_ids l :=
  (Forall (fun i => i ∉ constant_expressions) l).

Lemma visit_exprs_all_unflagged (l : list ast.expr) (st : nat) :
  unflagged_ids (flat_map expr_ids l) -> ves l st = Ok (l, st).
Proof.
  intros H. apply visit_exprs_unflagged; [|exact H].
  apply List.Forall_forall. intros e _. apply generic_visit_unflagged.
Qed.

Lemma visit_stmts_unflagged (l : list ast.stmt) :
  Forall (fun s => unflagged_ids (stmt_expr_ids s) ->
                   forall st, gvs s st = Ok (s, st)) l ->
  unflagged_ids (flat_map stmt_expr_ids l) ->
  forall st, vss l st = Ok (l, st).
Proof.
  induction 1 as [|s l Hs _ IH]; intros Hids st; simpl; [reflexivity|].
  simpl in Hids. apply Forall_app in Hids. destruct Hids as [H1 H2].
  unfold visit_stmt.
  rewrite (generic_visit_statement_default constant_expressions).
  unfold default_visit_stmt.
  rewrite (bind_Ok _ _ _ _ _ (bind_Ok _ (fun n => ret [n]) _ _ _ (Hs H1 st))).
  unfold ret at 1. rewrite (bind_Ok _ _ _ _ _ (IH H2 st)). reflexivity.
Qed.

Ltac split_unflagged H :=
  repeat match type of H with
         | Forall _ (_ ++ _) =>
             let Hl := fresh "Hids" in
             apply Forall_app in H; destruct H as [Hl H]
         end.

Ltac untouched IH Hids st :=
  first [ rewrite (bind_Ok _ _ _ _ _
                     (field_Ok _ _ _ _
                        (visit_expression_unflagged constant_expressions eval
                           _ st Hids)))
        | rewrite (bind_Ok _ _ _ _ _ (visit_exprs_all_unflagged _ st Hids))
        | rewrite (bind_Ok _ _ _ _ _ (visit_stmts_unflagged _ IH Hids st)) ].

Lemma generic_visit_stmt_unflagged (s : ast.stmt) :
  unflagged_ids (stmt_expr_ids s) -> forall st, gvs s st = Ok (s, st).
Proof.
  induction s as [i name args body IH|i v|i targets v|i t o v|i values
                 |i t it body orelse IHb IHo|i t body orelse IHb IHo
                 |i t body orelse IHb IHo|i v|i|i|i]
    using stmt_nested_ind; intros Hids st;
    try destruct v as [v|];
    rewrite generic_visit_stmt_eq; try reflexivity;
    cbn [stmt_expr_ids] in Hids; split_unflagged Hids.
  - untouched I Hids0 st. untouched IH Hids st. reflexivity.
  - untouched I Hids st. reflexivity.
  - untouched I Hids0 st. untouched I Hids st. reflexivity.
  - untouched I Hids0 st. untouched I Hids st. reflexivity.
  - untouched I Hids st. reflexivity.
  - untouched I Hids0 st. untouched I Hids1 st. untouched IHb Hids2 st.
    untouched IHo Hids st. reflexivity.
  - untouched I Hids0 st. untouched IHb Hids1 st. untouched IHo Hids st.
    reflexivity.
  - untouched I Hids0 st. untouched IHb Hids1 st. untouched IHo Hids st.
    reflexivity.
  - untouched I Hids st. reflexivity.
Qed.

(** X4.  A tree none of whose expression nodes is in the constant-expression
    set is returned as it is and no node is created, whether its statement
    nodes are in the set or not. *)
Theorem unflagged_tree_is_untouched (body : list ast.stmt) (st : nat) :
  Forall (fun i => i ∉ constant_expressions) (flat_map stmt_expr_ids body) ->
  ConstantFolding.visit_body constant_expressions eval body st = Ok (body, st).
Proof.
  intros H. unfold ConstantFolding.visit_body.
  apply visit_stmts_unflagged; [|exact H].
  apply List.Forall_forall. intros s _. apply generic_visit_stmt_unflagged.
Qed.

Lemma generic_visit_stmt_same_id (s : ast.stmt) (st : nat) s1 st1 :
  gvs s st = Ok (s1, st1) -> stmt_id s1 = stmt_id s.
Proof.
  intros H. destruct s as [|i [v|]| | | | | | | | | |];
    invert_generic H; reflexivity.
Qed.

(** X5.  A statement is never folded, removed or split: whether it is in
    the constant-expression set or not, its visit answers exactly one
    statement, the same node. *)
Theorem statements_are_never_folded (s : ast.stmt) (st : nat) :
  exists s1 st1,
    ConstantFolding.visit constant_expressions eval s st = Ok ([s1], st1) /\
    stmt_id s1 = stmt_id s /\ st <= st1.
Proof.
  destruct (generic_visit_stmt_answers constant_expressions eval s st)
    as (s1 & st1 & H & Hle).
  exists s1, st1. split; [|split; [|exact Hle]].
  - unfold ConstantFolding.visit, visit_stmt.
    rewrite (generic_visit_statement_default constant_expressions).
    unfold default_visit_stmt. rewrite (bind_Ok _ _ _ _ _ H). reflexivity.
  - eapply generic_visit_stmt_same_id, H.
Qed.

End ConstantFolding_further.

Lemma unflagged_tree_is_untouched_witness :
  ConstantFolding.visit_body ({[ 10; 11 ]} : gset nat) arith_eval
    [CF_example.foo] 20
  = Ok ([CF_example.foo], 20).
Proof.
  apply unflagged_tree_is_untouched.
  repeat constructor; intros Hi; set_unfold; lia.
Defined.

Lemma fold_keeps_Index_witness :
  ConstantFolding.isinstance_Index
    (ast.Index 21 (ast.Num 20 (ast.PyInt 4)))
  = ConstantFolding.isinstance_Index
      (ast.Index 9 (ast.BinOp 12 (ast.Num 13 (ast.PyInt 1)) ast.Add
                      (ast.Num 14 (ast.PyInt 3)))).
Proof.
  exact (proj1 (fold_keeps_Index arith_eval
                  (ast.Index 9 (ast.BinOp 12 (ast.Num 13 (ast.PyInt 1)) ast.Add
                                  (ast.Num 14 (ast.PyInt 3))))
                  20 (ast.Index 21 (ast.Num 20 (ast.PyInt 4))) 22 eq_refl)).
Defined.

(** ** Reasoning on what a computation ends in *)

Lemma ends_in_bind {S A B} (allowed : exn -> Prop)
    (mid : A -> S -> Prop) (post : B -> S -> Prop)
    (m : M S A) (k : A -> M S B) (s : S) :
  ends_in allowed mid (m s) ->
  (forall a s', mid a s' -> ends_in allowed post (k a s')) ->
  ends_in allowed post (bind m k s).
Proof.
  unfold bind. destruct (m s) as [[a s']| e |]; simpl; auto.
Qed.

Lemma ends_in_weaken {S A} (allowed : exn -> Prop) (post post' : A -> S -> Prop)
    (r : outcome (A * S)) :
  ends_in allowed post r -> (forall a s, post a s -> post' a s) ->
  ends_in allowed post' r.
Proof. destruct r as [[a s]| e |]; simpl; auto. Qed.

Lemma ends_in_Ok {S A} (allowed : exn -> Prop) (post : A -> S -> Prop)
    (m : M S A) (s : S) a s' :
  m s = Ok (a, s') -> post a s' -> ends_in allowed post (m s).
Proof. intros -> H. exact H. Qed.

(** ** [DeadCodeElimination]: the whole pass *)

Section DeadCodeElimination_pass.

Variable pure_expressions : gset nat.
Variable used_def_chain : gmap string ud_graph.

Local Abbreviation used_target := (DeadCodeElimination.used_target used_def_chain).
Local Abbreviation hook_stmt :=
  (DeadCodeElimination.visit_stmt_method pure_expressions used_def_chain).
Local Abbreviation ve := (visit_expr (S := nat) default_visit_expr).
Local Abbreviation ves := (visit_exprs (S := nat) default_visit_expr).
Local Abbreviation gvs := (generic_visit_stmt default_visit_expr hook_stmt).
Local Abbreviation vs := (visit_stmt default_visit_expr hook_stmt).
Local Abbreviation vss := (visit_stmts default_visit_expr hook_stmt).

(** The exception of a failed lookup [used_def_chain[node.id]]. *)
Local Abbreviation missing_chain :=
  (fun e => exists id, e = KeyError id /\ used_def_chain !! id = None).

Local Abbreviation one_statement st :=
  (fun (out : list ast.stmt) (st' : nat) => length out = 1 /\ st <= st').

Lemma visit_Assign_ends (i : nat) (targets : list ast.expr) (value : ast.expr)
    (st : nat) :
  ends_in missing_chain (one_statement st)
    (DeadCodeElimination.visit_Assign pure_expressions used_def_chain
       i targets value st).
Proof.
  unfold DeadCodeElimination.visit_Assign.
  eapply ends_in_bind with (mid := fun _ s' => s' = st).
  - pose proof (filter_used_target_outcome used_def_chain targets st) as H.
    destruct (filterM used_target targets st) as [[l s']| e |]; simpl.
    + apply H.
    + destruct H as (j & id & ctx & -> & _ & Hn). eauto.
    + exact H.
  - intros l s' ->. destruct l as [|t l]; [|simpl; auto].
    destruct (in_set (expr_id value) pure_expressions); simpl; auto.
Qed.

Lemma visit_Expr_ends (i : nat) (value : ast.expr) (st : nat) :
  ends_in missing_chain (one_statement st)
    (DeadCodeElimination.visit_Expr pure_expressions i value st).
Proof.
  unfold DeadCodeElimination.visit_Expr.
  destruct (in_set i pure_expressions && _); simpl; auto.
Qed.

Local Abbreviation stmt_ends s :=
  (forall st, ends_in missing_chain (fun (_ : ast.stmt) st' => st <= st')
                (gvs s st)).

Lemma visit_ends_of_generic (s : ast.stmt) :
  stmt_ends s ->
  forall st, ends_in missing_chain (one_statement st) (vs s st).
Proof.
  intros Hs st. unfold visit_stmt.
  destruct s; try apply visit_Assign_ends; try apply visit_Expr_ends;
    cbn [DeadCodeElimination.visit_stmt_method]; unfold default_visit_stmt;
    (eapply ends_in_bind; [apply Hs|]); intros a s' Hle; simpl; auto.
Qed.

Lemma visit_stmts_end (l : list ast.stmt) :
  Forall (fun s => stmt_ends s) l ->
  forall st,
    ends_in missing_chain
      (fun (out : list ast.stmt) st' => length out = length l /\ st <= st')
      (vss l st).
Proof.
  induction 1 as [|s l Hs _ IH]; intros st; simpl; [auto|].
  eapply ends_in_bind; [apply (visit_ends_of_generic s Hs)|].
  intros r s1 [Hlen Hle]. eapply ends_in_bind; [apply IH|].
  intros rs s2 [Hlen2 Hle2]. simpl. rewrite length_app.
  split; [lia | lia].
Qed.

Ltac pass_expr e st :=
  first [ rewrite (bind_Ok _ _ _ _ _
                     (field_Ok _ _ _ _ (default_visit_expr_same e st)))
        | rewrite (bind_Ok _ _ _ _ _ (default_visit_exprs_same e st)) ].

Ltac pass_stmts IH :=
  eapply ends_in_bind; [apply (visit_stmts_end _ IH)|];
  let b := fresh "b" in
  let s := fresh "s" in
  let Hlen := fresh "Hlen" in
  let Hle := fresh "Hle" in
  intros b s [Hlen Hle].

Lemma generic_visit_stmt_ends (s : ast.stmt) : stmt_ends s.
Proof.
  induction s as [i name args body IH|i v|i targets v|i t o v|i values
                 |i t it body orelse IHb IHo|i t body orelse IHb IHo
                 |i t body orelse IHb IHo|i v|i|i|i]
    using stmt_nested_ind; intros st;
    try destruct v as [v|];
    rewrite generic_visit_stmt_eq; try (simpl; lia).
  - pass_expr args st. pass_stmts IH. simpl. lia.
  - pass_expr v st. simpl. lia.
  - pass_expr targets st. pass_expr v st. simpl. lia.
  - pass_expr t st. pass_expr v st. simpl. lia.
  - pass_expr values st. simpl. lia.
  - pass_expr t st. pass_expr it st. pass_stmts IHb. pass_stmts IHo.
    simpl. lia.
  - pass_expr t st. pass_stmts IHb. pass_stmts IHo. simpl. lia.
  - pass_expr t st. pass_stmts IHb. pass_stmts IHo. simpl. lia.
  - pass_expr v st. simpl. lia.
Qed.

(** X6.  Dead code elimination never deletes a statement from a statement
    sequence and never splits one: the traversal of a sequence answers a
    sequence of the same length; the only exception it can raise is the
    KeyError of a target name that has no use-def chain. *)
Theorem DeadCodeElimination_keeps_the_statement_count
    (body : list ast.stmt) (st : nat) :
  ends_in (fun e => exists id, e = KeyError id /\ used_def_chain !! id = None)
    (fun out st' => length out = length body /\ st <= st')
    (DeadCodeElimination_body pure_expressions used_def_chain body st).
Proof.
  apply visit_stmts_end, List.Forall_forall.
  intros s _. apply generic_visit_stmt_ends.
Qed.

Lemma used_target_again (t : ast.expr) (st : nat) b s :
  used_target t st = Ok (b, s) ->
  s = st /\ forall st2, used_target t st2 = Ok (b, st2).
Proof.
  destruct t; simpl; try (intros H; injection H as <- <-; auto).
  destruct (used_def_chain !! id); [|discriminate].
  intros H. injection H as <- <-. auto.
Qed.

Lemma filter_used_target_again (targets : list ast.expr) :
  forall st l st',
    filterM used_target targets st = Ok (l, st') ->
    st' = st /\ forall st2, filterM used_target l st2 = Ok (l, st2).
Proof.
  induction targets as [|t targets IH]; intros st l st' H; simpl in H.
  - injection H as <- <-. auto.
  - bind_inversion H. bind_inversion H. injection H as <- <-.
    destruct (used_target_again _ _ _ _ Hstep) as [-> Ht].
    destruct (IH _ _ _ Hstep0) as [-> Hl]. split; [reflexivity|].
    intros st2. destruct a; [|apply Hl]. simpl.
    rewrite (bind_Ok _ _ _ _ _ (Ht st2)). rewrite (bind_Ok _ _ _ _ _ (Hl st2)).
    reflexivity.
Qed.

Local Abbreviation older_than st :=
  (forall i, i ∈ pure_expressions -> i < st).

Local Abbreviation settles s :=
  (forall st out st', vs s st = Ok (out, st') -> older_than st ->
     exists s', out = [s'] /\ forall st2, vs s' st2 = Ok ([s'], st2)).

Lemma visit_grows (s : ast.stmt) (st : nat) out st' :
  vs s st = Ok (out, st') -> st <= st'.
Proof.
  intros H.
  pose proof (visit_ends_of_generic s (generic_visit_stmt_ends s) st) as He.
  rewrite H in He. apply He.
Qed.

Lemma visit_stmts_grow (l : list ast.stmt) (st : nat) out st' :
  vss l st = Ok (out, st') -> st <= st'.
Proof.
  intros H.
  assert (Hl : Forall (fun s => stmt_ends s) l).
  { apply List.Forall_forall. intros s _. apply generic_visit_stmt_ends. }
  pose proof (visit_stmts_end l Hl st) as He.
  rewrite H in He. apply He.
Qed.

Lemma visit_stmts_settle_DCE (l : list ast.stmt) :
  Forall (fun s => settles s) l ->
  forall st out st', vss l st = Ok (out, st') -> older_than st ->
                     forall st2, vss out st2 = Ok (out, st2).
Proof.
  induction 1 as [|s l Hs _ IH]; intros st out st' H Hold st2; simpl in H.
  - injection H as <- <-. reflexivity.
  - bind_inversion H. bind_inversion H. injection H as <- <-.
    destruct (Hs _ _ _ Hstep Hold) as (s' & -> & Hs').
    assert (Hold' : older_than s0).
    { intros j Hj. specialize (Hold j Hj).
      pose proof (visit_grows _ _ _ _ Hstep). lia. }
    simpl. rewrite (bind_Ok _ _ _ _ _ (Hs' st2)).
    rewrite (bind_Ok _ _ _ _ _ (IH _ _ _ Hstep0 Hold' st2)). reflexivity.
Qed.

Ltac same_exprs :=
  repeat match goal with
         | Hv : visit_expr default_visit_expr _ _ = Ok _ |- _ =>
             rewrite default_visit_expr_same in Hv; injection Hv as <- <-
         | Hv : visit_exprs default_visit_expr _ _ = Ok _ |- _ =>
             rewrite default_visit_exprs_same in Hv; injection Hv as <- <-
         end.

Lemma default_stmt_of_generic (s : ast.stmt) (gv : M nat ast.stmt) (st : nat) :
  gv st = Ok (s, st) -> default_visit_stmt s gv st = Ok ([s], st).
Proof.
  intros H. unfold default_visit_stmt. rewrite (bind_Ok _ _ _ _ _ H).
  reflexivity.
Qed.

Ltac open_default H st2 :=
  unfold default_visit_stmt in H; bind_inversion H; injection H as <- <-;
  match goal with
  | Hg : generic_visit_stmt _ _ _ _ = Ok _ |- _ => invert_generic Hg
  end;
  same_exprs;
  eexists; split; [reflexivity|]; intros st2;
  unfold visit_stmt; cbn [DeadCodeElimination.visit_stmt_method];
  apply default_stmt_of_generic; rewrite generic_visit_stmt_eq.

Ltac again IH Hv Hold st2 :=
  rewrite (bind_Ok _ _ _ _ _ (visit_stmts_settle_DCE _ IH _ _ _ Hv Hold st2)).

(** What a visit answers is answered as it is by a second visit. *)
Lemma visit_settles_DCE (s : ast.stmt) : settles s.
Proof.
  induction s as [i name args body IH|i v|i targets v|i t o v|i values
                 |i t it body orelse IHb IHo|i t body orelse IHb IHo
                 |i t body orelse IHb IHo|i v|i|i|i]
    using stmt_nested_ind; intros st out st' H Hold;
    unfold visit_stmt in H; cbn [DeadCodeElimination.visit_stmt_method] in H.
  - open_default H st2. pass_expr args st2. again IH Hvisit0 Hold st2.
    reflexivity.
  - destruct v as [v|]; open_default H st2; [pass_expr v st2|]; reflexivity.
  - unfold DeadCodeElimination.visit_Assign in H. bind_inversion H.
    destruct (filter_used_target_again _ _ _ _ Hstep) as [-> Hl].
    destruct a as [|t l].
    + destruct (in_set (expr_id v) pure_expressions);
        bind_inversion H; injection Hstep0 as <- <-; injection H as <- <-;
        eexists; (split; [reflexivity|]); intros st2; [reflexivity|].
      unfold visit_stmt. cbn [DeadCodeElimination.visit_stmt_method].
      unfold DeadCodeElimination.visit_Expr, in_set.
      rewrite bool_decide_eq_false_2; [reflexivity|].
      intros Hin. specialize (Hold _ Hin). lia.
    + injection H as <- <-. eexists. split; [reflexivity|]. intros st2.
      unfold visit_stmt. cbn [DeadCodeElimination.visit_stmt_method].
      unfold DeadCodeElimination.visit_Assign.
      rewrite (bind_Ok _ _ _ _ _ (Hl st2)). reflexivity.
  - open_default H st2. pass_expr t st2. pass_expr v st2. reflexivity.
  - open_default H st2. pass_expr values st2. reflexivity.
  - open_default H st2. pass_expr t st2. pass_expr it st2.
    assert (Hold2 : older_than s2).
    { intros j Hj. specialize (Hold j Hj).
      pose proof (visit_stmts_grow _ _ _ _ Hvisit1). lia. }
    again IHb Hvisit1 Hold st2. again IHo Hvisit2 Hold2 st2. reflexivity.
  - open_default H st2. pass_expr t st2.
    assert (Hold2 : older_than s1).
    { intros j Hj. specialize (Hold j Hj).
      pose proof (visit_stmts_grow _ _ _ _ Hvisit0). lia. }
    again IHb Hvisit0 Hold st2. again IHo Hvisit1 Hold2 st2. reflexivity.
  - open_default H st2. pass_expr t st2.
    assert (Hold2 : older_than s1).
    { intros j Hj. specialize (Hold j Hj).
      pose proof (visit_stmts_grow _ _ _ _ Hvisit0). lia. }
    again IHb Hvisit0 Hold st2. again IHo Hvisit1 Hold2 st2. reflexivity.
  - unfold DeadCodeElimination.visit_Expr in H.
    destruct (in_set i pure_expressions
              && negb (DeadCodeElimination.isinstance_Yield v)) eqn:E.
    + bind_inversion H. injection Hstep as <- <-. injection H as <- <-.
      eexists. split; [reflexivity|]. intros st2. reflexivity.
    + injection H as <- <-. eexists. split; [reflexivity|]. intros st2.
      unfold visit_stmt. cbn [DeadCodeElimination.visit_stmt_method].
      unfold DeadCodeElimination.visit_Expr. rewrite E. reflexivity.
  - open_default H st2. reflexivity.
  - open_default H st2. reflexivity.
  - open_default H st2. reflexivity.
Qed.

(** X7.  Dead code elimination is idempotent: when the traversal of a
    statement sequence answers, a second traversal with the same analysis
    results answers the same sequence and creates no node (the identities the
    pass hands out, from [st] on, are newer than the nodes of the
    pure-expression set). *)
Theorem DeadCodeElimination_idempotent
    (body : list ast.stmt) (st : nat) out st' :
  (forall i, i ∈ pure_expressions -> i < st) ->
  DeadCodeElimination_body pure_expressions used_def_chain body st
  = Ok (out, st') ->
  DeadCodeElimination_body pure_expressions used_def_chain out st'
  = Ok (out, st').
Proof.
  intros Hold H. unfold DeadCodeElimination_body in *.
  apply (visit_stmts_settle_DCE body) with (st := st) (st' := st'); auto.
  apply List.Forall_forall. intros s _. apply visit_settles_DCE.
Qed.

End DeadCodeElimination_pass.

(** The doctest of [DeadCodeElimination] and a second run on its result. *)
Lemma DeadCodeElimination_idempotent_witness :
  DeadCodeElimination_body DCE_example.pure DCE_example.chains
    [ast.FunctionDef 0 "foo" []
       [ast.Pass 8; ast.Return 6 (Some (ast.Num 7 (ast.PyInt 1)))]] 9
  = Ok ([ast.FunctionDef 0 "foo" []
           [ast.Pass 8; ast.Return 6 (Some (ast.Num 7 (ast.PyInt 1)))]], 9).
Proof.
  apply (DeadCodeElimination_idempotent DCE_example.pure DCE_example.chains
           [DCE_example.foo] 8).
  - intros i Hi. unfold DCE_example.pure in Hi. set_unfold. lia.
  - vm_compute. reflexivity.
Defined.

(** ** [LoopFullUnrolling]: further properties *)

Lemma unrolled_has_text (target : ast.expr) (body : list ast.stmt)
    (elts : list ast.expr) :
  forall st out st',
    unrolled target body elts st out st' ->
    map erase_stmt out = unrolled_text target body elts.
Proof.
  induction elts as [|elt elts IH]; intros st out st' H; simpl in H.
  - destruct H as [-> _]. reflexivity.
  - destruct H as (t' & j & b' & s1 & out' & -> & [Ht _] & _ & [Hb _] & Hrest).
    unfold unrolled_text. simpl. rewrite map_app, Ht, Hb.
    rewrite (IH _ _ _ Hrest). reflexivity.
Qed.

Lemma unrolled_text_length (target : ast.expr) (body : list ast.stmt)
    (elts : list ast.expr) :
  length (unrolled_text target body elts) = length elts * S (length body).
Proof.
  unfold unrolled_text. induction elts as [|elt elts IH]; simpl; [reflexivity|].
  rewrite length_app, length_map, IH. reflexivity.
Qed.

Section LoopFullUnrolling_further.

Variable metadata_get_OMPDirective : nat -> list OMPDirective.
Variable HasBreak : ast.stmt -> bool.
Variable HasContinue : ast.stmt -> bool.
Variable NodeCount : ast.stmt -> nat.

Local Abbreviation hook_stmt :=
  (LoopFullUnrolling.visit_stmt_method metadata_get_OMPDirective HasBreak
     HasContinue NodeCount).
Local Abbreviation visit :=
  (LoopFullUnrolling.visit metadata_get_OMPDirective HasBreak HasContinue
     NodeCount).
Local Abbreviation visit_body :=
  (LoopFullUnrolling.visit_body metadata_get_OMPDirective HasBreak HasContinue
     NodeCount).
Local Abbreviation gvs := (generic_visit_stmt default_visit_expr hook_stmt).
Local Abbreviation vs := (visit_stmt default_visit_expr hook_stmt).
Local Abbreviation vss := (visit_stmts default_visit_expr hook_stmt).

(** The loop that passes every guard: what [visit_For] computes. *)
Lemma visit_For_guarded
    (i : nat) (target : ast.expr) (j : nat) (elts : list ast.expr)
    (c : ast.expr_context) (body orelse : list ast.stmt) (st : nat)
    (body' : list ast.stmt) (s1 : nat) (orelse' : list ast.stmt) (st1 : nat) :
  visit_body body st = Ok (body', s1) ->
  visit_body orelse s1 = Ok (orelse', st1) ->
  metadata_get_OMPDirective i = [] ->
  existsb HasBreak body' = false ->
  existsb HasContinue body' = false ->
  NodeCount (ast.For i target (ast.List j elts c) body' orelse') * length elts
  < LoopFullUnrolling.MAX_NODE_COUNT ->
  visit (ast.For i target (ast.List j elts c) body orelse) st
  = (parts <- mapM (LoopFullUnrolling.unroll target body') elts ;;
     reduce_add parts) st1.
Proof.
  intros Hb Ho Homp Hbreak Hcont Hsmall.
  unfold LoopFullUnrolling.visit, visit_stmt.
  unfold LoopFullUnrolling.visit_stmt_method, LoopFullUnrolling.visit_For.
  pose proof (generic_visit_For metadata_get_OMPDirective HasBreak HasContinue
                NodeCount i target (ast.List j elts c) _ _ _ _ _ _ _
                Hb Ho) as Hg.
  unfold LoopFullUnrolling.generic_visit in Hg.
  rewrite (bind_Ok _ _ _ _ _ Hg).
  rewrite Homp, Hbreak, Hcont. cbn [LoopFullUnrolling.truthy orb negb andb].
  apply Nat.ltb_lt in Hsmall. rewrite Hsmall. reflexivity.
Qed.

(** X8.  A for-loop over an empty literal list, without OpenMP directive and
    without break or continue in its body, is not replaced by an empty
    sequence: every guard holds (0 nodes < 512) and
    [reduce(list.__add__, [])] raises TypeError. *)
Theorem visit_For_empty_list_raises
    (i : nat) (target : ast.expr) (j : nat) (c : ast.expr_context)
    (body orelse : list ast.stmt) (st : nat)
    (body' : list ast.stmt) (s1 : nat) (orelse' : list ast.stmt) (st1 : nat) :
  visit_body body st = Ok (body', s1) ->
  visit_body orelse s1 = Ok (orelse', st1) ->
  metadata_get_OMPDirective i = [] ->
  existsb HasBreak body' = false ->
  existsb HasContinue body' = false ->
  visit (ast.For i target (ast.List j [] c) body orelse) st = Raise TypeError.
Proof.
  intros Hb Ho Homp Hbreak Hcont.
  rewrite (visit_For_guarded i target j [] c body orelse st body' s1 orelse' st1
             Hb Ho Homp Hbreak Hcont).
  - reflexivity.
  - simpl. rewrite Nat.mul_0_r. unfold LoopFullUnrolling.MAX_NODE_COUNT. lia.
Qed.

(** X9.  The unrolled loop, as program text, is for each element in order
    the assignment of the element to the loop variable followed by the
    (transformed) body: [len(elts) * (1 + len(body))] statements.  It holds
    nothing of the else-branch of the loop, which is dropped. *)
Theorem unrolled_loop_drops_the_else_branch
    (i : nat) (target : ast.expr) (j : nat) (elts : list ast.expr)
    (c : ast.expr_context) (body orelse : list ast.stmt) (st : nat)
    (body' : list ast.stmt) (s1 : nat) (orelse' : list ast.stmt) (st1 : nat) :
  visit_body body st = Ok (body', s1) ->
  visit_body orelse s1 = Ok (orelse', st1) ->
  elts <> [] ->
  metadata_get_OMPDirective i = [] ->
  existsb HasBreak body' = false ->
  existsb HasContinue body' = false ->
  NodeCount (ast.For i target (ast.List j elts c) body' orelse') * length elts
  < LoopFullUnrolling.MAX_NODE_COUNT ->
  exists out st2,
    visit (ast.For i target (ast.List j elts c) body orelse) st = Ok (out, st2) /\
    map erase_stmt out = unrolled_text target body' elts /\
    length out = length elts * S (length body').
Proof.
  intros Hb Ho Hne Homp Hbreak Hcont Hsmall.
  destruct (map_unroll_unrolled target body' elts st1)
    as (parts & st2 & Hm & _ & Hlen & Hun).
  exists (concat parts), st2.
  pose proof (unrolled_has_text _ _ _ _ _ _ Hun) as Htext.
  split; [|split; [exact Htext|]].
  - rewrite (visit_For_guarded i target j elts c body orelse st body' s1
               orelse' st1 Hb Ho Homp Hbreak Hcont Hsmall).
    rewrite (bind_Ok _ _ _ _ _ Hm). apply reduce_add_concat.
    destruct parts; [|discriminate]. destruct elts; [congruence | discriminate].
  - rewrite <- (length_map erase_stmt), Htext. apply unrolled_text_length.
Qed.

Lemma visit_stmts_without_For (l : list ast.stmt) :
  Forall (fun s => contains_For s = false ->
                   forall st, vs s st = Ok ([s], st)) l ->
  existsb contains_For l = false ->
  forall st, vss l st = Ok (l, st).
Proof.
  induction 1 as [|s l Hs _ IH]; intros Hno st; simpl; [reflexivity|].
  simpl in Hno. apply orb_false_iff in Hno. destruct Hno as [H1 H2].
  rewrite (bind_Ok _ _ _ _ _ (Hs H1 st)).
  rewrite (bind_Ok _ _ _ _ _ (IH H2 st)). reflexivity.
Qed.

Ltac keep_expr e st :=
  first [ rewrite (bind_Ok _ _ _ _ _
                     (field_Ok _ _ _ _ (default_visit_expr_same e st)))
        | rewrite (bind_Ok _ _ _ _ _ (default_visit_exprs_same e st)) ].

Ltac keep_stmts IH Hno st :=
  rewrite (bind_Ok _ _ _ _ _ (visit_stmts_without_For _ IH Hno st)).

Lemma visit_without_For (s : ast.stmt) :
  contains_For s = false -> forall st, vs s st = Ok ([s], st).
Proof.
  induction s as [i name args body IH|i v|i targets v|i t o v|i values
                 |i t it body orelse IHb IHo|i t body orelse IHb IHo
                 |i t body orelse IHb IHo|i v|i|i|i]
    using stmt_nested_ind; intros Hno st; cbn [contains_For] in Hno;
    try discriminate;
    try (apply orb_false_iff in Hno; destruct Hno as [Hno1 Hno2]);
    unfold visit_stmt; cbn [LoopFullUnrolling.visit_stmt_method];
    apply default_stmt_of_generic; try destruct v as [v|];
    rewrite generic_visit_stmt_eq; try reflexivity.
  - keep_expr args st. keep_stmts IH Hno st. reflexivity.
  - keep_expr v st. reflexivity.
  - keep_expr targets st. keep_expr v st. reflexivity.
  - keep_expr t st. keep_expr v st. reflexivity.
  - keep_expr values st. reflexivity.
  - keep_expr t st. keep_stmts IHb Hno1 st. keep_stmts IHo Hno2 st.
    reflexivity.
  - keep_expr t st. keep_stmts IHb Hno1 st. keep_stmts IHo Hno2 st.
    reflexivity.
  - keep_expr v st. reflexivity.
Qed.

(** X10.  The unrolling pass changes for-loops only: a statement sequence
    without for-loop, at any depth, is returned as it is and no node is
    created. *)
Theorem unrolling_changes_loops_only (body : list ast.stmt) (st : nat) :
  existsb contains_For body = false ->
  visit_body body st = Ok (body, st).
Proof.
  intros Hno. unfold LoopFullUnrolling.visit_body.
  apply visit_stmts_without_For; [|exact Hno].
  apply List.Forall_forall. intros s _. apply visit_without_For.
Qed.

End LoopFullUnrolling_further.

Lemma visit_For_empty_list_raises_witness :
  LFU_example.visit LFU_example.empty_loop 4 = Raise TypeError.
Proof.
  apply (visit_For_empty_list_raises LFU_example.no_directive
           LFU_example.no_break LFU_example.no_continue count_stmt
           0 (ast.Name 1 "j" ast.Store) 2 ast.Load [ast.Pass 3] [] 4
           [ast.Pass 3] 4 [] 4); reflexivity.
Defined.

Lemma unrolled_loop_drops_the_else_branch_witness :
  exists out st2,
    LFU_example.visit loop_with_else 10 = Ok (out, st2) /\
    map erase_stmt out
    = unrolled_text (ast.Name 1 "j" ast.Store)
        [ast.AugAssign 6 (ast.Name 7 "i" ast.Store) ast.Add
           (ast.Name 8 "j" ast.Load)]
        [ast.Num 3 (ast.PyInt 1); ast.Num 4 (ast.PyInt 2)] /\
    length out = 4.
Proof.
  refine (unrolled_loop_drops_the_else_branch LFU_example.no_directive
            LFU_example.no_break LFU_example.no_continue count_stmt
            0 (ast.Name 1 "j" ast.Store) 2
            [ast.Num 3 (ast.PyInt 1); ast.Num 4 (ast.PyInt 2)] ast.Load
            [ast.AugAssign 6 (ast.Name 7 "i" ast.Store) ast.Add
               (ast.Name 8 "j" ast.Load)]
            [ast.Pass 9] 10
            [ast.AugAssign 6 (ast.Name 7 "i" ast.Store) ast.Add
               (ast.Name 8 "j" ast.Load)]
            10 [ast.Pass 9] 10 _ _ _ _ _ _ _).
  - reflexivity.
  - reflexivity.
  - discriminate.
  - reflexivity.
  - reflexivity.
  - reflexivity.
  - vm_compute. lia.
Defined.

Lemma unrolling_changes_loops_only_witness :
  LoopFullUnrolling.visit_body LFU_example.no_directive LFU_example.no_break
    LFU_example.no_continue count_stmt [DCE_example.foo] 20
  = Ok ([DCE_example.foo], 20).
Proof. apply unrolling_changes_loops_only. reflexivity. Defined.

(** ** [_LazyRemover]: further properties *)

Section LazyRemover_further.

Variable U : list ast.expr.
Variable D : ast.expr.

Local Abbreviation hook := (LazyRemover.visit_expr_method U).
Local Abbreviation hook_stmt := (LazyRemover.visit_stmt_method D).
Local Abbreviation gve := (generic_visit_expr hook).
Local Abbreviation ve := (visit_expr hook).
Local Abbreviation ves := (visit_exprs hook).
Local Abbreviation gvs := (generic_visit_stmt hook hook_stmt).
Local Abbreviation vss := (visit_stmts hook hook_stmt).

Lemma visit_exprs_unmentioned (l : list ast.expr) :
  Forall (fun e => mentions U e = false ->
                   forall st, ve e st = Ok (Some e, st)) l ->
  existsb (mentions U) l = false ->
  forall st, ves l st = Ok (l, st).
Proof.
  induction 1 as [|e l He _ IH]; intros Hno st; simpl; [reflexivity|].
  simpl in Hno. apply orb_false_iff in Hno. destruct Hno as [H1 H2].
  rewrite (bind_Ok _ _ _ _ _ (He H1 st)).
  rewrite (bind_Ok _ _ _ _ _ (IH H2 st)). reflexivity.
Qed.

Ltac unmentioned IH Hno st :=
  first [ rewrite (bind_Ok _ _ _ _ _ (field_Ok _ _ _ _ (IH Hno st)))
        | rewrite (bind_Ok _ _ _ _ _ (visit_exprs_unmentioned _ IH Hno st)) ].

(** An expression without U occurrence is answered as it is, whatever is
    captured. *)
Lemma visit_expression_unmentioned (e : ast.expr) :
  mentions U e = false -> forall st, ve e st = Ok (Some e, st).
Proof.
  induction e as [i n|i s|i id x|i v a x IHv|i l o r IHl IHr
                 |i f args IHf IHargs|i elts x IH|i elts x IH|i elts IH
                 |i ks vs IHk IHv|i v sl x IHv IHsl|i v IHv|i|i v IHv]
    using expr_nested_ind; intros Hno st; cbn [mentions] in Hno;
    try (apply orb_false_iff in Hno; destruct Hno as [Hno1 Hno2]);
    try (apply visit_of_generic_substituted; [reflexivity|];
         rewrite generic_visit_expr_eq).
  - reflexivity.
  - reflexivity.
  - unfold visit_expr. cbn [LazyRemover.visit_expr_method].
    unfold LazyRemover.visit_Name. rewrite Hno. reflexivity.
  - unmentioned IHv Hno st. reflexivity.
  - unmentioned IHl Hno1 st. unmentioned IHr Hno2 st. reflexivity.
  - unmentioned IHf Hno1 st. unmentioned IHargs Hno2 st. reflexivity.
  - unmentioned IH Hno st. reflexivity.
  - unmentioned IH Hno st. reflexivity.
  - unmentioned IH Hno st. reflexivity.
  - unmentioned IHk Hno1 st. unmentioned IHv Hno2 st. reflexivity.
  - unmentioned IHv Hno1 st. unmentioned IHsl Hno2 st. reflexivity.
  - unmentioned IHv Hno st. reflexivity.
  - reflexivity.
  - unmentioned IHv Hno st. reflexivity.
Qed.

Lemma visit_expressions_unmentioned (l : list ast.expr) (st : LazyRemover.state) :
  existsb (mentions U) l = false -> ves l st = Ok (l, st).
Proof.
  intros H. apply visit_exprs_unmentioned; [|exact H].
  apply List.Forall_forall. intros e _. apply visit_expression_unmentioned.
Qed.

Local Abbreviation untouched s :=
  (stmt_mentions U s = false -> assigns_to D s = false ->
   forall st, LazyRemover.visit U D s st = Ok (s, st)).

Lemma visit_stmts_unmentioned (l : list ast.stmt) :
  Forall (fun s => untouched s) l ->
  existsb (stmt_mentions U) l = false -> existsb (assigns_to D) l = false ->
  forall st, vss l st = Ok (l, st).
Proof.
  induction 1 as [|s l Hs _ IH]; intros Hm Ha st; simpl; [reflexivity|].
  simpl in Hm, Ha. apply orb_false_iff in Hm, Ha.
  destruct Hm as [Hm1 Hm2]. destruct Ha as [Ha1 Ha2].
  unfold visit_stmt at 1. unfold LazyRemover.visit_stmt_method.
  specialize (Hs Hm1 Ha1 st). unfold LazyRemover.visit in Hs.
  rewrite (bind_Ok _ _ _ _ _ (bind_Ok _ (fun n => ret [n]) _ _ _ Hs)).
  unfold ret at 1. rewrite (bind_Ok _ _ _ _ _ (IH Hm2 Ha2 st)). reflexivity.
Qed.

Ltac split_false :=
  repeat match goal with
         | H : _ || _ = false |- _ =>
             apply orb_false_iff in H; destruct H
         end.

Ltac keep_child IH :=
  erewrite bind_Ok;
  [| solve [ apply field_Ok, visit_expression_unmentioned; assumption
           | apply visit_expressions_unmentioned; assumption
           | apply (visit_stmts_unmentioned _ IH); assumption ] ].

(** A statement without U occurrence and without assignment to D is
    answered as it is, whatever is captured. *)
Lemma visit_unmentioned (s : ast.stmt) : untouched s.
Proof.
  induction s as [i name args body IH|i v|i targets v|i t o v|i values
                 |i t it body orelse IHb IHo|i t body orelse IHb IHo
                 |i t body orelse IHb IHo|i v|i|i|i]
    using stmt_nested_ind; intros Hm Ha st;
    cbn [stmt_mentions] in Hm; cbn [assigns_to] in Ha; split_false;
    unfold LazyRemover.visit; cbn [LazyRemover.visit_node];
    try unfold LazyRemover.visit_Assign;
    try destruct v as [v|];
    rewrite generic_visit_stmt_eq; try reflexivity.
  - keep_child I. keep_child IH. reflexivity.
  - keep_child I. reflexivity.
  - assert (Hg : (targets' <- ves targets ;; v' <- field (ve v) ;;
                  ret (ast.Assign i targets' v')) st
                 = Ok (ast.Assign i targets v, st)).
    { keep_child I. keep_child I. reflexivity. }
    rewrite (bind_Ok _ _ _ _ _ Hg). rewrite Ha. reflexivity.
  - keep_child I. keep_child I. reflexivity.
  - keep_child I. reflexivity.
  - keep_child I. keep_child I. keep_child IHb. keep_child IHo. reflexivity.
  - keep_child I. keep_child IHb. keep_child IHo. reflexivity.
  - keep_child I. keep_child IHb. keep_child IHo. reflexivity.
  - keep_child I. reflexivity.
Qed.

Lemma visit_body_unmentioned (l : list ast.stmt) (st : LazyRemover.state) :
  existsb (stmt_mentions U) l = false -> existsb (assigns_to D) l = false ->
  vss l st = Ok (l, st).
Proof.
  intros Hm Ha. apply visit_stmts_unmentioned; [|exact Hm | exact Ha].
  apply List.Forall_forall. intros s _. apply visit_unmentioned.
Qed.

(** X11.  A remover run on a tree that holds no U occurrence and no
    assignment to the D occurrence is a no-op: the tree is returned as it is
    and no node is created. *)
Theorem LazyRemover_without_occurrence (node : ast.stmt) (n : nat) :
  stmt_mentions U node = false -> assigns_to D node = false ->
  LazyRemover.run U D node n = Ok (node, n).
Proof.
  intros Hm Ha. unfold LazyRemover.run.
  rewrite (visit_unmentioned node Hm Ha). reflexivity.
Qed.

Lemma visit_stmts_app (l1 l2 : list ast.stmt) :
  forall st r1 s1 r2 s2,
    vss l1 st = Ok (r1, s1) -> vss l2 s1 = Ok (r2, s2) ->
    vss (l1 ++ l2) st = Ok (r1 ++ r2, s2).
Proof.
  induction l1 as [|s l1 IH]; intros st r1 s1 r2 s2 H1 H2; simpl in *.
  - injection H1 as <- <-. exact H2.
  - bind_inversion H1. bind_inversion H1. injection H1 as <- <-.
    rewrite (bind_Ok _ _ _ _ _ Hstep).
    rewrite (bind_Ok _ _ _ _ _ (IH _ _ _ _ _ Hstep0 H2)).
    unfold ret. rewrite app_assoc. reflexivity.
Qed.

(** X12.  The mechanics of one substitution on a function whose body
    defines the variable by a single-target assignment [D = rhs]: the
    statements before it (which hold no U occurrence) stay, the assignment
    becomes a new [Pass], and in the statements after it (which do not assign
    to D again) every U occurrence is replaced by the node [rhs] itself. *)
Theorem LazyRemover_substitutes_after_the_definition
    (k : nat) (name : string) (args : list ast.expr)
    (pre : list ast.stmt) (i : nat) (rhs : ast.expr) (rest : list ast.stmt)
    (n : nat) :
  existsb (mentions U) args = false ->
  existsb (stmt_mentions U) pre = false ->
  existsb (assigns_to D) pre = false ->
  mentions U D = false ->
  mentions U rhs = false ->
  existsb (defines_elsewhere U rhs D) rest = false ->
  LazyRemover.run U D
    (ast.FunctionDef k name args (pre ++ ast.Assign i [D] rhs :: rest)) n
  = Ok (ast.FunctionDef k name args
          (pre ++ ast.Pass n :: map (substitute_stmt U rhs) rest), S n).
Proof.
  intros Hargs Hpre Hpre' HD Hrhs Hrest.
  set (st0 := {| LazyRemover.next := n; LazyRemover.capture := None |}).
  set (st1 := {| LazyRemover.next := S n; LazyRemover.capture := Some rhs |}).
  assert (Hdef : vss (ast.Assign i [D] rhs :: rest) st0
                 = Ok ([ast.Pass n] ++ map (substitute_stmt U rhs) rest, st1)).
  { simpl.
    assert (Hg : gvs (ast.Assign i [D] rhs) st0 = Ok (ast.Assign i [D] rhs, st0)).
    { rewrite generic_visit_stmt_eq.
      erewrite bind_Ok;
        [| apply visit_expressions_unmentioned; simpl; rewrite HD; reflexivity].
      erewrite bind_Ok;
        [| apply field_Ok, visit_expression_unmentioned; exact Hrhs].
      reflexivity. }
    assert (Hv : visit_stmt hook hook_stmt (ast.Assign i [D] rhs) st0
                 = Ok ([ast.Pass n], st1)).
    { assert (Ha : LazyRemover.visit_Assign D (gvs (ast.Assign i [D] rhs)) st0
                   = Ok (ast.Pass n, st1)).
      { unfold LazyRemover.visit_Assign. rewrite (bind_Ok _ _ _ _ _ Hg).
        cbn [node_in existsb]. rewrite Nat.eqb_refl. reflexivity. }
      unfold visit_stmt, LazyRemover.visit_stmt_method.
      cbn [LazyRemover.visit_node]. rewrite (bind_Ok _ _ _ _ _ Ha).
      reflexivity. }
    rewrite (bind_Ok _ _ _ _ _ Hv).
    erewrite bind_Ok;
      [| apply (visit_body_substitutes U D rhs rest st1); [reflexivity | exact Hrest]].
    reflexivity. }
  unfold LazyRemover.run, LazyRemover.visit. cbn [LazyRemover.visit_node].
  fold st0. rewrite generic_visit_stmt_eq.
  rewrite (bind_Ok _ _ _ _ _ (visit_expressions_unmentioned args st0 Hargs)).
  rewrite (bind_Ok _ _ _ _ _
             (visit_stmts_app _ _ _ _ _ _ _
                (visit_body_unmentioned pre st0 Hpre Hpre') Hdef)).
  reflexivity.
Qed.

End LazyRemover_further.

Lemma LazyRemover_without_occurrence_witness :
  LazyRemover.run [ast.Name 80 "b" ast.Load] (ast.Name 81 "b" ast.Store)
    FS_example.foo 10
  = Ok (FS_example.foo, 10).
Proof. apply LazyRemover_without_occurrence; reflexivity. Defined.

(** [def foo(): a = 2; print a + a]: the second doctest of
    [ForwardSubstitution]. *)
Lemma LazyRemover_substitutes_after_the_definition_witness :
  LazyRemover.run [ast.Name 8 "a" ast.Load; ast.Name 9 "a" ast.Load]
    (ast.Name 2 "a" ast.Store) FS_example.foo 10
  = Ok (ast.FunctionDef 0 "foo" []
          [ast.Pass 10;
           ast.Print 6 [ast.BinOp 7 FS_example.rhs ast.Add FS_example.rhs]], 11).
Proof.
  apply (LazyRemover_substitutes_after_the_definition
           [ast.Name 8 "a" ast.Load; ast.Name 9 "a" ast.Load]
           (ast.Name 2 "a" ast.Store) 0 "foo" [] [] 1 FS_example.rhs
           [ast.Print 6 [ast.BinOp 7 (ast.Name 8 "a" ast.Load) ast.Add
                           (ast.Name 9 "a" ast.Load)]] 10); reflexivity.
Defined.

(** ** [ForwardSubstitution]: the whole loop *)

Section ForwardSubstitution_loop.

Variable lazyness_analysis : gmap string lazyness.
Variable used_def_chain : gmap string ud_graph.
Variable literals : gset string.

Local Abbreviation forward :=
  (ForwardSubstitution.forward lazyness_analysis literals).

Lemma forward_blocked (name : string) (udgraph : ud_graph) (lazy : lazyness)
    (node : ast.stmt) (st : nat) :
  lazyness_analysis !! name = Some lazy ->
  not_forwardable literals name udgraph lazy ->
  forward name udgraph node st = Ok (node, st).
Proof.
  intros Hlazy Hno.
  destruct (candidate_answers lazyness_analysis literals name udgraph st lazy
              Hlazy) as (b & Hc & Hb).
  unfold ForwardSubstitution.forward. rewrite (bind_Ok _ _ _ _ _ Hc).
  destruct b; [|reflexivity].
  unfold bind. rewrite forwardable_answers.
  destruct Hno as [Hno|[Hno|[Hno|(d & Hd & Hctx)]]].
  - exfalso. apply Hno, Hb. reflexivity.
  - destruct (ForwardSubstitution.get udgraph "D") as [|d [|d' D]];
      destruct (ForwardSubstitution.get udgraph "UD"); try reflexivity;
      exfalso; apply Hno; reflexivity.
  - destruct (ForwardSubstitution.get udgraph "UD") as [|u us]; [congruence|].
    destruct (ForwardSubstitution.get udgraph "D") as [|d [|d' D]]; reflexivity.
  - rewrite Hd, Hctx. destruct (ForwardSubstitution.get udgraph "UD"); reflexivity.
Qed.

Lemma forward_all_blocked (items : list (string * ud_graph)) (node : ast.stmt)
    (st : nat) :
  Forall (fun item =>
            exists lazy, lazyness_analysis !! (fst item) = Some lazy /\
                         not_forwardable literals (fst item) (snd item) lazy)
    items ->
  ForwardSubstitution.forward_all lazyness_analysis literals items node st
  = Ok (node, st).
Proof.
  induction 1 as [|[name udgraph] items (lazy & Hlazy & Hno) _ IH]; simpl;
    [reflexivity|].
  rewrite (bind_Ok _ _ _ _ _ (forward_blocked _ _ _ node st Hlazy Hno)).
  exact IH.
Qed.

(** X13.  [visit_FunctionDef] returns the function as it is, and creates no
    node, when no variable of the use-def chains can be forwarded: each one
    is not eligible, or has not exactly one D occurrence, or has a UD
    occurrence, or is a parameter. *)
Theorem visit_FunctionDef_without_candidate (node : ast.stmt) (st : nat) :
  (forall name udgraph,
     used_def_chain !! name = Some udgraph ->
     exists lazy, lazyness_analysis !! name = Some lazy /\
                  not_forwardable literals name udgraph lazy) ->
  ForwardSubstitution.visit_FunctionDef lazyness_analysis used_def_chain
    literals node st
  = Ok (node, st).
Proof.
  intros H. unfold ForwardSubstitution.visit_FunctionDef.
  apply forward_all_blocked. apply List.Forall_forall.
  intros [name udgraph] Hin. simpl. apply H.
  apply elem_of_map_to_list. apply list_elem_of_In. exact Hin.
Qed.

End ForwardSubstitution_loop.

(** A parameter is never forwarded: [def bar(a): return a] stays. *)
Lemma visit_FunctionDef_without_candidate_witness :
  ForwardSubstitution.visit_FunctionDef bar_lazyness bar_chains ∅ bar 4
  = Ok (bar, 4).
Proof.
  apply visit_FunctionDef_without_candidate.
  intros name udgraph H. unfold bar_chains in H.
  apply lookup_singleton_Some in H. destruct H as [<- <-].
  exists (Count 1). split; [reflexivity|].
  right. right. right. exists (ast.Name 1 "a" ast.Param).
  split; reflexivity.
Defined.

(** ** [Pow2] *)

Section Pow2_properties.

Local Abbreviation hook := Pow2.visit_expr_method.
Local Abbreviation gve := (generic_visit_expr hook).
Local Abbreviation ve := (visit_expr hook).
Local Abbreviation ves := (visit_exprs hook).
Local Abbreviation gvs := (generic_visit_stmt hook default_visit_stmt).
Local Abbreviation vss := (visit_stmts hook default_visit_stmt).

Local Abbreviation rewritten e :=
  (forall st, exists e' st',
      ve e st = Ok (Some e', st') /\ squares e' = 0 /\
      payload e' = payload e /\ st' = st + 3 * squares e).

Lemma visit_exprs_rewritten (l : list ast.expr) :
  Forall (fun e => rewritten e) l ->
  forall st, exists l' st',
    ves l st = Ok (l', st') /\ list_sum (map squares l') = 0 /\
    st' = st + 3 * list_sum (map squares l).
Proof.
  induction 1 as [|e l He _ IH]; intros st.
  - exists [], st. repeat split. simpl. lia.
  - destruct (He st) as (e' & st1 & H1 & Hs1 & _ & ->).
    destruct (IH (st + 3 * squares e)) as (l' & st2 & H2 & Hs2 & ->).
    exists (e' :: l'), (st + 3 * squares e + 3 * list_sum (map squares l)).
    split; [|split].
    + simpl. rewrite (bind_Ok _ _ _ _ _ H1). rewrite (bind_Ok _ _ _ _ _ H2).
      reflexivity.
    + simpl. lia.
    + simpl. lia.
Qed.

Ltac pow2_done :=
  eexists _, _; split; [reflexivity|];
  cbn [squares is_square payload list_sum fold_right map] in *;
  repeat match goal with E : Pow2.equals_2 _ = _ |- _ => rewrite E end;
  split; [lia|split; [reflexivity|lia]].

Ltac pow2_generic :=
  split; [|split; [|split; [reflexivity|]]];
  [ unfold visit_expr; cbn [Pow2.visit_expr_method]; unfold default_visit_expr;
    rewrite generic_visit_expr_eq; unfold field, bind, ret;
    repeat (match goal with H : _ = Ok _ |- _ => rewrite H; clear H end;
            cbv beta iota);
    reflexivity
  | cbn [squares is_square]; lia
  | cbn [squares is_square]; lia ].

Lemma visit_expression_rewritten (e : ast.expr) : rewritten e.
Proof.
  induction e as [i n|i s|i id x|i v a x IHv|i l o r IHl IHr
                 |i f args IHf IHargs|i elts x IH|i elts x IH|i elts IH
                 |i ks vs IHk IHv|i v sl x IHv IHsl|i v IHv|i|i v IHv]
    using expr_nested_ind; intros st.
  - exists (ast.Num i n), st. repeat split. simpl. lia.
  - exists (ast.Str i s), st. repeat split. simpl. lia.
  - exists (ast.Name i id x), st. repeat split. simpl. lia.
  - destruct (IHv st) as (v' & st1 & H1 & Hs1 & _ & ->).
    exists (ast.Attribute i v' a x), (st + 3 * squares v).
    split; [|split; [|split]]; try reflexivity.
    + unfold visit_expr. cbn [Pow2.visit_expr_method]. unfold default_visit_expr.
      rewrite generic_visit_expr_eq. unfold field, bind. rewrite H1. reflexivity.
    + simpl. exact Hs1.
  - destruct (IHl st) as (l' & st1 & H1 & Hs1 & _ & ->).
    destruct (IHr (st + 3 * squares l)) as (r' & st2 & H2 & Hs2 & Hp2 & ->).
    assert (Hg : gve (ast.BinOp i l o r) st
                 = Ok (ast.BinOp i l' o r',
                       st + 3 * squares l + 3 * squares r)).
    { rewrite generic_visit_expr_eq. unfold field, bind, ret. rewrite H1. cbv beta iota. rewrite H2.
      reflexivity. }
    unfold visit_expr. cbn [Pow2.visit_expr_method]. unfold Pow2.visit_BinOp.
    rewrite (bind_Ok _ _ _ _ _ Hg).
    cbn [squares is_square]. rewrite <- Hp2.
    destruct o; try solve [pow2_done].
    destruct r' as [j n| | | | | | | | | | | |]; try solve [pow2_done].
    destruct (Pow2.equals_2 n) eqn:E; pow2_done.
  - destruct (IHf st) as (f' & st1 & H1 & Hs1 & _ & ->).
    destruct (visit_exprs_rewritten _ IHargs (st + 3 * squares f))
      as (args' & st2 & H2 & Hs2 & ->).
    exists (ast.Call i f' args'),
      (st + 3 * squares f + 3 * list_sum (map squares args)).
    split; [|split; [|split]]; try reflexivity.
    + unfold visit_expr. cbn [Pow2.visit_expr_method]. unfold default_visit_expr.
      rewrite generic_visit_expr_eq. unfold field, bind, ret. rewrite H1.
      cbv beta iota. rewrite H2. reflexivity.
    + cbn [squares is_square]. lia.
    + cbn [squares is_square]. lia.
  - destruct (visit_exprs_rewritten _ IH st) as (elts' & st1 & H1 & Hs1 & ->).
    exists (ast.List i elts' x), (st + 3 * list_sum (map squares elts)).
    pow2_generic.
  - destruct (visit_exprs_rewritten _ IH st) as (elts' & st1 & H1 & Hs1 & ->).
    exists (ast.Tuple i elts' x), (st + 3 * list_sum (map squares elts)).
    pow2_generic.
  - destruct (visit_exprs_rewritten _ IH st) as (elts' & st1 & H1 & Hs1 & ->).
    exists (ast.Set_ i elts'), (st + 3 * list_sum (map squares elts)).
    pow2_generic.
  - destruct (visit_exprs_rewritten _ IHk st) as (ks' & st1 & H1 & Hs1 & ->).
    destruct (visit_exprs_rewritten _ IHv (st + 3 * list_sum (map squares ks)))
      as (vs' & st2 & H2 & Hs2 & ->).
    exists (ast.Dict i ks' vs'),
      (st + 3 * list_sum (map squares ks) + 3 * list_sum (map squares vs)).
    pow2_generic.
  - destruct (IHv st) as (v' & st1 & H1 & Hs1 & _ & ->).
    destruct (IHsl (st + 3 * squares v)) as (sl' & st2 & H2 & Hs2 & _ & ->).
    exists (ast.Subscript i v' sl' x), (st + 3 * squares v + 3 * squares sl).
    pow2_generic.
  - destruct (IHv st) as (v' & st1 & H1 & Hs1 & _ & ->).
    exists (ast.Index i v'), (st + 3 * squares v).
    pow2_generic.
  - exists (ast.Yield i None), st. repeat split. simpl. lia.
  - destruct (IHv st) as (v' & st1 & H1 & Hs1 & _ & ->).
    exists (ast.Yield i (Some v')), (st + 3 * squares v).
    pow2_generic.
Qed.

Lemma visit_expressions_rewritten (l : list ast.expr) (st : nat) :
  exists l' st',
    ves l st = Ok (l', st') /\ list_sum (map squares l') = 0 /\
    st' = st + 3 * list_sum (map squares l).
Proof.
  apply visit_exprs_rewritten, List.Forall_forall.
  intros e _. apply visit_expression_rewritten.
Qed.

Local Abbreviation stmt_rewritten s :=
  (forall st, exists s' st',
      gvs s st = Ok (s', st') /\ stmt_squares s' = 0 /\
      st' = st + 3 * stmt_squares s).

Lemma visit_stmts_rewritten (l : list ast.stmt) :
  Forall (fun s => stmt_rewritten s) l ->
  forall st, exists l' st',
    vss l st = Ok (l', st') /\ list_sum (map stmt_squares l') = 0 /\
    st' = st + 3 * list_sum (map stmt_squares l).
Proof.
  induction 1 as [|s l Hs _ IH]; intros st.
  - exists [], st. repeat split. simpl. lia.
  - destruct (Hs st) as (s' & st1 & H1 & Hs1 & ->).
    destruct (IH (st + 3 * stmt_squares s)) as (l' & st2 & H2 & Hs2 & ->).
    exists (s' :: l'), (st + 3 * stmt_squares s + 3 * list_sum (map stmt_squares l)).
    split; [|split].
    + cbn [visit_stmts]. unfold visit_stmt.
      change (default_visit_stmt s (gvs s))
        with (bind (gvs s) (fun n => ret [n])).
      unfold bind, ret. rewrite H1.
      cbv beta iota. rewrite H2. reflexivity.
    + simpl. lia.
    + simpl. lia.
Qed.

Ltac pow2_expr_field e st :=
  let e' := fresh e "'" in
  let H := fresh "H" in
  let Hs := fresh "Hs" in
  destruct (visit_expression_rewritten e st) as (e' & ? & H & Hs & _ & ->).

Ltac pow2_exprs_field l st :=
  let l' := fresh l "'" in
  let H := fresh "H" in
  let Hs := fresh "Hs" in
  destruct (visit_expressions_rewritten l st) as (l' & ? & H & Hs & ->).

Ltac pow2_stmts_field IH st :=
  let l' := fresh "body'" in
  let H := fresh "H" in
  let Hs := fresh "Hs" in
  destruct (visit_stmts_rewritten _ IH st) as (l' & ? & H & Hs & ->).

Ltac pow2_stmt :=
  eexists _, _; split;
  [ rewrite generic_visit_stmt_eq; unfold field, bind, ret;
    repeat (match goal with H : _ = Ok _ |- _ => rewrite H; clear H end;
            cbv beta iota);
    reflexivity
  | cbn [stmt_squares]; split; lia ].

Lemma visit_statement_rewritten (s : ast.stmt) : stmt_rewritten s.
Proof.
  induction s as [i name args body IH|i [v|]|i targets v|i t o v|i values
                 |i t it body orelse IHb IHo|i t body orelse IHb IHo
                 |i t body orelse IHb IHo|i v|i|i|i]
    using stmt_nested_ind; intros st.
  - pow2_exprs_field args st.
    pow2_stmts_field IH (st + 3 * list_sum (map squares args)).
    pow2_stmt.
  - pow2_expr_field v st. pow2_stmt.
  - pow2_stmt.
  - pow2_exprs_field targets st.
    pow2_expr_field v (st + 3 * list_sum (map squares targets)).
    pow2_stmt.
  - pow2_expr_field t st. pow2_expr_field v (st + 3 * squares t). pow2_stmt.
  - pow2_exprs_field values st. pow2_stmt.
  - pow2_expr_field t st. pow2_expr_field it (st + 3 * squares t).
    pow2_stmts_field IHb (st + 3 * squares t + 3 * squares it).
    pow2_stmts_field IHo (st + 3 * squares t + 3 * squares it
                          + 3 * list_sum (map stmt_squares body)).
    pow2_stmt.
  - pow2_expr_field t st.
    pow2_stmts_field IHb (st + 3 * squares t).
    pow2_stmts_field IHo (st + 3 * squares t
                          + 3 * list_sum (map stmt_squares body)).
    pow2_stmt.
  - pow2_expr_field t st.
    pow2_stmts_field IHb (st + 3 * squares t).
    pow2_stmts_field IHo (st + 3 * squares t
                          + 3 * list_sum (map stmt_squares body)).
    pow2_stmt.
  - pow2_expr_field v st. pow2_stmt.
  - pow2_stmt.
  - pow2_stmt.
  - pow2_stmt.
Qed.

Local Abbreviation square_free e :=
  (squares e = 0 -> forall st, ve e st = Ok (Some e, st)).

Lemma visit_exprs_square_free (l : list ast.expr) :
  Forall (fun e => square_free e) l ->
  list_sum (map squares l) = 0 -> forall st, ves l st = Ok (l, st).
Proof.
  induction 1 as [|e l He _ IH]; intros Hno st; [reflexivity|].
  cbn [map list_sum fold_right] in Hno. fold (list_sum (map squares l)) in Hno.
  cbn [visit_exprs]. unfold bind, ret.
  rewrite (He ltac:(lia) st). cbv beta iota.
  rewrite (IH ltac:(lia) st). reflexivity.
Qed.

Ltac pow2_same :=
  unfold visit_expr; cbn [Pow2.visit_expr_method]; unfold default_visit_expr;
  rewrite generic_visit_expr_eq; unfold field, bind, ret;
  repeat (match goal with H : _ = Ok _ |- _ => rewrite H; clear H end;
          cbv beta iota);
  reflexivity.

Lemma visit_expression_square_free (e : ast.expr) : square_free e.
Proof.
  induction e as [i n|i s|i id x|i v a x IHv|i l o r IHl IHr
                 |i f args IHf IHargs|i elts x IH|i elts x IH|i elts IH
                 |i ks vs IHk IHv|i v sl x IHv IHsl|i v IHv|i|i v IHv]
    using expr_nested_ind; intros Hno st; cbn [squares] in Hno.
  - reflexivity.
  - reflexivity.
  - reflexivity.
  - pose proof (IHv ltac:(lia) st). pow2_same.
  - assert (Hq : is_square (ast.BinOp i l o r) = false)
      by (destruct (is_square (ast.BinOp i l o r)); [lia|reflexivity]).
    pose proof (IHl ltac:(lia) st) as H1. pose proof (IHr ltac:(lia) st) as H2.
    assert (Hg : gve (ast.BinOp i l o r) st = Ok (ast.BinOp i l o r, st)).
    { rewrite generic_visit_expr_eq. unfold field, bind, ret. rewrite H1.
      cbv beta iota. rewrite H2. reflexivity. }
    unfold visit_expr. cbn [Pow2.visit_expr_method]. unfold Pow2.visit_BinOp.
    rewrite (bind_Ok _ _ _ _ _ Hg).
    destruct o; try reflexivity. destruct r; try reflexivity.
    cbn [is_square payload] in Hq. rewrite Hq. reflexivity.
  - pose proof (IHf ltac:(lia) st).
    pose proof (visit_exprs_square_free _ IHargs ltac:(lia) st). pow2_same.
  - pose proof (visit_exprs_square_free _ IH ltac:(lia) st). pow2_same.
  - pose proof (visit_exprs_square_free _ IH ltac:(lia) st). pow2_same.
  - pose proof (visit_exprs_square_free _ IH ltac:(lia) st). pow2_same.
  - pose proof (visit_exprs_square_free _ IHk ltac:(lia) st).
    pose proof (visit_exprs_square_free _ IHv ltac:(lia) st). pow2_same.
  - pose proof (IHv ltac:(lia) st). pose proof (IHsl ltac:(lia) st). pow2_same.
  - pose proof (IHv ltac:(lia) st). pow2_same.
  - reflexivity.
  - pose proof (IHv ltac:(lia) st). pow2_same.
Qed.

Lemma visit_expressions_square_free (l : list ast.expr) (st : nat) :
  list_sum (map squares l) = 0 -> ves l st = Ok (l, st).
Proof.
  intros H. apply visit_exprs_square_free; [|exact H].
  apply List.Forall_forall. intros e _. apply visit_expression_square_free.
Qed.

Local Abbreviation stmt_square_free s :=
  (stmt_squares s = 0 -> forall st, gvs s st = Ok (s, st)).

Lemma visit_stmts_square_free (l : list ast.stmt) :
  Forall (fun s => stmt_square_free s) l ->
  list_sum (map stmt_squares l) = 0 -> forall st, vss l st = Ok (l, st).
Proof.
  induction 1 as [|s l Hs _ IH]; intros Hno st; [reflexivity|].
  cbn [map list_sum fold_right] in Hno.
  fold (list_sum (map stmt_squares l)) in Hno.
  cbn [visit_stmts]. unfold visit_stmt.
  change (default_visit_stmt s (gvs s)) with (bind (gvs s) (fun n => ret [n])).
  unfold bind, ret. rewrite (Hs ltac:(lia) st). cbv beta iota.
  rewrite (IH ltac:(lia) st). reflexivity.
Qed.

Ltac pow2_same_stmt :=
  rewrite generic_visit_stmt_eq; unfold field, bind, ret;
  repeat (match goal with H : _ = Ok _ |- _ => rewrite H; clear H end;
          cbv beta iota);
  reflexivity.

Lemma visit_statement_square_free (s : ast.stmt) : stmt_square_free s.
Proof.
  induction s as [i name args body IH|i [v|]|i targets v|i t o v|i values
                 |i t it body orelse IHb IHo|i t body orelse IHb IHo
                 |i t body orelse IHb IHo|i v|i|i|i]
    using stmt_nested_ind; intros Hno st; cbn [stmt_squares] in Hno.
  - pose proof (visit_expressions_square_free args st ltac:(lia)).
    pose proof (visit_stmts_square_free _ IH ltac:(lia) st). pow2_same_stmt.
  - pose proof (visit_expression_square_free v ltac:(lia) st). pow2_same_stmt.
  - reflexivity.
  - pose proof (visit_expressions_square_free targets st ltac:(lia)).
    pose proof (visit_expression_square_free v ltac:(lia) st). pow2_same_stmt.
  - pose proof (visit_expression_square_free t ltac:(lia) st).
    pose proof (visit_expression_square_free v ltac:(lia) st). pow2_same_stmt.
  - pose proof (visit_expressions_square_free values st ltac:(lia)).
    pow2_same_stmt.
  - pose proof (visit_expression_square_free t ltac:(lia) st).
    pose proof (visit_expression_square_free it ltac:(lia) st).
    pose proof (visit_stmts_square_free _ IHb ltac:(lia) st).
    pose proof (visit_stmts_square_free _ IHo ltac:(lia) st). pow2_same_stmt.
  - pose proof (visit_expression_square_free t ltac:(lia) st).
    pose proof (visit_stmts_square_free _ IHb ltac:(lia) st).
    pose proof (visit_stmts_square_free _ IHo ltac:(lia) st). pow2_same_stmt.
  - pose proof (visit_expression_square_free t ltac:(lia) st).
    pose proof (visit_stmts_square_free _ IHb ltac:(lia) st).
    pose proof (visit_stmts_square_free _ IHo ltac:(lia) st). pow2_same_stmt.
  - pose proof (visit_expression_square_free v ltac:(lia) st). pow2_same_stmt.
  - reflexivity.
  - reflexivity.
  - reflexivity.
Qed.

(** X14.  [Pow2] never fails, and it leaves no power by a number that equals
    2: on every statement the pass answers a statement without such a power,
    and it has created three nodes (the call, the attribute and the name)
    for each such power of the statement it was given. *)
Theorem Pow2_replaces_every_square (s : ast.stmt) (st : nat) :
  exists s',
    Pow2.visit s st = Ok (s', st + 3 * stmt_squares s) /\ stmt_squares s' = 0.
Proof.
  destruct (visit_statement_rewritten s st) as (s' & st' & H & Hs & ->).
  exists s'. split; [exact H|exact Hs].
Qed.

(** X15.  [Pow2] returns a statement that holds no power by a number that
    equals 2 as it is, and creates no node. *)
Theorem Pow2_changes_squares_only (s : ast.stmt) (st : nat) :
  stmt_squares s = 0 -> Pow2.visit s st = Ok (s, st).
Proof. intros H. apply visit_statement_square_free. exact H. Qed.

(** X16.  [Pow2] is idempotent: on its own answer the pass changes nothing
    and creates no node. *)
Theorem Pow2_idempotent (s s' : ast.stmt) (st st' st'' : nat) :
  Pow2.visit s st = Ok (s', st') -> Pow2.visit s' st'' = Ok (s', st'').
Proof.
  intros H. destruct (visit_statement_rewritten s st) as (s1 & st1 & H1 & Hs & _).
  unfold Pow2.visit in H. rewrite H1 in H. injection H as <- _.
  apply visit_statement_square_free. exact Hs.
Qed.

End Pow2_properties.

(** The doctest of [Pow2]: [a**2] becomes [__builtin__.pow2(a)]; the
    argument is the node of [a] itself. *)
Example Pow2_doctest :
  Pow2.visit a_squared 4
  = Ok (ast.Expr 0
          (ast.Call 6
             (ast.Attribute 5 (ast.Name 4 "__builtin__" ast.Load) "pow2"
                ast.Load)
             [ast.Name 2 "a" ast.Load]), 7).
Proof. reflexivity. Qed.

Lemma Pow2_changes_squares_only_witness :
  Pow2.visit DCE_example.foo 20 = Ok (DCE_example.foo, 20).
Proof. apply Pow2_changes_squares_only. reflexivity. Defined.

Lemma Pow2_idempotent_witness :
  Pow2.visit
    (ast.Expr 0
       (ast.Call 6
          (ast.Attribute 5 (ast.Name 4 "__builtin__" ast.Load) "pow2" ast.Load)
          [ast.Name 2 "a" ast.Load])) 7
  = Ok (ast.Expr 0
          (ast.Call 6
             (ast.Attribute 5 (ast.Name 4 "__builtin__" ast.Load) "pow2"
                ast.Load)
             [ast.Name 2 "a" ast.Load]), 7).
Proof. apply (Pow2_idempotent a_squared _ 4 7 7). reflexivity. Defined.

(** ** [IterTransformation] *)

Section IterTransformation_properties.

Context {alias : Type}.
Variable same_aliases : alias -> alias -> bool.
Variable potential_iterator : gset nat.
Variable aliases : list (ast.expr * alias).
Variable equivalent_iterators : gmap string (string * string).

Local Abbreviation aliases_get := (IterTransformation.aliases_get aliases).
Local Abbreviation builtin_attr := IterTransformation.builtin_attr.
Local Abbreviation first_builtin := (IterTransformation.first_builtin same_aliases).
Local Abbreviation find_matching_builtin :=
  (IterTransformation.find_matching_builtin same_aliases aliases).
Local Abbreviation new_func :=
  (IterTransformation.new_func same_aliases potential_iterator aliases
     equivalent_iterators).
Local Abbreviation visit_expression :=
  (IterTransformation.visit_expression same_aliases potential_iterator aliases
     equivalent_iterators).
Local Abbreviation visit_expressions :=
  (IterTransformation.visit_expressions same_aliases potential_iterator aliases
     equivalent_iterators).
Local Abbreviation hook :=
  (IterTransformation.visit_expr_method same_aliases potential_iterator aliases
     equivalent_iterators).
Local Abbreviation replaces :=
  (IterTransformation.replaces same_aliases potential_iterator aliases
     equivalent_iterators).
Local Abbreviation replaces_in :=
  (IterTransformation.replaces_in same_aliases potential_iterator aliases
     equivalent_iterators).
Local Abbreviation replaces_in_stmt :=
  (IterTransformation.replaces_in_stmt same_aliases potential_iterator aliases
     equivalent_iterators).
Local Abbreviation gvs := (generic_visit_stmt hook default_visit_stmt).
Local Abbreviation vss := (visit_stmts hook default_visit_stmt).

Lemma first_builtin_Some (a : alias) (items : list (ast.expr * alias))
    (attr : string) :
  first_builtin a items = Some attr ->
  exists k v, In (k, v) items /\ builtin_attr k = Some attr /\
              same_aliases a v = true.
Proof.
  induction items as [|[k v] items IH]; simpl; [discriminate|].
  destruct (builtin_attr k) as [attr'|] eqn:Hk.
  - destruct (same_aliases a v) eqn:Hv.
    + intros [= <-]. exists k, v. repeat split; auto.
    + intros H. destruct (IH H) as (k' & v' & Hin & Hk' & Hv').
      exists k', v'. repeat split; auto.
  - intros H. destruct (IH H) as (k' & v' & Hin & Hk' & Hv').
    exists k', v'. repeat split; auto.
Qed.

Lemma first_builtin_None (a : alias) (items : list (ast.expr * alias)) :
  first_builtin a items = None ->
  forall k v attr, In (k, v) items -> builtin_attr k = Some attr ->
                   same_aliases a v = false.
Proof.
  induction items as [|[k v] items IH]; simpl; [intros _ k v attr []|].
  intros H k' v' attr [[= <- <-]|Hin] Hk'.
  - rewrite Hk' in H. destruct (same_aliases a v); [discriminate|reflexivity].
  - destruct (builtin_attr k) as [attr'|].
    + destruct (same_aliases a v); [discriminate|]. exact (IH H k' v' attr Hin Hk').
    + exact (IH H k' v' attr Hin Hk').
Qed.

(** X17.  [find_matching_builtin] answers the attribute of a key
    [__builtin__.attr] of [self.aliases] whose aliases equal those of
    [node.func]; it answers [None] only when [node.func] is no key or no key
    of that kind has equal aliases. *)
Theorem find_matching_builtin_answers (func : ast.expr) :
  match find_matching_builtin func with
  | Some attr =>
      exists a k v,
        aliases_get func = Some a /\ In (k, v) aliases /\
        builtin_attr k = Some attr /\ same_aliases a v = true
  | None =>
      forall a k v attr,
        aliases_get func = Some a -> In (k, v) aliases ->
        builtin_attr k = Some attr -> same_aliases a v = false
  end.
Proof.
  unfold IterTransformation.find_matching_builtin.
  destruct (aliases_get func) as [a|] eqn:Ha.
  - destruct (first_builtin a aliases) as [attr|] eqn:Hf.
    + destruct (first_builtin_Some _ _ _ Hf) as (k & v & Hin & Hk & Hv).
      exists a, k, v. repeat split; auto.
    + intros a' k v attr [= <-]. exact (first_builtin_None _ _ Hf k v attr).
  - intros a k v attr H. discriminate.
Qed.

Lemma visit_expression_eq (e : ast.expr) :
  visit_expression e =
  match e with
  | ast.Num _ _ | ast.Str _ _ | ast.Name _ _ _ => ret (Some e)
  | ast.Attribute i v a c =>
      v' <- field (visit_expression v) ;; ret (Some (ast.Attribute i v' a c))
  | ast.BinOp i l o r =>
      l' <- field (visit_expression l) ;; r' <- field (visit_expression r) ;;
      ret (Some (ast.BinOp i l' o r'))
  | ast.Call i func args =>
      replaced <- new_func i func ;;
      func' <- field (match replaced with
                      | Some attribute => visit_expr default_visit_expr attribute
                      | None => visit_expression func
                      end) ;;
      args' <- visit_expressions args ;;
      ret (Some (ast.Call i func' args'))
  | ast.List i elts c =>
      elts' <- visit_expressions elts ;; ret (Some (ast.List i elts' c))
  | ast.Tuple i elts c =>
      elts' <- visit_expressions elts ;; ret (Some (ast.Tuple i elts' c))
  | ast.Set_ i elts =>
      elts' <- visit_expressions elts ;; ret (Some (ast.Set_ i elts'))
  | ast.Dict i ks vs =>
      ks' <- visit_expressions ks ;; vs' <- visit_expressions vs ;;
      ret (Some (ast.Dict i ks' vs'))
  | ast.Subscript i v sl c =>
      v' <- field (visit_expression v) ;; sl' <- field (visit_expression sl) ;;
      ret (Some (ast.Subscript i v' sl' c))
  | ast.Index i v => v' <- field (visit_expression v) ;; ret (Some (ast.Index i v'))
  | ast.Yield i None => ret (Some e)
  | ast.Yield i (Some v) =>
      v' <- field (visit_expression v) ;; ret (Some (ast.Yield i (Some v')))
  end.
Proof. destruct e as [| | | | | | | | | | | |i [v|]]; reflexivity. Qed.

Lemma visit_exprs_is_visit_expressions (l : list ast.expr) :
  visit_exprs hook l = visit_expressions l.
Proof. induction l as [|e l IH]; simpl; [reflexivity|]. rewrite IH. reflexivity. Qed.

Lemma new_func_None (i : nat) (func : ast.expr) (st : nat) :
  replaces i func = false -> new_func i func st = Ok (None, st).
Proof.
  unfold IterTransformation.replaces, IterTransformation.new_func.
  destruct (in_set i potential_iterator); [|reflexivity]. simpl.
  destruct (find_matching_builtin func) as [f|]; [|reflexivity].
  destruct (equivalent_iterators !! f) as [[ns new]|]; [|reflexivity].
  intros H. apply bool_decide_eq_false in H. exfalso. apply H. eexists. reflexivity.
Qed.

Local Abbreviation kept e :=
  (replaces_in e = false -> forall st, visit_expression e st = Ok (Some e, st)).

Lemma visit_expressions_kept_all (l : list ast.expr) :
  Forall (fun e => kept e) l ->
  existsb replaces_in l = false ->
  forall st, visit_expressions l st = Ok (l, st).
Proof.
  induction 1 as [|e l He _ IH]; intros Hno st; [reflexivity|].
  cbn [existsb] in Hno. apply orb_false_iff in Hno. destruct Hno as [H1 H2].
  cbn [IterTransformation.visit_expressions]. unfold bind, ret.
  rewrite (He H1 st). cbv beta iota. rewrite (IH H2 st). reflexivity.
Qed.

Ltac iter_same :=
  rewrite visit_expression_eq; unfold field, bind, ret;
  repeat (match goal with H : _ = Ok _ |- _ => rewrite H; clear H end;
          cbv beta iota);
  reflexivity.

Ltac iter_split :=
  repeat match goal with
         | H : _ || _ = false |- _ =>
             apply orb_false_iff in H; destruct H
         end.

Lemma visit_expression_kept (e : ast.expr) : kept e.
Proof.
  induction e as [i n|i s|i id x|i v a x IHv|i l o r IHl IHr
                 |i f args IHf IHargs|i elts x IH|i elts x IH|i elts IH
                 |i ks vs IHk IHv|i v sl x IHv IHsl|i v IHv|i|i v IHv]
    using expr_nested_ind; intros Hno st;
    cbn [IterTransformation.replaces_in] in Hno; iter_split.
  - reflexivity.
  - reflexivity.
  - reflexivity.
  - pose proof (IHv Hno st). iter_same.
  - pose proof (IHl ltac:(assumption) st). pose proof (IHr ltac:(assumption) st).
    iter_same.
  - pose proof (new_func_None i f st ltac:(assumption)).
    pose proof (IHf ltac:(assumption) st).
    pose proof (visit_expressions_kept_all _ IHargs ltac:(assumption) st).
    iter_same.
  - pose proof (visit_expressions_kept_all _ IH Hno st). iter_same.
  - pose proof (visit_expressions_kept_all _ IH Hno st). iter_same.
  - pose proof (visit_expressions_kept_all _ IH Hno st). iter_same.
  - pose proof (visit_expressions_kept_all _ IHk ltac:(assumption) st).
    pose proof (visit_expressions_kept_all _ IHv ltac:(assumption) st).
    iter_same.
  - pose proof (IHv ltac:(assumption) st). pose proof (IHsl ltac:(assumption) st).
    iter_same.
  - pose proof (IHv Hno st). iter_same.
  - reflexivity.
  - pose proof (IHv Hno st). iter_same.
Qed.

Lemma visit_expr_kept (e : ast.expr) (st : nat) :
  replaces_in e = false -> visit_expr hook e st = Ok (Some e, st).
Proof. intros H. exact (visit_expression_kept e H st). Qed.

Lemma visit_exprs_kept (l : list ast.expr) (st : nat) :
  existsb replaces_in l = false -> visit_exprs hook l st = Ok (l, st).
Proof.
  intros H. rewrite visit_exprs_is_visit_expressions.
  apply visit_expressions_kept_all; [|exact H].
  apply List.Forall_forall. intros e _. apply visit_expression_kept.
Qed.

Local Abbreviation stmt_kept s :=
  (replaces_in_stmt s = false -> forall st, gvs s st = Ok (s, st)).

Lemma visit_stmts_kept (l : list ast.stmt) :
  Forall (fun s => stmt_kept s) l ->
  existsb replaces_in_stmt l = false -> forall st, vss l st = Ok (l, st).
Proof.
  induction 1 as [|s l Hs _ IH]; intros Hno st; [reflexivity|].
  cbn [existsb] in Hno. apply orb_false_iff in Hno. destruct Hno as [H1 H2].
  cbn [visit_stmts]. unfold visit_stmt.
  change (default_visit_stmt s (gvs s)) with (bind (gvs s) (fun n => ret [n])).
  unfold bind, ret. rewrite (Hs H1 st). cbv beta iota.
  rewrite (IH H2 st). reflexivity.
Qed.

Ltac iter_same_stmt :=
  rewrite generic_visit_stmt_eq; unfold field, bind, ret;
  repeat (match goal with H : _ = Ok _ |- _ => rewrite H; clear H end;
          cbv beta iota);
  reflexivity.

Lemma visit_statement_kept (s : ast.stmt) : stmt_kept s.
Proof.
  induction s as [i name args body IH|i [v|]|i targets v|i t o v|i values
                 |i t it body orelse IHb IHo|i t body orelse IHb IHo
                 |i t body orelse IHb IHo|i v|i|i|i]
    using stmt_nested_ind; intros Hno st;
    cbn [IterTransformation.replaces_in_stmt] in Hno; iter_split.
  - pose proof (visit_exprs_kept args st ltac:(assumption)).
    pose proof (visit_stmts_kept _ IH ltac:(assumption) st). iter_same_stmt.
  - pose proof (visit_expr_kept v st Hno). iter_same_stmt.
  - reflexivity.
  - pose proof (visit_exprs_kept targets st ltac:(assumption)).
    pose proof (visit_expr_kept v st ltac:(assumption)). iter_same_stmt.
  - pose proof (visit_expr_kept t st ltac:(assumption)).
    pose proof (visit_expr_kept v st ltac:(assumption)). iter_same_stmt.
  - pose proof (visit_exprs_kept values st Hno). iter_same_stmt.
  - pose proof (visit_expr_kept t st ltac:(assumption)).
    pose proof (visit_expr_kept it st ltac:(assumption)).
    pose proof (visit_stmts_kept _ IHb ltac:(assumption) st).
    pose proof (visit_stmts_kept _ IHo ltac:(assumption) st). iter_same_stmt.
  - pose proof (visit_expr_kept t st ltac:(assumption)).
    pose proof (visit_stmts_kept _ IHb ltac:(assumption) st).
    pose proof (visit_stmts_kept _ IHo ltac:(assumption) st). iter_same_stmt.
  - pose proof (visit_expr_kept t st ltac:(assumption)).
    pose proof (visit_stmts_kept _ IHb ltac:(assumption) st).
    pose proof (visit_stmts_kept _ IHo ltac:(assumption) st). iter_same_stmt.
  - pose proof (visit_expr_kept v st Hno). iter_same_stmt.
  - reflexivity.
  - reflexivity.
  - reflexivity.
Qed.

(** X18.  [IterTransformation] returns a statement as it is, and creates no
    node, when none of its calls gets a new [func]: each call is no
    potential iterator, or its [func] matches no builtin, or the builtin has
    no equivalent iterator. *)
Theorem IterTransformation_without_replaced_call (s : ast.stmt) (st : nat) :
  replaces_in_stmt s = false ->
  IterTransformation.visit same_aliases potential_iterator aliases
    equivalent_iterators s st
  = Ok (s, st).
Proof. intros H. apply visit_statement_kept. exact H. Qed.

End IterTransformation_properties.

(** The doctest of [IterTransformation]: [range] becomes [xrange] in [bar],
    [foo] stays. *)
Example IterTransformation_doctest :
  IT_example.visit IT_example.bar 20
  = Ok (ast.FunctionDef 0 "bar" [ast.Name 1 "n" ast.Param]
          [ast.Return 2
             (Some (ast.Call 3 (ast.Name 4 "foo" ast.Load)
                      [ast.Call 5
                         (ast.Attribute 21 (ast.Name 20 "__builtin__" ast.Load)
                            "xrange" ast.Load)
                         [ast.Name 8 "n" ast.Load]]))], 22).
Proof. vm_compute. reflexivity. Qed.

Lemma IterTransformation_without_replaced_call_witness :
  IT_example.visit IT_example.foo 20 = Ok (IT_example.foo, 20).
Proof.
  apply IterTransformation_without_replaced_call. vm_compute. reflexivity.
Defined.
